(** * Generator bootstrap (app.js): plugin discovery, version resolution,
      module sandbox and connection options

    A shallow embedding of [app.js].  JavaScript strings are modelled as
    [string] (sequences of code units below 256), JavaScript exceptions and
    mutable process state by a state-and-exception monad over a [World]
    record, and the collaborators the file calls into (file system, path
    resolution, engine, semver package) by an interface class; Node's own
    module-path function is a parameter of the patched one. *)

From Stdlib Require Import ZArith Ascii String Sorted.
From stdpp Require Import base numbers option list strings gmap pretty.

Local Open Scope Z_scope.

(** ** JavaScript values that flow through app.js *)

(** The values command-line parsing and package metadata can deliver.
    Numbers are file descriptors and ports here, hence integers; [VObj] is
    an opaque object (arrays and objects are always truthy). *)
Inductive value : Type :=
  | VUndefined
  | VNull
  | VBool (b : bool)
  | VNum (n : Z)
  | VStr (s : string)
  | VObj (tag : string).

Global Instance value_eq_dec : EqDecision value.
Proof. solve_decision. Defined.

Global Instance value_inhabited : Inhabited value := populate VUndefined.

Inductive jstype : Type :=
  | TUndefined | TObject | TBoolean | TNumber | TString.

Global Instance jstype_eq_dec : EqDecision jstype.
Proof. solve_decision. Defined.

(** [typeof v] *)
Definition typeof (v : value) : jstype :=
  match v with
  | VUndefined => TUndefined
  | VNull => TObject
  | VBool _ => TBoolean
  | VNum _ => TNumber
  | VStr _ => TString
  | VObj _ => TObject
  end.

(** ToBoolean, as used by [if (v)], [!v], [a && b] and [Array.filter]. *)
Definition truthy (v : value) : bool :=
  match v with
  | VUndefined | VNull => false
  | VBool b => b
  | VNum n => negb (n =? 0)
  | VStr s => negb (String.eqb s "")
  | VObj _ => true
  end.

(** ** ModuleSandbox: the patched [Module._nodeModulePaths] (lines 29-41) *)

Module Sandbox.

(** [s.substring(0, n)] for [0 <= n]: the first [n] characters, or all of
    [s] when it is shorter. *)
Definition substring0 (n : nat) (s : string) : string :=
  String.substring 0 n s.

(** The body of the [for] loop of the filter callback: returns [path] at
    the first whitelist entry [p] with
    [path.substring(0, p.length) === p], and falls off the end
    (returning [undefined]) when there is none. *)
Fixpoint filter_callback (whitelist : list string) (path : string) : value :=
  match whitelist with
  | [] => VUndefined
  | p :: rest =>
      if String.eqb (substring0 (String.length p) path) p
      then VStr path
      else filter_callback rest path
  end.

(** [Array.prototype.filter] keeps the elements whose callback result is
    truthy. *)
Definition admits (whitelist : list string) (path : string) : bool :=
  truthy (filter_callback whitelist path).

(** The replacement installed at [Module._nodeModulePaths]; the original
    function is [nodeModulePaths], the whitelist is the value of
    [global.whitelistedModuleFolders] at the time of the call. *)
Definition patched_nodeModulePaths
    (nodeModulePaths : string → list string)
    (whitelist : list string) (from : string) : list string :=
  List.filter (admits whitelist) (nodeModulePaths from).

(** [p] is a character-for-character prefix of [s]. *)
Definition is_prefix (p s : string) : Prop := ∃ rest, s = p +:+ rest.

(** POSIX paths: an absolute path starts with a slash; every other
    string, the empty one included, is a relative path. *)
Definition is_absolute (p : string) : Prop := ∃ rest, p = String "/" rest.

Definition is_relative (p : string) : Prop := ¬ is_absolute p.

End Sandbox.

(** ** Strings of JavaScript values *)

(** ToString, as applied by [+] with a string operand. *)
Definition to_string (v : value) : string :=
  match v with
  | VUndefined => "undefined"
  | VNull => "null"
  | VBool true => "true"
  | VBool false => "false"
  | VNum n => pretty n
  | VStr s => s
  | VObj _ => "[object Object]"
  end.

(** A JavaScript object read as a map; reading an absent property gives
    [undefined]. *)
Definition get (o : gmap string value) (k : string) : value :=
  default VUndefined (o !! k).

(** A thrown value: an [Error] object with its name and message, or any
    other value; an object thrown as [Thrown (VObj _)] is one without
    [message] and [stack]. *)
Inductive Exn : Type :=
  | Error (name message : string)
  | Thrown (v : value).

(** [v] is [null] or [undefined]: reading a property of it throws a
    TypeError. *)
Definition is_nullish (v : value) : bool :=
  match v with
  | VUndefined | VNull => true
  | _ => false
  end.

(** [e.message], coerced to a string by [+]: the message of an [Error];
    [undefined] for another value that has properties (a primitive, or an
    object that is no [Error]); [None] for [null] and [undefined], where
    the read throws. *)
Definition exn_message (e : Exn) : option string :=
  match e with
  | Error _ m => Some m
  | Thrown v => if is_nullish v then None else Some "undefined"
  end.

(** ToString of a thrown value; for an [Error] it is
    [Error.prototype.toString]: the name alone when the message is empty,
    the message alone when the name is empty. *)
Definition exn_to_string (e : Exn) : string :=
  match e with
  | Error n m =>
      if String.eqb n "" then m
      else if String.eqb m "" then n
      else n +:+ ": " +:+ m
  | Thrown v => to_string v
  end.

(** The line feed, written [\n] in a JavaScript string literal. *)
Definition line_feed : string := String "010" EmptyString.

(** ** ConnectionBootstrap: the options object (lines 265-287) *)

(** [folders] of [scanPluginDirectories]: one value or an array. *)
Inductive folders_arg : Type :=
  | OneFolder (f : string)
  | Folders (fs : list string).

(** The fields of [argv] that app.js reads after option parsing. *)
Record Argv : Type := mkArgv {
  port : value;
  host : value;
  password : value;
  input : value;
  output : value;
  pluginfolder : folders_arg;
  photoshopVersion : value;
  photoshopPath : value;
  photoshopBinaryPath : value;
  whiteListedPlugins : value;
}.

(** Lines 265-275: the transport part of [options]. *)
Definition transportOptions (argv : Argv) : gmap string value :=
  if (bool_decide (typeof (input argv) = TNumber) && bool_decide (typeof (output argv) = TNumber))
     || (bool_decide (typeof (input argv) = TString) && bool_decide (typeof (output argv) = TString))
  then
    <["password" := VNull]>
      (<["outputFd" := output argv]> (<["inputFd" := input argv]> ∅))
  else if bool_decide (typeof (port argv) = TNumber) && truthy (host argv) && truthy (password argv)
  then
    <["password" := password argv]>
      (<["hostname" := host argv]> (<["port" := port argv]> ∅))
  else ∅.

(** [if (v && typeof v === "string") options[k] = v]. *)
Definition passthrough (k : string) (v : value) (options : gmap string value)
    : gmap string value :=
  if truthy v && bool_decide (typeof v = TString) then <[k := v]> options else options.

(** The [config] object of ./lib/config, opaque here. *)
Definition config : value := VObj "config".

(** Lines 265-287: the object passed to [theGenerator.start]. *)
Definition buildOptions (argv : Argv) : gmap string value :=
  <["config" := config]>
    (passthrough "photoshopBinaryPath" (photoshopBinaryPath argv)
      (passthrough "photoshopPath" (photoshopPath argv)
        (passthrough "photoshopVersion" (photoshopVersion argv)
          (transportOptions argv)))).

(** The pipe transport was selected: both descriptors are set. *)
Definition selects_pipe (options : gmap string value) : Prop :=
  is_Some (options !! "inputFd") ∧ is_Some (options !! "outputFd").

(** What [if (v && typeof v === "string")] lets through: a string that is
    not empty. *)
Definition optional_string (v : value) : option value :=
  match v with
  | VStr s => if String.eqb s "" then None else Some (VStr s)
  | _ => None
  end.

(** ** String helpers of the JavaScript runtime *)

(** The code units of a string, first to last. *)
Definition chars (s : string) : list ascii := String.list_ascii_of_string s.

(** [s.split(sep)] for a one-character separator: never empty, and
    [split] of the empty string is one empty piece. *)
Fixpoint split_on (sep : ascii) (s : string) : list string :=
  match s with
  | EmptyString => [EmptyString]
  | String c s' =>
      if Ascii.eqb c sep then EmptyString :: split_on sep s'
      else match split_on sep s' with
           | [] => [String c EmptyString]
           | w :: ws => String c w :: ws
           end
  end.

(** The white space and line terminators of ECMAScript among the code
    units below 256: tab, line feed, vertical tab, form feed, carriage
    return, space and no-break space. *)
Definition is_white_space (c : ascii) : bool :=
  match c with
  | "009" | "010" | "011" | "012" | "013" | " " | "160" => true
  | _ => false
  end%char.

(** Drops leading white space. *)
Fixpoint trim_left (s : string) : string :=
  match s with
  | EmptyString => EmptyString
  | String c s' => if is_white_space c then trim_left s' else s
  end.

(** [s.trim()] *)
Definition trim (s : string) : string :=
  String.rev (trim_left (String.rev (trim_left s))).

(** The string up to the first [sep], and what follows it if [sep] occurs. *)
Fixpoint split_first (sep : ascii) (s : string) : string * option string :=
  match s with
  | EmptyString => (EmptyString, None)
  | String c s' =>
      if Ascii.eqb c sep then (EmptyString, Some s')
      else let '(a, b) := split_first sep s' in (String c a, b)
  end.

(** ** The semver package

    Modelled from the spec: [semver.valid] and [semver.rcompare] of the
    semver package, an external dependency whose code is not at hand.  The
    spec speaks of a string that "fails to parse as a valid semantic
    version" and of sorting "descending by semantic version (higher
    precedence first)"; the module below gives these words the meaning of
    Semantic Versioning 2.0.0, which the package implements: the strict
    grammar (an optional [v], three numeric identifiers separated by dots,
    an optional [-] with dot-separated prerelease identifiers, an optional
    [+] with dot-separated build identifiers, anchored at both ends) and
    its precedence rules.  The functions of app.js take the package as
    part of their [Collaborators]; this module is the instance used to run
    them. *)

Module Semver.

Definition is_digit (c : ascii) : bool :=
  let n := N_of_ascii c in ((48 <=? n) && (n <=? 57))%N.

Definition is_letter (c : ascii) : bool :=
  let n := N_of_ascii c in
  (((65 <=? n) && (n <=? 90)) || ((97 <=? n) && (n <=? 122)))%N.

(** A digit, a letter or a hyphen. *)
Definition is_ident_char (c : ascii) : bool :=
  is_digit c || is_letter c || Ascii.eqb c "-".

Fixpoint string_forallb (f : ascii → bool) (s : string) : bool :=
  match s with
  | EmptyString => true
  | String c s' => f c && string_forallb f s'
  end.

(** The number a string of decimal digits denotes. *)
Fixpoint digits_value (acc : N) (s : string) : N :=
  match s with
  | EmptyString => acc
  | String c s' => digits_value (10 * acc + (N_of_ascii c - 48))%N s'
  end.

(** A numeric identifier: [0], or digits that do not start with [0]. *)
Definition numeric_identifier (s : string) : option N :=
  match s with
  | EmptyString => None
  | String c s' =>
      if string_forallb is_digit s
         && (negb (Ascii.eqb c "0") || String.eqb s' EmptyString)
      then Some (digits_value 0 s)
      else None
  end.

(** A prerelease identifier, as the [SemVer] constructor stores it: a
    number when it is all digits, the string otherwise. *)
Inductive ident : Type :=
  | INum (n : N)
  | IAlpha (s : string).

Global Instance ident_eq_dec : EqDecision ident.
Proof. solve_decision. Defined.

(** A numeric identifier, or identifier characters with a non-digit
    among them. *)
Definition prerelease_identifier (s : string) : option ident :=
  match numeric_identifier s with
  | Some n => Some (INum n)
  | None =>
      if negb (String.eqb s EmptyString)
         && string_forallb is_ident_char s
         && negb (string_forallb is_digit s)
      then Some (IAlpha s)
      else None
  end.

(** One or more identifier characters. *)
Definition build_identifier (s : string) : bool :=
  negb (String.eqb s EmptyString) && string_forallb is_ident_char s.

Record SemVer : Type := mkSemVer {
  major : N;
  minor : N;
  patch : N;
  prerelease : list ident;
  build : list string;
}.

(** An optional leading [v]. *)
Definition strip_v (s : string) : string :=
  match s with
  | String c s' => if Ascii.eqb c "v" then s' else s
  | EmptyString => s
  end.

(** All elements parse, in order. *)
Fixpoint parse_all {A : Type} (f : string → option A) (l : list string)
    : option (list A) :=
  match l with
  | [] => Some []
  | s :: l' =>
      match f s, parse_all f l' with
      | Some a, Some r => Some (a :: r)
      | _, _ => None
      end
  end.

(** Modelled from the spec: the strict parse of a version string by the
    semver package ("parses as a valid semantic version"). *)
Definition parse (s : string) : option SemVer :=
  let '(body, b) := split_first "+" (strip_v s) in
  let '(core, p) := split_first "-" body in
  let bld := match b with
             | None => Some []
             | Some bs =>
                 let ids := split_on "." bs in
                 if forallb build_identifier ids then Some ids else None
             end in
  let pre := match p with
             | None => Some []
             | Some ps => parse_all prerelease_identifier (split_on "." ps)
             end in
  match parse_all numeric_identifier (split_on "." core), pre, bld with
  | Some [ma; mi; pa], Some pr, Some bl => Some (mkSemVer ma mi pa pr bl)
  | _, _, _ => None
  end.

(** Modelled from the spec: whether [semver.valid(v)] of the semver
    package is truthy, that is, [v] is a string that parses. *)
Definition valid (v : value) : bool :=
  match v with
  | VStr s => bool_decide (is_Some (parse s))
  | _ => false
  end.

Definition compareN (a b : N) : Z :=
  match (a ?= b)%N with Lt => -1 | Eq => 0 | Gt => 1 end.

(** Numbers order below strings; numbers by value, strings by code unit. *)
Definition compareIdentifiers (a b : ident) : Z :=
  match a, b with
  | INum x, INum y => compareN x y
  | INum _, IAlpha _ => -1
  | IAlpha _, INum _ => 1
  | IAlpha x, IAlpha y =>
      match String.compare x y with Lt => -1 | Eq => 0 | Gt => 1 end
  end.

(** [a || b] on comparison results. *)
Definition or_else (a b : Z) : Z := if a =? 0 then b else a.

Definition compareMain (a b : SemVer) : Z :=
  or_else (compareN (major a) (major b))
    (or_else (compareN (minor a) (minor b)) (compareN (patch a) (patch b))).

(** The [do ... while (++i)] loop of [comparePre]. *)
Fixpoint comparePre_loop (a b : list ident) : Z :=
  match a, b with
  | [], [] => 0
  | _ :: _, [] => 1
  | [], _ :: _ => -1
  | x :: a', y :: b' =>
      if decide (x = y) then comparePre_loop a' b' else compareIdentifiers x y
  end.

Definition comparePre (a b : SemVer) : Z :=
  match prerelease a, prerelease b with
  | _ :: _, [] => -1
  | [], _ :: _ => 1
  | [], [] => 0
  | pa, pb => comparePre_loop pa pb
  end.

(** Modelled from the spec: [SemVer.prototype.compare] of the semver
    package, precedence "by semantic version". *)
Definition compare (a b : SemVer) : Z :=
  or_else (compareMain a b) (comparePre a b).

(** Modelled from the spec: [semver.rcompare(a, b)] of the semver
    package, which is [compare(b, a)]; constructing a [SemVer] from a
    value that does not parse throws, which is [None] here. *)
Definition rcompare (a b : value) : option Z :=
  match a, b with
  | VStr sa, VStr sb =>
      match parse sb, parse sa with
      | Some vb, Some va => Some (compare vb va)
      | _, _ => None
      end
  | _, _ => None
  end.

(** A comparator with results in [Z] that orders its type totally: only
    the sign of a result matters. *)
Record sign_order {T : Type} (c : T → T → Z) : Prop := {
  so_antisym : ∀ x y, c x y = - c y x;
  so_eq : ∀ x y, c x y = 0 → x = y;
  so_trans : ∀ x y z, c x y ≤ 0 → c y z ≤ 0 → c x z ≤ 0;
}.

(** The lexicographic combination of two comparators. *)
Definition lex {T U : Type} (c1 : T → T → Z) (c2 : U → U → Z) (x y : T * U) : Z :=
  or_else (c1 (fst x) (fst y)) (c2 (snd x) (snd y)).

(** [a < b ? -1 : a > b ? 1 : 0] on strings. *)
Definition compareStrings (x y : string) : Z :=
  match String.compare x y with Lt => -1 | Eq => 0 | Gt => 1 end.

(** [comparePre] on the prerelease lists. *)
Definition comparePrereleases (pa pb : list ident) : Z :=
  match pa, pb with
  | _ :: _, [] => -1
  | [], _ :: _ => 1
  | [], [] => 0
  | _, _ => comparePre_loop pa pb
  end.

(** What [compare] looks at. *)
Definition key (v : SemVer) : N * (N * (N * list ident)) :=
  (major v, (minor v, (patch v, prerelease v))).

End Semver.

(** ** Process state, collaborators and effects *)

(** A PluginDescriptor [{ path, metadata }].  [metadata] is a reference to
    the metadata object, which lives in the heap of the [World]: the
    [plugins] array and the arrays of [pluginMap] hold the same objects. *)
Record Descriptor : Type := mkDescriptor {
  path : string;
  metadata : nat;
}.

Global Instance Descriptor_eq_dec : EqDecision Descriptor.
Proof. solve_decision. Defined.

(** The result of [checkPluginCompatibility]. *)
Record Compatibility : Type := mkCompatibility {
  compatible : value;
  message : value;
}.

Inductive Level : Type := LevelInfo | LevelWarn | LevelError.

Inductive LogArg : Type :=
  | AStr (s : string)
  | AExn (e : Exn).

(** One call of [_logger.warn] or [_logger.error], with its arguments. *)
Record LogRecord : Type := mkLog {
  level : Level;
  args : list LogArg;
}.

(** The calls app.js makes into its collaborators, in order. *)
Inductive Call : Type :=
  | CStatSync (p : string)
  | CReaddirSync (p : string)
  | CGetPluginMetadata (p : string)
  | CCheckPluginCompatibility (m : nat)
  | CLoadPlugin (p : string)
  | CStart (options : gmap string value)
  | CShutdown.

Global Instance Call_eq_dec : EqDecision Call.
Proof. solve_decision. Defined.

(** A call returns or throws. *)
Inductive Res (A : Type) : Type :=
  | Ok (a : A)
  | Throw (e : Exn).
Global Arguments Ok {A} a.
Global Arguments Throw {A} e.

(** How the promise of [theGenerator.start] settles. *)
Inductive Settled : Type :=
  | Fulfilled
  | Rejected (reason : Exn).

(** The interfaces app.js consumes: Node's [path.resolve], [process.cwd]
    and [fs], the engine of ./lib/generator and the semver package.  [St]
    is whatever state stands behind them (the file system, the engine);
    every call may read and change it.  [semver_valid v] tells whether
    [semver.valid(v)] is truthy (it returns the version or [null]), and
    [semver_rcompare a b] is the number [semver.rcompare(a, b)] returns,
    or [None] when it throws.  [nullish_read_message k v] is the message of
    the TypeError the JavaScript engine throws when property [k] is read
    on [v], which is [null] or [undefined]; its wording differs between
    engines. *)
Class Collaborators (St : Type) : Type := {
  cwd : string;
  resolve : string → string → string;
  statSync_isDirectory : string → St → Res bool * St;
  readdirSync : string → St → Res (list string) * St;
  getPluginMetadata : string → St → Res (gmap string value) * St;
  checkPluginCompatibility : gmap string value → St → Res Compatibility * St;
  loadPlugin : string → St → Res unit * St;
  start : gmap string value → St → Settled * St;
  shutdown : St → St;
  semver_valid : value → bool;
  semver_rcompare : value → value → option Z;
  nullish_read_message : string → value → string;
}.

(** The mutable state of the process. *)
Record World (St : Type) : Type := mkWorld {
  ext : St;
  whitelistedModuleFolders : list string;
  heap : list (gmap string value);
  logged : list LogRecord;
  calls : list Call;
}.
Global Arguments mkWorld {St} _ _ _ _ _.
Global Arguments ext {St} _.
Global Arguments whitelistedModuleFolders {St} _.
Global Arguments heap {St} _.
Global Arguments logged {St} _.
Global Arguments calls {St} _.

(** [Module._nodeModulePaths(from)] in world [w]: the patched function
    reads [global.whitelistedModuleFolders] when it is called. *)
Definition Module_nodeModulePaths {St : Type}
    (nodeModulePaths : string → list string) (from : string) (w : World St)
    : list string :=
  Sandbox.patched_nodeModulePaths nodeModulePaths (whitelistedModuleFolders w) from.

(** The paths passed to each collaborator, read off a list of calls. *)
Definition metadata_calls (cs : list Call) : list string :=
  omap (λ c, match c with CGetPluginMetadata p => Some p | _ => None end) cs.

Definition readdir_calls (cs : list Call) : list string :=
  omap (λ c, match c with CReaddirSync p => Some p | _ => None end) cs.

Definition stat_calls (cs : list Call) : list string :=
  omap (λ c, match c with CStatSync p => Some p | _ => None end) cs.

Definition load_calls (cs : list Call) : list string :=
  omap (λ c, match c with CLoadPlugin p => Some p | _ => None end) cs.

Section Effects.
Context {St : Type}.

(** Computations of app.js: they change the world and return or throw.
    The world reached is kept when they throw. *)
Definition M (A : Type) : Type := World St → Res A * World St.

Definition ret {A : Type} (a : A) : M A := λ w, (Ok a, w).

Definition bind {A B : Type} (m : M A) (k : A → M B) : M B := λ w,
  match m w with
  | (Ok a, w') => k a w'
  | (Throw e, w') => (Throw e, w')
  end.

Definition throw {A : Type} (e : Exn) : M A := λ w, (Throw e, w).

(** [try { m } catch (e) { h e }] *)
Definition try_catch {A : Type} (m : M A) (h : Exn → M A) : M A := λ w,
  match m w with
  | (Ok a, w') => (Ok a, w')
  | (Throw e, w') => h e w'
  end.

(** A call into a collaborator, recorded in [calls]. *)
Definition call {A : Type} (c : Call) (f : St → Res A * St) : M A := λ w,
  let '(r, s) := f (ext w) in
  (r, mkWorld s (whitelistedModuleFolders w) (heap w) (logged w) (calls w ++ [c])).

Definition log (l : Level) (a : list LogArg) : M unit := λ w,
  (Ok tt, mkWorld (ext w) (whitelistedModuleFolders w) (heap w)
            (logged w ++ [mkLog l a]) (calls w)).

(** [global.whitelistedModuleFolders.push(f)] *)
Definition whitelist_push (f : string) : M unit := λ w,
  (Ok tt, mkWorld (ext w) (whitelistedModuleFolders w ++ [f]) (heap w)
            (logged w) (calls w)).

(** A new object in the heap; its reference is returned. *)
Definition alloc (o : gmap string value) : M nat := λ w,
  (Ok (length (heap w)),
   mkWorld (ext w) (whitelistedModuleFolders w) (heap w ++ [o]) (logged w) (calls w)).

(** [o[k]] for the object at reference [r]. *)
Definition read (r : nat) (k : string) : M value := λ w,
  (Ok (get (heap w !!! r) k), w).

(** [o[k] = v] for the object at reference [r]. *)
Definition write (r : nat) (k : string) (v : value) : M unit := λ w,
  (Ok tt, mkWorld (ext w) (whitelistedModuleFolders w)
            (<[r := <[k := v]> (heap w !!! r)]> (heap w)) (logged w) (calls w)).

Definition get_heap : M (list (gmap string value)) := λ w, (Ok (heap w), w).

End Effects.
Global Arguments M St A : clear implicits.

Notation "x <- m ;; k" := (bind m (λ x, k))
  (at level 100, m at next level, right associativity).

Section App.
Context {St : Type} `{!Collaborators St}.

(** [Array.prototype.forEach] with an accumulator for the variables the
    callback assigns. *)
Fixpoint foldM {A B : Type} (f : B → A → M St B) (b : B) (l : list A) : M St B :=
  match l with
  | [] => ret b
  | a :: l' => b' <- f b a ;; foldM f b' l'
  end.

(** [Array.prototype.filter] with an effectful callback. *)
Fixpoint filterM {A : Type} (f : A → M St bool) (l : list A) : M St (list A) :=
  match l with
  | [] => ret []
  | a :: l' =>
      keep <- f a ;;
      rest <- filterM f l' ;;
      ret (if keep then a :: rest else rest)
  end.

(** *** PluginDirectoryScanner (lines 145-242) *)

(** [verifyPluginAtPath], lines 150-173.  The object
    [getPluginMetadata] returns is entered in the heap, and the descriptor
    refers to it. *)
Definition verifyPluginAtPath (absolutePath : string) : M St (option Descriptor) :=
  try_catch
    (m <- call (CGetPluginMetadata absolutePath) (getPluginMetadata absolutePath) ;;
     r <- alloc m ;;
     compatibility <- call (CCheckPluginCompatibility r) (checkPluginCompatibility m) ;;
     let result :=
       if truthy (compatible compatibility)
       then Some (mkDescriptor absolutePath r) else None in
     _ <- (if truthy (message compatibility)
           then log LevelWarn
                  [AStr ("Potential problem with plugin at '" +:+ absolutePath
                         +:+ "': " +:+ to_string (message compatibility))]
           else ret tt) ;;
     ret result)
    (λ metadataLoadError, ret None).

(** [checkIfPathDirectory], lines 175-183. *)
Definition checkIfPathDirectory (absolutePath : string) : M St bool :=
  try_catch
    (call (CStatSync absolutePath) (statSync_isDirectory absolutePath))
    (λ err, _ <- log LevelError [AExn err] ;; ret false).

(** The [forEach] callback of lines 212-217. *)
Definition pushIfPlugin (plugins : list Descriptor) (absolutePluginPath : string)
    : M St (list Descriptor) :=
  potentialPlugin <- verifyPluginAtPath absolutePluginPath ;;
  ret (match potentialPlugin with
       | Some p => plugins ++ [p]
       | None => plugins
       end).

(** [listPluginsInDirectory], lines 148-221. *)
Definition listPluginsInDirectory (directory : string) : M St (list Descriptor) :=
  let absolutePath := resolve cwd directory in
  isDirectory <- checkIfPathDirectory absolutePath ;;
  if negb isDirectory then
    _ <- log LevelError
           [AStr "Error: specified plugin path '%s' is not a directory";
            AStr absolutePath] ;;
    ret []
  else
    potentialPlugin <- verifyPluginAtPath absolutePath ;;
    let plugins := option_list potentialPlugin in
    if bool_decide (length plugins = 0%nat) then
      children <- call (CReaddirSync absolutePath) (readdirSync absolutePath) ;;
      directories <- filterM checkIfPathDirectory
                       (map (λ child, resolve absolutePath child) children) ;;
      foldM pushIfPlugin plugins directories
    else ret plugins.

(** The [forEach] callback of lines 227-239, [allPlugins] threaded. *)
Definition scanFolder (allPlugins : list Descriptor) (f : string)
    : M St (list Descriptor) :=
  _ <- whitelist_push f ;;
  try_catch
    (let currentPluginCount := length allPlugins in
     found <- listPluginsInDirectory f ;;
     let allPlugins' := allPlugins ++ found in
     _ <- (if bool_decide (currentPluginCount = length allPlugins')
           then log LevelWarn
                  [AStr ("No viable plugins were found in '" +:+ f +:+ "'")]
           else ret tt) ;;
     ret allPlugins')
    (λ e, _ <- log LevelError
                 [AStr ("Error processing plugin directory %s" +:+ line_feed);
                  AStr f; AExn e] ;;
          ret allPlugins).

(** Lines 223-225: a single folder is wrapped in an array. *)
Definition folders_list (folders : folders_arg) : list string :=
  match folders with
  | OneFolder f => [f]
  | Folders fs => fs
  end.

(** [scanPluginDirectories], lines 145-242. *)
Definition scanPluginDirectories (folders : folders_arg) : M St (list Descriptor) :=
  foldM scanFolder [] (folders_list folders).

(** *** The scan of one folder, told by the answers of the collaborators

    What "test a path as a candidate" and "the child directories" mean, in
    terms of what [getPluginMetadata], [checkPluginCompatibility] and
    [statSync] answer; [listPluginsInDirectory] is compared with these. *)

(** The test of [p] as a candidate plugin from state [s], with [next] the
    reference the metadata object gets: a descriptor exactly when the
    metadata is extracted and found compatible; an exception of either
    step gives none.  Also the state reached and the next free reference. *)
Definition candidate_at (p : string) (s : St) (next : nat)
    : option Descriptor * St * nat :=
  match getPluginMetadata p s with
  | (Ok m, s1) =>
      match checkPluginCompatibility m s1 with
      | (Ok c, s2) =>
          (if truthy (compatible c) then Some (mkDescriptor p next) else None,
           s2, S next)
      | (Throw _, s2) => (None, s2, S next)
      end
  | (Throw _, s1) => (None, s1, next)
  end.

(** The paths of [paths] that [statSync] reports as directories, asked in
    order from state [s], and the state reached. *)
Fixpoint directories_among (paths : list string) (s : St) : list string * St :=
  match paths with
  | [] => ([], s)
  | p :: rest =>
      match statSync_isDirectory p s with
      | (r, s1) =>
          match directories_among rest s1 with
          | (dirs, s2) =>
              (match r with Ok true => p :: dirs | _ => dirs end, s2)
          end
      end
  end.

(** The descriptors of the candidates among [dirs], each tested once, in
    order. *)
Fixpoint plugins_among (dirs : list string) (s : St) (next : nat)
    : list Descriptor * St * nat :=
  match dirs with
  | [] => ([], s, next)
  | p :: rest =>
      match candidate_at p s next with
      | (r, s1, next1) =>
          match plugins_among rest s1 next1 with
          | (found, s2, next2) => (option_list r ++ found, s2, next2)
          end
      end
  end.

(** *** VersionResolver (lines 290-355) *)

Definition PLUGIN_KEY_PREFIX : string := "PLUGIN-".

(** [whiteListedPlugins.indexOf(v)], counting from [i]: the index of the
    first entry strictly equal to [v], or [-1]. *)
Fixpoint indexOf_from (i : Z) (l : list string) (v : value) : Z :=
  match l with
  | [] => -1
  | s :: l' => if decide (VStr s = v) then i else indexOf_from (i + 1) l' v
  end.

Definition indexOf (l : list string) (v : value) : Z := indexOf_from 0 l v.

(** Line 295 *)
Definition shouldWhiteList (argv : Argv) : bool :=
  bool_decide (typeof (whiteListedPlugins argv) = TString).

(** Line 299; the array is only built (and only read) in whitelist mode. *)
Definition whiteListedNames (argv : Argv) : list string :=
  match whiteListedPlugins argv with
  | VStr s => map trim (split_on "," s)
  | _ => []
  end.

(** Lines 314-317 on [pluginMap], an object whose keys [Object.keys]
    enumerates in insertion order: the array under [key] is created when
    absent, and [p] is pushed on it. *)
Fixpoint pluginMap_push (key : string) (p : Descriptor)
    (pluginMap : list (string * list Descriptor)) : list (string * list Descriptor) :=
  match pluginMap with
  | [] => [(key, [p])]
  | (k, ps) :: rest =>
      if decide (k = key) then (k, ps ++ [p]) :: rest
      else (k, ps) :: pluginMap_push key p rest
  end.

(** [d] is in one of the arrays of [pluginMap]. *)
Definition in_pluginMap (d : Descriptor) (pluginMap : list (string * list Descriptor))
    : Prop :=
  ∃ k ps, (k, ps) ∈ pluginMap ∧ d ∈ ps.

(** The heap [h'] is [h] up to version normalisation: an object is
    unchanged, or its version was no semantic version and is now the
    sentinel. *)
Definition normalized (h h' : list (gmap string value)) : Prop :=
  length h' = length h
  ∧ ∀ r, h' !!! r = h !!! r
         ∨ (semver_valid (get (h !!! r) "version") = false
            ∧ h' !!! r = <["version" := VStr "0.0.0"]> (h !!! r)).

(** The whitelist test of line 307 on the descriptor [p], in heap [h]. *)
Definition skipped (whitelistMode : bool) (names : list string)
    (h : list (gmap string value)) (p : Descriptor) : bool :=
  whitelistMode && bool_decide (indexOf names (get (h !!! metadata p) "name") = -1).



(** The [forEach] callback of lines 306-318, [pluginMap] threaded. *)
Definition groupPlugin (whitelistMode : bool) (names : list string)
    (pluginMap : list (string * list Descriptor)) (p : Descriptor)
    : M St (list (string * list Descriptor)) :=
  name <- read (metadata p) "name" ;;
  if whitelistMode && bool_decide (indexOf names name = -1) then ret pluginMap
  else
    version <- read (metadata p) "version" ;;
    _ <- (if negb (semver_valid version)
          then write (metadata p) "version" (VStr "0.0.0")
          else ret tt) ;;
    ret (pluginMap_push (PLUGIN_KEY_PREFIX +:+ to_string name) p pluginMap).

(** The comparator of lines 327-329, reading versions from the heap. *)
Definition compareVersions (h : list (gmap string value)) (a b : Descriptor)
    : option Z :=
  semver_rcompare (get (h !!! metadata a) "version") (get (h !!! metadata b) "version").

(** [Array.prototype.sort] with a comparator that may throw: a stable
    sort, written as insertion sort.  [cmp x y <= 0] keeps [x] before [y]. *)
Fixpoint insert_by {A : Type} (cmp : A → A → option Z) (x : A) (l : list A)
    : option (list A) :=
  match l with
  | [] => Some [x]
  | y :: l' =>
      match cmp x y with
      | None => None
      | Some c =>
          if c <=? 0 then Some (x :: y :: l')
          else match insert_by cmp x l' with
               | Some r => Some (y :: r)
               | None => None
               end
      end
  end.

Fixpoint sort_by {A : Type} (cmp : A → A → option Z) (l : list A)
    : option (list A) :=
  match l with
  | [] => Some []
  | x :: l' =>
      match sort_by cmp l' with
      | Some r => insert_by cmp x r
      | None => None
      end
  end.

(** Lines 327-329 *)
Definition sortPluginSet (pluginSet : list Descriptor) : M St (list Descriptor) :=
  h <- get_heap ;;
  match sort_by (compareVersions h) pluginSet with
  | Some sorted => ret sorted
  | None => throw (Error "TypeError" "Invalid Version")
  end.

(** [loadingException.message] of line 337: reading it on [null] or
    [undefined] throws a TypeError out of the [catch] block. *)
Definition read_message (e : Exn) : M St string :=
  match e with
  | Error _ m => ret m
  | Thrown v =>
      if is_nullish v
      then throw (Error "TypeError" (nullish_read_message "message" v))
      else ret "undefined"
  end.

(** The record logged at lines 336-337, for the message read. *)
Definition load_error (p : Descriptor) (message : string) : LogRecord :=
  mkLog LevelError
    [AStr ("Unable to load plugin at '" +:+ path p +:+ "': " +:+ message)].

(** One iteration of the [for] loop of lines 331-344, up to the test of
    [loaded]. *)
Definition tryLoad (p : Descriptor) : M St bool :=
  try_catch
    (_ <- call (CLoadPlugin (path p)) (loadPlugin (path p)) ;; ret true)
    (λ loadingException,
       message <- read_message loadingException ;;
       _ <- log LevelError
              [AStr ("Unable to load plugin at '" +:+ path p +:+ "': " +:+ message)] ;;
       ret false).

(** The [for] loop of lines 331-344; the result is [loaded]. *)
Fixpoint loadFirst (pluginSet : list Descriptor) : M St bool :=
  match pluginSet with
  | [] => ret false
  | p :: rest =>
      loaded <- tryLoad p ;;
      if loaded then ret true else loadFirst rest
  end.

(** The loads of all of [l] throw, one after the other from state [s],
    values whose [message] can be read: the messages and the state
    reached. *)
Fixpoint load_failures (l : list Descriptor) (s : St) : option (list string * St) :=
  match l with
  | [] => Some ([], s)
  | p :: l' =>
      match loadPlugin (path p) s with
      | (Throw e, s') =>
          match exn_message e, load_failures l' s' with
          | Some message, Some (messages, s'') => Some (message :: messages, s'')
          | _, _ => None
          end
      | (Ok _, _) => None
      end
  end.

(** [a] may stand before [b]: the comparator does not ask for a swap. *)
Definition in_order {A : Type} (cmp : A → A → option Z) (a b : A) : Prop :=
  ∃ c, cmp a b = Some c ∧ c ≤ 0.

(** The [forEach] callback of lines 322-346, [totalPluginCount] threaded. *)
Definition loadPluginSet (totalPluginCount : nat)
    (entry : string * list Descriptor) : M St nat :=
  sorted <- sortPluginSet (snd entry) ;;
  loaded <- loadFirst sorted ;;
  ret (if loaded then (totalPluginCount + 1)%nat else totalPluginCount).

Definition zero_plugins_message : string :=
  "Generator requires at least one plugin to function, zero were loaded.".

(** Lines 306-318: [pluginMap] from the scanned [plugins]. *)
Definition groupPlugins (argv : Argv) (plugins : list Descriptor)
    : M St (list (string * list Descriptor)) :=
  foldM (groupPlugin (shouldWhiteList argv) (whiteListedNames argv)) [] plugins.

(** Lines 322-346: [totalPluginCount] after all groups. *)
Definition loadPluginSets (pluginMap : list (string * list Descriptor)) : M St nat :=
  foldM loadPluginSet 0%nat pluginMap.

(** Lines 298-346: grouping, then loading; the result is
    [totalPluginCount]. *)
Definition resolvePlugins (argv : Argv) (plugins : list Descriptor) : M St nat :=
  pluginMap <- groupPlugins argv plugins ;;
  loadPluginSets pluginMap.

(** The success callback of [start(options).done], lines 290-355: how
    [deferred] is settled. *)
Definition onStarted (argv : Argv) : M St Settled :=
  plugins <- scanPluginDirectories (pluginfolder argv) ;;
  totalPluginCount <- resolvePlugins argv plugins ;;
  if bool_decide (totalPluginCount = 0%nat)
  then ret (Rejected (Thrown (VStr zero_plugins_message)))
  else ret Fulfilled.

(** *** LifecycleOrchestrator (lines 137-143, 244-384) *)

Inductive Outcome : Type :=
  | Running
  | Exited (code : Z).

(** [stop], lines 137-143; [process.exit] runs the ["exit"] handler of
    lines 253-257, which shuts the engine down. *)
Definition stop (exitCode : Z) (reason : string) : M St Outcome :=
  let reason := if String.eqb reason "" then "no reason given" else reason in
  _ <- log LevelError
         [AStr ("Exiting with code " +:+ pretty exitCode +:+ ": " +:+ reason)] ;;
  _ <- call CShutdown (λ s, (Ok tt, shutdown s)) ;;
  ret (Exited exitCode).

(** [setupGenerator], lines 244-362: how the returned promise settles. *)
Definition setupGenerator (argv : Argv) : M St Settled :=
  let options := buildOptions argv in
  started <- call (CStart options)
               (λ s, let '(r, s') := start options s in (Ok r, s')) ;;
  match started with
  | Fulfilled => onStarted argv
  | Rejected err => ret (Rejected err)
  end.

(** The ["uncaughtException"] handler, lines 372-382.  [err.message] is
    only read when [err] is truthy; it is [undefined] for a value that is
    no [Error]. *)
Definition onUncaughtException (err : Exn) : M St Outcome :=
  let present := match err with Error _ _ => true | Thrown v => truthy v end in
  _ <- (if present then log LevelError [AExn err] else ret tt) ;;
  stop (-1) ("Uncaught exception"
             +:+ (if present
                  then ": " +:+ match err with Error _ m => m | Thrown _ => "undefined" end
                  else "undefined")).

(** The ["close"] handler of lines 259-263, once its timer fires. *)
Definition onClose : M St Outcome := stop 0 "Generator close event".

(** [init], lines 364-370, with the exception handler behind it. *)
Definition init (argv : Argv) : M St Outcome :=
  try_catch
    (settled <- setupGenerator argv ;;
     match settled with
     | Rejected err =>
         stop (-3) ("Generator failed to initialize: " +:+ exn_to_string err)
     | Fulfilled => ret Running
     end)
    onUncaughtException.

(** *** Frames: what each phase leaves alone *)

(** What a step of the scanner leaves alone and what it adds to the calls. *)
Record scan_frame (w w' : World St) (meta readdir : list string) : Prop := {
  sf_whitelist : whitelistedModuleFolders w' = whitelistedModuleFolders w;
  sf_metadata : metadata_calls (calls w') = metadata_calls (calls w) ++ meta;
  sf_readdir : readdir_calls (calls w') = readdir_calls (calls w) ++ readdir;
  sf_load : load_calls (calls w') = load_calls (calls w);
  sf_calls : calls w `prefix_of` calls w';
}.

(** What grouping does to the world: only the heap changes, by version
    normalisation. *)
Record group_frame (w w' : World St) : Prop := {
  gf_ext : ext w' = ext w;
  gf_whitelist : whitelistedModuleFolders w' = whitelistedModuleFolders w;
  gf_logged : logged w' = logged w;
  gf_calls : calls w' = calls w;
  gf_heap : normalized (heap w) (heap w');
}.

(** What loading does to the world: the heap and the whitelist stay, and
    the [loadPlugin] calls added are those of [attempted], in order. *)
Record load_frame (w w' : World St) (attempted : list Descriptor) : Prop := {
  lf_whitelist : whitelistedModuleFolders w' = whitelistedModuleFolders w;
  lf_heap : heap w' = heap w;
  lf_load : load_calls (calls w') = load_calls (calls w) ++ map path attempted;
}.

(** Every descriptor of [l] refers to an object of the heap of [w]. *)
Definition refs_valid (w : World St) (l : list Descriptor) : Prop :=
  ∀ d, d ∈ l → (metadata d < length (heap w))%nat.

(** The versions of the descriptors of [pluginMap] are semantic versions
    in heap [h]. *)
Definition versions_valid (h : list (gmap string value))
    (pluginMap : list (string * list Descriptor)) : Prop :=
  ∀ d, in_pluginMap d pluginMap →
    semver_valid (get (h !!! metadata d) "version") = true.

End App.

(** ** A concrete set of collaborators

    A small file system and engine, used to run the definitions above:
    folder [/w/A] is not a plugin and has the children [x], [y] (versions
    1.0.0 and 2.0.0 of plugin [demo]), [z] (plugin [other] with a version
    that is no semantic version), [pre] (version 0.0.0-alpha of [other])
    and the file [notes.txt].  Loading [/w/A/y] throws.  The state counts
    the calls of [loadPlugin]. *)

Module Demo.

(** A stand-in for [path.resolve] on two segments, without
    normalisation of [.] and [..]: the rightmost absolute segment wins, and
    the working directory [/w] is put in front when there is none. *)
Definition starts_with_slash (s : string) : bool :=
  match s with
  | String c _ => Ascii.eqb c "/"
  | EmptyString => false
  end.

Definition join (a b : string) : string :=
  if starts_with_slash b then b
  else if starts_with_slash a then a +:+ "/" +:+ b
  else "/w/" +:+ a +:+ "/" +:+ b.

Definition directories : list string :=
  ["/w/A"; "/w/A/x"; "/w/A/y"; "/w/A/z"; "/w/A/pre"; "/w/B"].

Definition package (p : string) : option (gmap string value) :=
  if String.eqb p "/w/A/x" then
    Some (<["name" := VStr "demo"]> (<["version" := VStr "1.0.0"]> ∅))
  else if String.eqb p "/w/A/y" then
    Some (<["name" := VStr "demo"]> (<["version" := VStr "2.0.0"]> ∅))
  else if String.eqb p "/w/A/z" then
    Some (<["name" := VStr "other"]> (<["version" := VStr "banana"]>
            (<["main" := VStr "main.js"]> ∅)))
  else if String.eqb p "/w/A/pre" then
    Some (<["name" := VStr "other"]> (<["version" := VStr "0.0.0-alpha"]> ∅))
  else None.

Global Instance collaborators : Collaborators nat := {|
  cwd := "/w";
  resolve := join;
  statSync_isDirectory p s :=
    (if bool_decide (p ∈ directories) then Ok true
     else if String.eqb p "/w/A/notes.txt" then Ok false
     else Throw (Error "Error" ("ENOENT, no such file or directory '" +:+ p +:+ "'")),
     s);
  readdirSync p s :=
    (if String.eqb p "/w/A" then Ok ["x"; "y"; "z"; "pre"; "notes.txt"]
     else if String.eqb p "/w/B" then Ok []
     else Throw (Error "Error" "ENOTDIR"),
     s);
  getPluginMetadata p s :=
    (match package p with
     | Some m => Ok m
     | None => Throw (Error "Error" "no package.json")
     end, s);
  checkPluginCompatibility m s := (Ok (mkCompatibility (VBool true) VUndefined), s);
  loadPlugin p s :=
    (if String.eqb p "/w/A/y" then Throw (Error "Error" "boom") else Ok tt,
     (s + 1)%nat);
  start o s := (Fulfilled, s);
  shutdown s := s;
  semver_valid := Semver.valid;
  semver_rcompare := Semver.rcompare;
  nullish_read_message k v := "Cannot read property '" +:+ k +:+ "' of " +:+ to_string v;
|}.

Definition world0 : World nat := mkWorld 0%nat ["/opt/generator"] [] [] [].

Definition argv0 : Argv := {|
  port := VNum 49494;
  host := VStr "127.0.0.1";
  password := VStr "password";
  input := VNull;
  output := VNull;
  pluginfolder := OneFolder "A";
  photoshopVersion := VNull;
  photoshopPath := VNull;
  photoshopBinaryPath := VNull;
  whiteListedPlugins := VNull;
|}.

Definition argv_pipe : Argv := {|
  port := VNum 49494;
  host := VStr "127.0.0.1";
  password := VStr "secret";
  input := VNum 3;
  output := VNum 4;
  pluginfolder := OneFolder "A";
  photoshopVersion := VNull;
  photoshopPath := VNull;
  photoshopBinaryPath := VNull;
  whiteListedPlugins := VNull;
|}.

(** Whitelist mode: only [demo] (and [x], which nothing is named) may load. *)
Definition argv_whitelist : Argv := {|
  port := VNum 49494;
  host := VStr "127.0.0.1";
  password := VStr "password";
  input := VNull;
  output := VNull;
  pluginfolder := OneFolder "A";
  photoshopVersion := VNull;
  photoshopPath := VNull;
  photoshopBinaryPath := VNull;
  whiteListedPlugins := VStr " demo ,x";
|}.

(** The folder [/w/B] is empty. *)
Definition argv_empty : Argv := {|
  port := VNum 49494;
  host := VStr "127.0.0.1";
  password := VStr "password";
  input := VNull;
  output := VNull;
  pluginfolder := OneFolder "B";
  photoshopVersion := VNull;
  photoshopPath := VNull;
  photoshopBinaryPath := VNull;
  whiteListedPlugins := VNull;
|}.

(** The descriptors the scan of [A] creates. *)
Definition plugin_x : Descriptor := mkDescriptor "/w/A/x" 0.
Definition plugin_y : Descriptor := mkDescriptor "/w/A/y" 1.
Definition plugin_z : Descriptor := mkDescriptor "/w/A/z" 2.
Definition plugin_pre : Descriptor := mkDescriptor "/w/A/pre" 3.

(** The world after the scan of [A] from [world0]. *)
Definition scanned : World nat :=
  snd (scanPluginDirectories (pluginfolder argv0) world0).

End Demo.

(** ** Footprints of the phases *)

(** The calls the scanner makes: [fs.statSync], [fs.readdirSync],
    [getPluginMetadata] and [checkPluginCompatibility]. *)
Definition scanner_call (c : Call) : bool :=
  match c with
  | CStatSync _ | CReaddirSync _ | CGetPluginMetadata _
  | CCheckPluginCompatibility _ => true
  | CLoadPlugin _ | CStart _ | CShutdown => false
  end.

Section Footprints.
Context {St : Type}.

(** [m] keeps [R] between the world it starts in and the world it leaves,
    whether it returns or throws. *)
Definition preserves (R : World St → World St → Prop) {A : Type} (m : M St A)
    : Prop :=
  ∀ w, R w (snd (m w)).

(** What the scanner may do to the world: push on the whitelist, add
    objects to the heap, log, and make scanner calls. *)
Record scanner_footprint (w w' : World St) : Prop := {
  sc_whitelist : whitelistedModuleFolders w `prefix_of` whitelistedModuleFolders w';
  sc_heap : heap w `prefix_of` heap w';
  sc_logged : logged w `prefix_of` logged w';
  sc_calls : ∃ cs, calls w' = calls w ++ cs ∧ Forall (λ c, scanner_call c = true) cs;
}.

End Footprints.

(** ** Further inputs and collaborators
    Command lines and an engine that fails throughout, used to run the
    definitions on their error paths. *)

Module Cases.

(** Handles of different kinds, and a port that is no number. *)
Definition argv_mixed : Argv := {|
  port := VStr "49494";
  host := VStr "127.0.0.1";
  password := VStr "password";
  input := VNum 3;
  output := VStr "/tmp/out";
  pluginfolder := Folders [];
  photoshopVersion := VStr "14.2";
  photoshopPath := VStr "";
  photoshopBinaryPath := VNum 7;
  whiteListedPlugins := VNull;
|}.

(** The empty whitelist string. *)
Definition argv_empty_whitelist : Argv := {|
  port := VNum 49494;
  host := VStr "127.0.0.1";
  password := VStr "password";
  input := VNull;
  output := VNull;
  pluginfolder := OneFolder "A";
  photoshopVersion := VNull;
  photoshopPath := VNull;
  photoshopBinaryPath := VNull;
  whiteListedPlugins := VStr "";
|}.

(** Every path is a directory, no directory can be listed, nothing is a
    plugin, and the engine refuses to start. *)
Global Instance failing : Collaborators unit := {|
  cwd := "/w";
  resolve := Demo.join;
  statSync_isDirectory p s := (Ok true, s);
  readdirSync p s := (Throw (Error "Error" "EACCES"), s);
  getPluginMetadata p s := (Throw (Error "Error" "no package.json"), s);
  checkPluginCompatibility m s := (Ok (mkCompatibility (VBool false) VUndefined), s);
  loadPlugin p s := (Throw (Error "Error" "boom"), s);
  start o s := (Rejected (Error "Error" "ECONNREFUSED"), s);
  shutdown s := s;
  semver_valid := Semver.valid;
  semver_rcompare := Semver.rcompare;
  nullish_read_message k v := "Cannot read property '" +:+ k +:+ "' of " +:+ to_string v;
|}.

Definition world0 : World unit := mkWorld tt ["/opt/generator"] [] [] [].

(** A heap with one metadata object that has no [name]. *)
Definition nameless : World nat :=
  mkWorld 0%nat ["/opt/generator"] [<["version" := VStr "1.0.0"]> ∅] [] [].

Definition plugin_nameless : Descriptor := mkDescriptor "/w/N" 0.

(** A heap with one metadata object whose [name] starts with a space. *)
Definition padded : World nat :=
  mkWorld 0%nat ["/opt/generator"]
    [<["name" := VStr " demo"]> (<["version" := VStr "1.0.0"]> ∅)] [] [].

Definition plugin_padded : Descriptor := mkDescriptor "/w/P" 0.

(** The collaborators of [Demo], but loading [/w/A/y] throws [null]. *)
Definition throws_null : Collaborators nat := {|
  cwd := "/w";
  resolve := Demo.join;
  statSync_isDirectory := @statSync_isDirectory nat Demo.collaborators;
  readdirSync := @readdirSync nat Demo.collaborators;
  getPluginMetadata := @getPluginMetadata nat Demo.collaborators;
  checkPluginCompatibility := @checkPluginCompatibility nat Demo.collaborators;
  loadPlugin p s :=
    (if String.eqb p "/w/A/y" then Throw (Thrown VNull) else Ok tt, (s + 1)%nat);
  start o s := (Fulfilled, s);
  shutdown s := s;
  semver_valid := Semver.valid;
  semver_rcompare := Semver.rcompare;
  nullish_read_message k v := "Cannot read property '" +:+ k +:+ "' of " +:+ to_string v;
|}.

(** The collaborators of [Demo] with the working directory [/w/A], where
    [path.resolve] skips an empty segment: the empty folder argument
    resolves to the working directory. *)
Definition in_folder_A : Collaborators nat := {|
  cwd := "/w/A";
  resolve a b := if String.eqb b "" then a else Demo.join a b;
  statSync_isDirectory := @statSync_isDirectory nat Demo.collaborators;
  readdirSync := @readdirSync nat Demo.collaborators;
  getPluginMetadata := @getPluginMetadata nat Demo.collaborators;
  checkPluginCompatibility := @checkPluginCompatibility nat Demo.collaborators;
  loadPlugin := @loadPlugin nat Demo.collaborators;
  start o s := (Fulfilled, s);
  shutdown s := s;
  semver_valid := Semver.valid;
  semver_rcompare := Semver.rcompare;
  nullish_read_message k v := "Cannot read property '" +:+ k +:+ "' of " +:+ to_string v;
|}.

End Cases.

(** * Properties *)

(** ** The prefix test of the module sandbox *)

Module SandboxFacts.
Import Sandbox.

Lemma substring0_app (p rest : string) :
  substring0 (String.length p) (p +:+ rest) = p.
Proof.
  unfold substring0. induction p as [|c p IH].
  - by destruct rest.
  - change (String c (String.substring 0 (String.length p) (p +:+ rest)) = String c p).
    by f_equal.
Qed.

Lemma substring0_split (n : nat) (s : string) :
  ∃ rest, s = substring0 n s +:+ rest.
Proof.
  unfold substring0. revert s. induction n as [|n IH]; intros s.
  - exists s. by destruct s.
  - destruct s as [|c s]; simpl.
    + by exists "".
    + destruct (IH s) as [rest Hrest]. exists rest.
      change (String c s = String c (String.substring 0 n s +:+ rest)).
      by f_equal.
Qed.

(** The test of line 36 is exactly the prefix relation. *)
Lemma prefix_test_spec (p path : string) :
  String.eqb (substring0 (String.length p) path) p = true ↔ is_prefix p path.
Proof.
  rewrite String.eqb_eq. split.
  - intros Heq. destruct (substring0_split (String.length p) path) as [rest Hrest].
    exists rest. by rewrite Heq in Hrest.
  - intros [rest ->]. apply substring0_app.
Qed.

Lemma filter_callback_cases (whitelist : list string) (path : string) :
  (filter_callback whitelist path = VStr path
     ∧ ∃ p, p ∈ whitelist ∧ is_prefix p path)
  ∨ (filter_callback whitelist path = VUndefined
     ∧ ∀ p, p ∈ whitelist → ¬ is_prefix p path).
Proof.
  induction whitelist as [|q rest IH]; simpl.
  - right. split; [done|]. intros p Hp. by apply elem_of_nil in Hp.
  - destruct (String.eqb (substring0 (String.length q) path) q) eqn:Hq.
    + left. split; [done|]. exists q. split; [left|]. by apply prefix_test_spec.
    + destruct IH as [[-> (p & Hp & Hpre)]|[-> Hnone]].
      * left. split; [done|]. exists p. split; [by right|done].
      * right. split; [done|]. intros p Hp.
        apply elem_of_cons in Hp as [->|Hp]; [|by apply Hnone].
        intros Hpre%prefix_test_spec. congruence.
Qed.

Lemma admits_prefix (whitelist : list string) (path : string) :
  admits whitelist path = true → ∃ p, p ∈ whitelist ∧ is_prefix p path.
Proof.
  unfold admits.
  destruct (filter_callback_cases whitelist path) as [[_ H]|[-> _]]; [done|].
  simpl. discriminate.
Qed.

Lemma admits_iff (whitelist : list string) (path : string) :
  path ≠ "" →
  admits whitelist path = true ↔ ∃ p, p ∈ whitelist ∧ is_prefix p path.
Proof.
  intros Hne. split; [apply admits_prefix|].
  intros (p & Hp & Hpre). unfold admits.
  destruct (filter_callback_cases whitelist path) as [[-> _]|[_ Hnone]].
  - simpl. destruct (String.eqb_spec path ""); [done|done].
  - by destruct (Hnone p Hp).
Qed.

Lemma admits_mono (whitelist whitelist' : list string) (path : string) :
  whitelist ⊆ whitelist' →
  admits whitelist path = true → admits whitelist' path = true.
Proof.
  intros Hsub Hadm. destruct (admits_prefix _ _ Hadm) as (p & Hp & Hpre).
  apply admits_iff; [|exists p; split; [by apply Hsub|done]].
  intros ->. revert Hadm. unfold admits.
  by destruct (filter_callback_cases whitelist "") as [[-> _]|[-> _]].
Qed.

Lemma relative_not_prefix_of_absolute (f p : string) :
  is_relative f → f ≠ "" → is_absolute p → ¬ is_prefix f p.
Proof.
  intros Hrel Hne [rest' ->] [r Hr]. destruct f as [|c rest]; [done|].
  change (String "/" rest' = String c (rest +:+ r)) in Hr.
  apply Hrel. exists rest. congruence.
Qed.

(** The empty string is a relative path and a prefix of every path. *)
Lemma empty_relative_prefix (p : string) : is_relative "" ∧ is_prefix "" p.
Proof. split; [by intros [rest ?]|by exists p]. Qed.

End SandboxFacts.

(** ** The options object *)

Lemma passthrough_lookup_ne (k k' : string) (v : value) (o : gmap string value) :
  k ≠ k' → passthrough k v o !! k' = o !! k'.
Proof.
  intros Hne. unfold passthrough.
  destruct (truthy v && bool_decide (typeof v = TString)); [|done].
  by rewrite lookup_insert_ne.
Qed.

(** The transport fields of [options] are those of [transportOptions]. *)
Lemma buildOptions_transport (argv : Argv) (k : string) :
  k ∈ ["inputFd"; "outputFd"; "password"; "port"; "hostname"] →
  buildOptions argv !! k = transportOptions argv !! k.
Proof.
  intros Hk. unfold buildOptions.
  repeat (apply elem_of_cons in Hk as [->|Hk]); [..|by apply elem_of_nil in Hk];
    rewrite lookup_insert_ne by done; by rewrite !passthrough_lookup_ne by done.
Qed.

(** ** The semver model *)

Module SemverFacts.
Import Semver.

Example parse_plain : parse "1.2.3" = Some (mkSemVer 1 2 3 [] []).
Proof. reflexivity. Qed.

Example parse_full :
  parse "v0.10.0-alpha.7+build-1.x"
  = Some (mkSemVer 0 10 0 [IAlpha "alpha"; INum 7] ["build-1"; "x"]).
Proof. reflexivity. Qed.

Example parse_rejects :
  map parse ["banana"; "1.2"; "01.2.3"; "1.2.3-"; "1.2.3-01"; " 1.2.3"; ""]
  = [None; None; None; None; None; None; None].
Proof. reflexivity. Qed.

Example rcompare_orders_descending :
  rcompare (VStr "2.0.0") (VStr "1.0.0") = Some (-1)
  ∧ rcompare (VStr "1.0.0-rc.1") (VStr "1.0.0") = Some 1
  ∧ rcompare (VStr "1.0.0+a") (VStr "1.0.0+b") = Some 0.
Proof. done. Qed.

Lemma valid_rcompare (a b : value) :
  valid a = true → valid b = true → is_Some (rcompare a b).
Proof.
  destruct a as [| | | |sa|]; try discriminate.
  destruct b as [| | | |sb|]; try discriminate.
  simpl. intros [va Ha]%bool_decide_eq_true [vb Hb]%bool_decide_eq_true.
  rewrite Ha, Hb. by eexists.
Qed.

Lemma valid_sentinel : valid (VStr "0.0.0") = true.
Proof. reflexivity. Qed.

Lemma compareN_antisym (a b : N) : compareN a b = - compareN b a.
Proof.
  unfold compareN. rewrite (N.compare_antisym a b).
  by destruct (a ?= b)%N.
Qed.

Lemma or_else_opp (a b : Z) : or_else (- a) (- b) = - or_else a b.
Proof. unfold or_else. destruct (Z.eqb_spec a 0), (Z.eqb_spec (- a) 0); lia. Qed.

Lemma compareIdentifiers_antisym (a b : ident) :
  compareIdentifiers a b = - compareIdentifiers b a.
Proof.
  destruct a as [x|x], b as [y|y]; simpl; try done.
  - apply compareN_antisym.
  - rewrite (String.compare_antisym x y). by destruct (String.compare y x).
Qed.

Lemma comparePre_loop_antisym (a b : list ident) :
  comparePre_loop a b = - comparePre_loop b a.
Proof.
  revert b. induction a as [|x a IH]; intros [|y b]; simpl; try done.
  destruct (decide (x = y)) as [->|Hne].
  - rewrite decide_True by done. apply IH.
  - rewrite decide_False by congruence. apply compareIdentifiers_antisym.
Qed.

Lemma compareMain_antisym (a b : SemVer) : compareMain a b = - compareMain b a.
Proof.
  unfold compareMain.
  rewrite (compareN_antisym (major a)), (compareN_antisym (minor a)),
    (compareN_antisym (patch a)).
  by rewrite !or_else_opp.
Qed.

Lemma comparePre_antisym (a b : SemVer) : comparePre a b = - comparePre b a.
Proof.
  unfold comparePre.
  destruct (prerelease a) as [|x pa], (prerelease b) as [|y pb]; try done.
  apply comparePre_loop_antisym.
Qed.

Lemma compare_antisym (a b : SemVer) : compare a b = - compare b a.
Proof.
  unfold compare.
  rewrite (compareMain_antisym a b), (comparePre_antisym a b).
  apply or_else_opp.
Qed.

Lemma rcompare_antisym (a b : value) (c : Z) :
  rcompare a b = Some c → rcompare b a = Some (- c).
Proof.
  destruct a as [| | | |sa|], b as [| | | |sb|]; try done. simpl.
  destruct (parse sb) as [vb|], (parse sa) as [va|]; try done.
  intros [= <-]. by rewrite (compare_antisym va vb).
Qed.

Lemma or_else_assoc (a b c : Z) : or_else (or_else a b) c = or_else a (or_else b c).
Proof.
  unfold or_else. destruct (Z.eqb_spec a 0); [done|].
  by destruct (Z.eqb_spec a 0).
Qed.

Lemma or_else_zero (a b : Z) : or_else a b = 0 → a = 0 ∧ b = 0.
Proof. unfold or_else. destruct (Z.eqb_spec a 0); lia. Qed.

Lemma lex_trans_core (a1 a2 a3 b1 b2 b3 : Z) :
  (a1 = 0 → a3 = a2) → (a2 = 0 → a3 = a1) → (a3 = 0 → a2 = - a1) →
  (a1 ≤ 0 → a2 ≤ 0 → a3 ≤ 0) → (b1 ≤ 0 → b2 ≤ 0 → b3 ≤ 0) →
  or_else a1 b1 ≤ 0 → or_else a2 b2 ≤ 0 → or_else a3 b3 ≤ 0.
Proof.
  unfold or_else.
  destruct (Z.eqb_spec a1 0), (Z.eqb_spec a2 0), (Z.eqb_spec a3 0); lia.
Qed.

Lemma sign_order_lex {T U : Type} (c1 : T → T → Z) (c2 : U → U → Z) :
  sign_order c1 → sign_order c2 → sign_order (lex c1 c2).
Proof.
  intros [A1 E1 T1] [A2 E2 T2]. split; unfold lex.
  - intros x y. by rewrite (A1 (fst x)), (A2 (snd x)), or_else_opp.
  - intros [x1 x2] [y1 y2] [H1 H2]%or_else_zero. simpl in *.
    by rewrite (E1 _ _ H1), (E2 _ _ H2).
  - intros [x1 x2] [y1 y2] [z1 z2]. simpl. apply lex_trans_core.
    + by intros ->%E1.
    + by intros ->%E1.
    + intros ->%E1. apply A1.
    + apply T1.
    + apply T2.
Qed.

Lemma compareN_sign_order : sign_order compareN.
Proof.
  split.
  - apply compareN_antisym.
  - intros x y. unfold compareN. destruct (N.compare_spec x y); [done|lia..].
  - intros x y z. unfold compareN.
    destruct (N.compare_spec x y), (N.compare_spec y z), (N.compare_spec x z); lia.
Qed.

Lemma compareStrings_le (x y : string) : compareStrings x y ≤ 0 ↔ String.le x y.
Proof.
  unfold compareStrings, String.le, String.leb.
  destruct (String.compare x y); simpl; split; (lia || done).
Qed.

Lemma compareStrings_sign_order : sign_order compareStrings.
Proof.
  split.
  - intros x y. unfold compareStrings. rewrite (String.compare_antisym x y).
    by destruct (String.compare y x).
  - intros x y. unfold compareStrings.
    destruct (String.compare x y) eqn:Hc; [|lia..]. intros _.
    by apply String.compare_eq_iff.
  - intros x y z. rewrite !compareStrings_le. apply transitivity.
Qed.

Lemma compareIdentifiers_sign_order : sign_order compareIdentifiers.
Proof.
  destruct compareN_sign_order as [AN EN TN].
  destruct compareStrings_sign_order as [AS ES TS].
  split.
  - apply compareIdentifiers_antisym.
  - intros [x|x] [y|y]; simpl; try lia.
    + by intros ->%EN.
    + intros H. by rewrite (ES x y H).
  - intros [x|x] [y|y] [z|z]; simpl; try lia.
    + apply TN.
    + apply (TS x y z).
Qed.

Lemma comparePre_loop_cons (x y : ident) (a b : list ident) :
  comparePre_loop (x :: a) (y :: b)
  = or_else (compareIdentifiers x y) (comparePre_loop a b).
Proof.
  destruct compareIdentifiers_sign_order as [A E _].
  simpl. unfold or_else. destruct (decide (x = y)) as [->|Hne].
  - assert (H : compareIdentifiers y y = 0) by (specialize (A y y); lia).
    by rewrite H.
  - destruct (Z.eqb_spec (compareIdentifiers x y) 0) as [H|H]; [|done].
    by apply E in H.
Qed.

Lemma comparePre_loop_sign_order : sign_order comparePre_loop.
Proof.
  destruct compareIdentifiers_sign_order as [A E T].
  split.
  - apply comparePre_loop_antisym.
  - intros a. induction a as [|x a IH]; intros [|y b]; try (simpl; lia); [done|].
    rewrite comparePre_loop_cons. intros [H1 H2]%or_else_zero.
    by rewrite (E _ _ H1), (IH _ H2).
  - intros a. induction a as [|x a IH]; intros [|y b] [|z c];
      try (simpl; lia).
    rewrite !comparePre_loop_cons. apply lex_trans_core.
    + by intros ->%E.
    + by intros ->%E.
    + intros ->%E. apply A.
    + apply T.
    + apply IH.
Qed.

Lemma comparePrereleases_sign_order : sign_order comparePrereleases.
Proof.
  destruct comparePre_loop_sign_order as [A E T].
  split.
  - intros [|x a] [|y b]; try done. apply (A (x :: a) (y :: b)).
  - intros [|x a] [|y b]; simpl; try lia; [done|]. apply (E (x :: a) (y :: b)).
  - intros [|x a] [|y b] [|z c]; try (simpl; lia).
    apply (T (x :: a) (y :: b) (z :: c)).
Qed.

Lemma compare_key (a b : SemVer) :
  compare a b
  = lex compareN (lex compareN (lex compareN comparePrereleases)) (key a) (key b).
Proof.
  unfold compare, compareMain, comparePre, comparePrereleases, lex, key. simpl.
  rewrite !or_else_assoc. by destruct (prerelease a), (prerelease b).
Qed.

Lemma compare_trans (a b c : SemVer) :
  compare a b ≤ 0 → compare b c ≤ 0 → compare a c ≤ 0.
Proof.
  rewrite !compare_key. apply so_trans.
  repeat apply sign_order_lex;
    first [apply compareN_sign_order | apply comparePrereleases_sign_order].
Qed.

Lemma in_order_rcompare_trans (a b c : value) :
  in_order rcompare a b → in_order rcompare b c → in_order rcompare a c.
Proof.
  unfold in_order, rcompare.
  destruct a as [| | | |sa|]; try (by intros (? & ? & _)).
  destruct b as [| | | |sb|]; try (by intros (? & ? & _)).
  destruct c as [| | | |sc|]; try (by intros _ (? & ? & _)).
  destruct (parse sa) as [va|], (parse sb) as [vb|], (parse sc) as [vc|];
    try (by intros (? & ? & _)); try (by intros _ (? & ? & _)).
  intros (c1 & [= <-] & H1) (c2 & [= <-] & H2). eexists. split; [done|].
  by apply (compare_trans vc vb va).
Qed.

End SemverFacts.

(** ** The concrete collaborators *)

Module DemoFacts.
Import Demo.

Lemma starts_with_slash_absolute (s : string) :
  starts_with_slash s = true → Sandbox.is_absolute s.
Proof.
  destruct s as [|c s]; [done|]. simpl. intros ->%Ascii.eqb_eq. by exists s.
Qed.

Lemma join_absolute (a b : string) : Sandbox.is_absolute (join a b).
Proof.
  unfold join. destruct (starts_with_slash b) eqn:Hb.
  - by apply starts_with_slash_absolute.
  - destruct (starts_with_slash a) eqn:Ha.
    + destruct (starts_with_slash_absolute a Ha) as [rest ->]. by eexists.
    + by eexists.
Qed.

(** The one load that fails throws an [Error]. *)
Lemma loads_have_messages (p : string) (s : nat) (e : Exn) (s' : nat) :
  loadPlugin p s = (Throw e, s') → is_Some (exn_message e).
Proof.
  simpl. destruct (String.eqb p "/w/A/y"); [|done].
  intros [= <- _]. by eexists.
Qed.

End DemoFacts.

(** ** Properties of the scanner *)

Section Properties.
Context {St : Type} `{!Collaborators St}.

Lemma scan_frame_refl (w : World St) : scan_frame w w [] [].
Proof. split; by rewrite ?app_nil_r. Qed.

(** Closes the goals on the calls of a world built by [call] or [log]. *)
Ltac frame_calls :=
  split; simpl; unfold metadata_calls, readdir_calls, load_calls;
  rewrite ?omap_app; simpl; rewrite ?app_nil_r;
  first [done | by repeat apply prefix_app_r].

Lemma scan_frame_trans (w1 w2 w3 : World St) (m1 m2 r1 r2 : list string) :
  scan_frame w1 w2 m1 r1 → scan_frame w2 w3 m2 r2 →
  scan_frame w1 w3 (m1 ++ m2) (r1 ++ r2).
Proof.
  intros [? H1 H2 ? ?] [? H3 H4 ? ?]. split.
  - congruence.
  - by rewrite H3, H1, app_assoc.
  - by rewrite H4, H2, app_assoc.
  - congruence.
  - by etrans.
Qed.

Lemma checkIfPathDirectory_spec (p : string) (w : World St) :
  ∃ b w', checkIfPathDirectory p w = (Ok b, w') ∧ scan_frame w w' [] []
    ∧ ∃ cs, calls w' = calls w ++ CStatSync p :: cs.
Proof.
  unfold checkIfPathDirectory, try_catch, call, bind, log, ret.
  destruct (statSync_isDirectory p (ext w)) as [[b|e] s] eqn:Hs; simpl.
  - eexists _, _. split; [done|]. split; [frame_calls|]. by exists [].
  - eexists _, _. split; [done|]. split; [frame_calls|]. by exists [].
Qed.

Lemma verifyPluginAtPath_spec (p : string) (w : World St) :
  ∃ r w', verifyPluginAtPath p w = (Ok r, w') ∧ scan_frame w w' [p] []
    ∧ ∀ d, r = Some d → path d = p.
Proof.
  unfold verifyPluginAtPath, try_catch, call, bind, log, ret, alloc.
  destruct (getPluginMetadata p (ext w)) as [[m|e] s] eqn:Hm; simpl.
  - destruct (checkPluginCompatibility m s) as [[c|e] s'] eqn:Hc; simpl.
    + destruct (truthy (message c)); simpl.
      all: eexists _, _; (split; [done|]); split.
      1,3: frame_calls.
      all: intros d; destruct (truthy (compatible c)); intros [= <-]; done.
    + eexists _, _; (split; [done|]); split; [|done].
      frame_calls.
  - eexists _, _; (split; [done|]); split; [|done].
    frame_calls.
Qed.

Lemma filterM_checkIfPathDirectory (l : list string) (w : World St) :
  ∃ dirs w', filterM checkIfPathDirectory l w = (Ok dirs, w')
    ∧ scan_frame w w' [] [] ∧ dirs `sublist_of` l.
Proof.
  revert w. induction l as [|p l IH]; intros w; simpl.
  - eexists _, _. split; [done|]. split; [apply scan_frame_refl|done].
  - destruct (checkIfPathDirectory_spec p w) as (b & w1 & Hb & F1 & _).
    destruct (IH w1) as (dirs & w2 & Hd & F2 & Hsub).
    unfold bind at 1. rewrite Hb. unfold bind at 1. rewrite Hd. unfold ret.
    eexists _, _. split; [done|]. split.
    + apply (scan_frame_trans _ _ _ _ _ _ _ F1 F2).
    + destruct b; [by apply sublist_skip|by apply sublist_cons].
Qed.

Lemma foldM_cons {A B : Type} (f : B → A → M St B) (b : B) (a : A) (l : list A)
    (w : World St) :
  foldM f b (a :: l) w
  = match f b a w with
    | (Ok b', w') => foldM f b' l w'
    | (Throw e, w') => (Throw e, w')
    end.
Proof. reflexivity. Qed.

Lemma pushIfPlugin_run (plugins : list Descriptor) (p : string) (w : World St) :
  pushIfPlugin plugins p w
  = match verifyPluginAtPath p w with
    | (Ok (Some d), w') => (Ok (plugins ++ [d]), w')
    | (Ok None, w') => (Ok plugins, w')
    | (Throw e, w') => (Throw e, w')
    end.
Proof.
  unfold pushIfPlugin, bind, ret.
  by destruct (verifyPluginAtPath p w) as [[[d|]|e] w'].
Qed.

Lemma foldM_pushIfPlugin (plugins : list Descriptor) (l : list string) (w : World St) :
  ∃ found w', foldM pushIfPlugin plugins l w = (Ok (plugins ++ found), w')
    ∧ scan_frame w w' l [] ∧ map path found `sublist_of` l.
Proof.
  revert plugins w. induction l as [|p l IH]; intros plugins w.
  - exists [], w. rewrite app_nil_r. split; [done|]. split; [apply scan_frame_refl|done].
  - destruct (verifyPluginAtPath_spec p w) as (r & w1 & Hr & F1 & Hpath).
    rewrite foldM_cons, pushIfPlugin_run, Hr.
    destruct r as [d|].
    + destruct (IH (plugins ++ [d]) w1) as (found & w2 & Hf & F2 & Hsub).
      exists (d :: found), w2. rewrite Hf, <- app_assoc. split; [done|]. split.
      * apply (scan_frame_trans _ _ _ _ _ _ _ F1 F2).
      * simpl. rewrite (Hpath d eq_refl). by apply sublist_skip.
    + destruct (IH plugins w1) as (found & w2 & Hf & F2 & Hsub).
      exists found, w2. split; [done|]. split.
      * apply (scan_frame_trans _ _ _ _ _ _ _ F1 F2).
      * by apply sublist_cons.
Qed.

Lemma verifyPluginAtPath_metadata_throws (p : string) (w : World St) (e : Exn) (s : St) :
  getPluginMetadata p (ext w) = (Throw e, s) →
  verifyPluginAtPath p w
  = (Ok None, mkWorld s (whitelistedModuleFolders w) (heap w) (logged w)
                (calls w ++ [CGetPluginMetadata p])).
Proof.
  intros Hm. unfold verifyPluginAtPath, try_catch, bind, call, ret. by rewrite Hm.
Qed.

Lemma listPluginsInDirectory_run (directory : string) (w : World St) :
  listPluginsInDirectory directory w
  = match checkIfPathDirectory (resolve cwd directory) w with
    | (Ok true, w1) =>
        match verifyPluginAtPath (resolve cwd directory) w1 with
        | (Ok (Some d), w2) => (Ok [d], w2)
        | (Ok None, w2) =>
            match call (CReaddirSync (resolve cwd directory))
                    (readdirSync (resolve cwd directory)) w2 with
            | (Ok children, w3) =>
                match filterM checkIfPathDirectory
                        (map (resolve (resolve cwd directory)) children) w3 with
                | (Ok directories, w4) => foldM pushIfPlugin [] directories w4
                | (Throw e, w4) => (Throw e, w4)
                end
            | (Throw e, w3) => (Throw e, w3)
            end
        | (Throw e, w2) => (Throw e, w2)
        end
    | (Ok false, w1) =>
        (Ok [], mkWorld (ext w1) (whitelistedModuleFolders w1) (heap w1)
                  (logged w1 ++ [mkLog LevelError
                     [AStr "Error: specified plugin path '%s' is not a directory";
                      AStr (resolve cwd directory)]]) (calls w1))
    | (Throw e, w1) => (Throw e, w1)
    end.
Proof.
  unfold listPluginsInDirectory, bind at 1.
  destruct (checkIfPathDirectory _ w) as [[[|]|e] w1]; simpl; [|done..].
  unfold bind at 1.
  destruct (verifyPluginAtPath _ w1) as [[[d|]|e] w2]; simpl; [done| |done].
  unfold bind at 1.
  destruct (call _ _ w2) as [[children|e] w3]; [|done].
  unfold bind at 1. done.
Qed.

(** The directory test against the answer of [statSync]. *)
Lemma checkIfPathDirectory_answer (p : string) (w : World St) :
  ∃ w', checkIfPathDirectory p w
        = (Ok (match fst (statSync_isDirectory p (ext w)) with
               | Ok b => b
               | Throw _ => false
               end), w')
    ∧ ext w' = snd (statSync_isDirectory p (ext w))
    ∧ heap w' = heap w
    ∧ calls w' = calls w ++ [CStatSync p].
Proof.
  unfold checkIfPathDirectory, try_catch, call, bind, log, ret.
  destruct (statSync_isDirectory p (ext w)) as [[b|e] s]; simpl; by eexists.
Qed.

Lemma filterM_checkIfPathDirectory_answers (l : list string) (w : World St) :
  ∃ w', filterM checkIfPathDirectory l w
        = (Ok (fst (directories_among l (ext w))), w')
    ∧ ext w' = snd (directories_among l (ext w))
    ∧ heap w' = heap w
    ∧ calls w' = calls w ++ map CStatSync l.
Proof.
  revert w. induction l as [|p l IH]; intros w.
  - exists w. simpl. by rewrite app_nil_r.
  - destruct (checkIfPathDirectory_answer p w) as (w1 & Hrun & Hext & Hheap & Hcalls).
    destruct (IH w1) as (w2 & Hrest & Hext2 & Hheap2 & Hcalls2).
    exists w2. simpl. unfold bind at 1. rewrite Hrun. unfold bind at 1. rewrite Hrest.
    rewrite Hext in Hext2 |- *.
    destruct (statSync_isDirectory p (ext w)) as [r s1]; simpl in *.
    destruct (directories_among l s1) as [dirs s2]; simpl in *.
    unfold ret. split; [by destruct r as [[|]|]|].
    split; [done|]. split; [congruence|].
    by rewrite Hcalls2, Hcalls, <- app_assoc.
Qed.

(** The test of a candidate against the answers of the engine. *)
Lemma verifyPluginAtPath_answer (p : string) (w : World St) :
  ∃ w', verifyPluginAtPath p w
        = (Ok (fst (fst (candidate_at p (ext w) (length (heap w))))), w')
    ∧ ext w' = snd (fst (candidate_at p (ext w) (length (heap w))))
    ∧ length (heap w') = snd (candidate_at p (ext w) (length (heap w)))
    ∧ stat_calls (calls w') = stat_calls (calls w)
    ∧ readdir_calls (calls w') = readdir_calls (calls w)
    ∧ metadata_calls (calls w') = metadata_calls (calls w) ++ [p].
Proof.
  unfold verifyPluginAtPath, candidate_at, try_catch, call, bind, log, ret, alloc.
  destruct (getPluginMetadata p (ext w)) as [[m|e] s]; simpl.
  - destruct (checkPluginCompatibility m s) as [[c|e] s']; simpl.
    + destruct (truthy (message c)), (truthy (compatible c)); simpl;
        eexists; (split; [reflexivity|]); simpl;
        rewrite ?length_app; simpl;
        unfold stat_calls, readdir_calls, metadata_calls; rewrite !omap_app; simpl;
        rewrite ?app_nil_r; repeat split; try done; lia.
    + eexists; (split; [reflexivity|]); simpl; rewrite ?length_app; simpl;
        unfold stat_calls, readdir_calls, metadata_calls; rewrite !omap_app; simpl;
        rewrite ?app_nil_r; repeat split; try done; lia.
  - eexists; (split; [reflexivity|]); simpl;
      unfold stat_calls, readdir_calls, metadata_calls; rewrite !omap_app; simpl;
      rewrite ?app_nil_r; repeat split; done.
Qed.

Lemma foldM_pushIfPlugin_answers (plugins : list Descriptor) (l : list string)
    (w : World St) :
  ∃ w', foldM pushIfPlugin plugins l w
        = (Ok (plugins ++ fst (fst (plugins_among l (ext w) (length (heap w))))), w')
    ∧ ext w' = snd (fst (plugins_among l (ext w) (length (heap w))))
    ∧ length (heap w') = snd (plugins_among l (ext w) (length (heap w)))
    ∧ stat_calls (calls w') = stat_calls (calls w)
    ∧ readdir_calls (calls w') = readdir_calls (calls w)
    ∧ metadata_calls (calls w') = metadata_calls (calls w) ++ l.
Proof.
  revert plugins w. induction l as [|p l IH]; intros plugins w.
  - exists w. simpl. by rewrite !app_nil_r.
  - destruct (verifyPluginAtPath_answer p w) as (w1 & Hrun & Hext & Hlen & Hs & Hr & Hm).
    rewrite foldM_cons, pushIfPlugin_run, Hrun. simpl.
    destruct (candidate_at p (ext w) (length (heap w))) as [[r s1] n1]; simpl in *.
    destruct (IH (plugins ++ option_list r) w1) as (w2 & Hrest & Hext2 & Hlen2 & Hs2 & Hr2 & Hm2).
    rewrite Hext, Hlen in Hrest, Hext2, Hlen2.
    destruct (plugins_among l s1 n1) as [[found s2] n2]; simpl in *.
    exists w2. split.
    { destruct r as [d|]; simpl in *.
      - by rewrite Hrest, <- app_assoc.
      - by rewrite app_nil_r in Hrest. }
    split; [done|]. split; [done|]. split; [congruence|]. split; [congruence|].
    by rewrite Hm2, Hm, <- app_assoc.
Qed.

Lemma verifyPluginAtPath_compatibility_throws (p : string) (w : World St)
    (m : gmap string value) (s : St) (e : Exn) (s' : St) :
  getPluginMetadata p (ext w) = (Ok m, s) →
  checkPluginCompatibility m s = (Throw e, s') →
  verifyPluginAtPath p w
  = (Ok None, mkWorld s' (whitelistedModuleFolders w) (heap w ++ [m]) (logged w)
                (calls w ++ [CGetPluginMetadata p;
                             CCheckPluginCompatibility (length (heap w))])).
Proof.
  intros Hm Hc. unfold verifyPluginAtPath, try_catch, bind, call, alloc, ret.
  rewrite Hm. simpl. rewrite Hc. simpl. by rewrite <- app_assoc.
Qed.

(** C7.  For a folder that [statSync] reports as a directory, the scanner
    tests the folder itself first.  When that test gives a descriptor, it
    is the whole result: nothing is listed and no other path is looked at.
    Otherwise the folder is listed once; when the listing throws, so does
    the scan of the folder; else [statSync] is asked about every child, in
    order, the children it reports as directories are each tested once as
    a candidate, in order, the result is the descriptors of those tests,
    and nothing deeper is visited: the only [readdirSync] is on the folder
    itself.  A test gives a descriptor exactly when the metadata is
    extracted and found compatible; an exception of [getPluginMetadata] or
    of [checkPluginCompatibility] gives no descriptor, logs nothing, and is
    not propagated: [verifyPluginAtPath] never throws. *)
Theorem C7_root_first_then_one_level (directory : string) (w : World St) (s1 : St) :
  statSync_isDirectory (resolve cwd directory) (ext w) = (Ok true, s1) →
  (let '(root, s2, next2) :=
     candidate_at (resolve cwd directory) s1 (length (heap w)) in
   match root with
   | Some d =>
       ∃ w2, listPluginsInDirectory directory w = (Ok [d], w2)
         ∧ ext w2 = s2
         ∧ stat_calls (calls w2) = stat_calls (calls w) ++ [resolve cwd directory]
         ∧ metadata_calls (calls w2)
           = metadata_calls (calls w) ++ [resolve cwd directory]
         ∧ readdir_calls (calls w2) = readdir_calls (calls w)
   | None =>
       match readdirSync (resolve cwd directory) s2 with
       | (Throw e, s3) =>
           ∃ w3, listPluginsInDirectory directory w = (Throw e, w3) ∧ ext w3 = s3
       | (Ok children, s3) =>
           let paths := map (resolve (resolve cwd directory)) children in
           let '(dirs, s4) := directories_among paths s3 in
           let '(found, s5, next5) := plugins_among dirs s4 next2 in
           ∃ w5, listPluginsInDirectory directory w = (Ok found, w5)
             ∧ ext w5 = s5
             ∧ stat_calls (calls w5)
               = stat_calls (calls w) ++ resolve cwd directory :: paths
             ∧ metadata_calls (calls w5)
               = metadata_calls (calls w) ++ resolve cwd directory :: dirs
             ∧ readdir_calls (calls w5)
               = readdir_calls (calls w) ++ [resolve cwd directory]
       end
   end)
  ∧ (∀ (p : string) (w0 : World St),
       ∃ r w0', verifyPluginAtPath p w0 = (Ok r, w0'))
  ∧ (∀ (p : string) (w0 : World St) (e : Exn) (s : St),
       getPluginMetadata p (ext w0) = (Throw e, s) →
       ∃ w0', verifyPluginAtPath p w0 = (Ok None, w0') ∧ logged w0' = logged w0)
  ∧ (∀ (p : string) (w0 : World St) (m : gmap string value) (s : St)
       (e : Exn) (s' : St),
       getPluginMetadata p (ext w0) = (Ok m, s) →
       checkPluginCompatibility m s = (Throw e, s') →
       ∃ w0', verifyPluginAtPath p w0 = (Ok None, w0') ∧ logged w0' = logged w0).
Proof.
  intros Hstat. split; [|split; [|split]].
  - destruct (checkIfPathDirectory_answer (resolve cwd directory) w)
      as (w1 & Hdir & Hext1 & Hheap1 & Hcalls1).
    rewrite Hstat in Hdir, Hext1. simpl in Hdir, Hext1.
    destruct (verifyPluginAtPath_answer (resolve cwd directory) w1)
      as (w2 & Hroot & Hext2 & Hlen2 & Hs2 & Hr2 & Hm2).
    rewrite Hext1, Hheap1 in Hroot, Hext2, Hlen2.
    rewrite listPluginsInDirectory_run, Hdir, Hroot.
    assert (Hs1 : stat_calls (calls w1) = stat_calls (calls w) ++ [resolve cwd directory]).
    { rewrite Hcalls1. unfold stat_calls. by rewrite omap_app. }
    assert (Hm1 : metadata_calls (calls w1) = metadata_calls (calls w)).
    { rewrite Hcalls1. unfold metadata_calls. by rewrite omap_app, app_nil_r. }
    assert (Hr1 : readdir_calls (calls w1) = readdir_calls (calls w)).
    { rewrite Hcalls1. unfold readdir_calls. by rewrite omap_app, app_nil_r. }
    destruct (candidate_at (resolve cwd directory) s1 (length (heap w)))
      as [[root s2] next2]; simpl in *.
    destruct root as [d|].
    + exists w2. split; [done|]. split; [done|]. split; [congruence|].
      split; [congruence|congruence].
    + unfold call. rewrite Hext2.
      destruct (readdirSync (resolve cwd directory) s2) as [[children|e] s3].
      * set (w3 := mkWorld s3 _ _ _ _).
        destruct (filterM_checkIfPathDirectory_answers
                    (map (resolve (resolve cwd directory)) children) w3)
          as (w4 & Hfilter & Hext4 & Hheap4 & Hcalls4).
        simpl in Hext4, Hfilter.
        destruct (directories_among _ s3) as [dirs s4]; simpl in *.
        rewrite Hfilter.
        destruct (foldM_pushIfPlugin_answers [] dirs w4)
          as (w5 & Hfold & Hext5 & Hlen5 & Hs5 & Hr5 & Hm5).
        rewrite Hext4 in Hfold, Hext5, Hlen5.
        assert (Hlen4 : length (heap w4) = next2) by (rewrite Hheap4; exact Hlen2).
        rewrite Hlen4 in Hfold, Hext5, Hlen5.
        destruct (plugins_among dirs s4 next2) as [[found s5] next5]; simpl in *.
        exists w5. split; [done|]. split; [done|].
        rewrite Hs5, Hm5, Hr5, Hcalls4. unfold stat_calls, metadata_calls, readdir_calls.
        rewrite !omap_app. simpl.
        fold (stat_calls (calls w2)) (metadata_calls (calls w2)) (readdir_calls (calls w2)).
        rewrite Hs2, Hm2, Hr2, Hs1, Hm1, Hr1.
        assert (Hst : ∀ l, omap (λ c, match c with CStatSync q => Some q | _ => None end)
                          (map CStatSync l) = l).
        { induction l as [|q l IH]; [done|]. csimpl. by rewrite IH. }
        assert (Hmt : ∀ l, omap (λ c, match c with CGetPluginMetadata q => Some q
                                       | _ => None end) (map CStatSync l) = []).
        { induction l as [|q l IH]; [done|]. csimpl. by rewrite IH. }
        assert (Hrd : ∀ l, omap (λ c, match c with CReaddirSync q => Some q
                                       | _ => None end) (map CStatSync l) = []).
        { induction l as [|q l IH]; [done|]. csimpl. by rewrite IH. }
        rewrite Hst, Hmt, Hrd, !app_nil_r, <- !app_assoc. done.
      * eexists. split; reflexivity.
  - intros p w0. destruct (verifyPluginAtPath_spec p w0) as (r & w0' & Hr & _).
    by exists r, w0'.
  - intros p w0 e s Hthrow. eexists. split.
    + by apply verifyPluginAtPath_metadata_throws with (e := e).
    + done.
  - intros p w0 m s e s' Hm Hc. eexists. split.
    + by apply verifyPluginAtPath_compatibility_throws with (e := e) (s := s).
    + done.
Qed.

Lemma elem_of_map {A B : Type} (f : A → B) (l : list A) (y : B) :
  y ∈ map f l ↔ ∃ x, y = f x ∧ x ∈ l.
Proof.
  rewrite list_elem_of_In, in_map_iff. split.
  - intros (x & <- & Hx%list_elem_of_In). eauto.
  - intros (x & -> & Hx%list_elem_of_In). eauto.
Qed.

Lemma calls_extend (w w1 w' : World St) (c : Call) (cs : list Call) :
  calls w1 = calls w ++ c :: cs → calls w1 `prefix_of` calls w' →
  ∃ cs', calls w' = calls w ++ c :: cs'.
Proof.
  intros H1 [k Hk]. exists (cs ++ k). by rewrite Hk, H1, <- app_assoc.
Qed.

Lemma listPluginsInDirectory_spec (directory : string) (w : World St) :
  ∃ r w', listPluginsInDirectory directory w = (r, w')
    ∧ whitelistedModuleFolders w' = whitelistedModuleFolders w
    ∧ (∃ cs, calls w' = calls w ++ CStatSync (resolve cwd directory) :: cs)
    ∧ ∀ found d, r = Ok found → d ∈ found →
        path d = resolve cwd directory
        ∨ ∃ child, path d = resolve (resolve cwd directory) child.
Proof.
  rewrite listPluginsInDirectory_run.
  destruct (checkIfPathDirectory_spec (resolve cwd directory) w)
    as (b & w1 & -> & F0 & cs0 & Hstat).
  destruct b.
  - destruct (verifyPluginAtPath_spec (resolve cwd directory) w1)
      as (root & w2 & -> & F1 & Hpath).
    destruct root as [d|].
    + eexists _, _. split; [reflexivity|]. split; [|split].
      * destruct F0, F1. congruence.
      * eapply calls_extend; [done|]. apply F1.
      * intros found d' [= <-] ->%list_elem_of_singleton. left. by apply Hpath.
    + destruct (call _ _ w2) as [[children|e] w3] eqn:Hcall.
      * assert (F2 : scan_frame w2 w3 [] [resolve cwd directory]).
        { unfold call in Hcall.
          destruct (readdirSync _ (ext w2)) as [r s]. injection Hcall as -> <-.
          frame_calls. }
        destruct (filterM_checkIfPathDirectory
                    (map (resolve (resolve cwd directory)) children) w3)
          as (dirs & w4 & -> & F3 & Hsub).
        destruct (foldM_pushIfPlugin [] dirs w4) as (found & w5 & -> & F4 & Hsub').
        pose proof (scan_frame_trans _ _ _ _ _ _ _
                      (scan_frame_trans _ _ _ _ _ _ _
                         (scan_frame_trans _ _ _ _ _ _ _ F1 F2) F3) F4) as F.
        eexists _, _. split; [reflexivity|]. split; [|split].
        -- destruct F0, F. congruence.
        -- eapply calls_extend; [done|]. apply F.
        -- intros found' d' [= <-] Hd'. right.
           assert (Hin : path d' ∈ map (resolve (resolve cwd directory)) children).
           { eapply elem_of_sublist; [|done]. eapply elem_of_sublist; [|done].
             apply elem_of_map. eauto. }
           apply elem_of_map in Hin as (child & -> & _). eauto.
      * assert (F2 : scan_frame w2 w3 [] [resolve cwd directory]).
        { unfold call in Hcall.
          destruct (readdirSync _ (ext w2)) as [r s]. injection Hcall as -> <-.
          frame_calls. }
        pose proof (scan_frame_trans _ _ _ _ _ _ _ F1 F2) as F.
        eexists _, _. split; [reflexivity|]. split; [|split].
        -- destruct F0, F. congruence.
        -- eapply calls_extend; [done|]. apply F.
        -- intros found' d'. discriminate.
  - eexists _, _. split; [reflexivity|]. simpl. split; [|split].
    + apply F0.
    + by exists cs0.
    + intros found d [= <-] Hd. by apply elem_of_nil in Hd.
Qed.

Lemma scanFolder_spec (allPlugins : list Descriptor) (f : string) (w : World St) :
  ∃ found w', scanFolder allPlugins f w = (Ok (allPlugins ++ found), w')
    ∧ whitelistedModuleFolders w' = whitelistedModuleFolders w ++ [f]
    ∧ (∃ cs, calls w' = calls w ++ CStatSync (resolve cwd f) :: cs)
    ∧ ∀ d, d ∈ found →
        path d = resolve cwd f ∨ ∃ child, path d = resolve (resolve cwd f) child.
Proof.
  unfold scanFolder, bind at 1, whitelist_push.
  set (w0 := mkWorld _ _ _ _ _).
  destruct (listPluginsInDirectory_spec f w0) as (r & w1 & Hr & Hwl & Hcalls & Hpaths).
  unfold try_catch, bind at 1. rewrite Hr.
  destruct r as [found|e].
  - unfold bind, ret, log.
    destruct (bool_decide _); eexists found, _; (split; [reflexivity|]);
      simpl; (split; [by rewrite Hwl|]); (split; [done|]); eauto.
  - unfold bind, ret, log. eexists [], _. rewrite app_nil_r. split; [reflexivity|]. simpl.
    split; [by rewrite Hwl|]. split; [done|].
    intros d Hd. by apply elem_of_nil in Hd.
Qed.

Lemma foldM_scanFolder (allPlugins : list Descriptor) (folders : list string)
    (w : World St) :
  ∃ found w', foldM scanFolder allPlugins folders w = (Ok (allPlugins ++ found), w')
    ∧ whitelistedModuleFolders w' = whitelistedModuleFolders w ++ folders
    ∧ calls w `prefix_of` calls w'
    ∧ (∀ f, f ∈ folders → CStatSync (resolve cwd f) ∈ calls w')
    ∧ ∀ d, d ∈ found → ∃ f, f ∈ folders ∧
        (path d = resolve cwd f ∨ ∃ child, path d = resolve (resolve cwd f) child).
Proof.
  revert allPlugins w. induction folders as [|f folders IH]; intros allPlugins w.
  - exists [], w. rewrite !app_nil_r. split; [done|]. split; [done|]. split; [done|].
    split; intros ? []%elem_of_nil.
  - rewrite foldM_cons.
    destruct (scanFolder_spec allPlugins f w) as (found & w1 & -> & Hwl & [cs Hcs] & Hp).
    destruct (IH (allPlugins ++ found) w1) as (found' & w2 & -> & Hwl' & Hpre & Hst & Hp').
    exists (found ++ found'), w2. rewrite app_assoc. split; [done|].
    split; [by rewrite Hwl', Hwl, <- app_assoc|].
    split; [etrans; [|done]; rewrite Hcs; by apply prefix_app_r|].
    split.
    + intros f' [->|Hf']%elem_of_cons; [|by apply Hst].
      eapply elem_of_prefix; [|done]. rewrite Hcs. set_solver.
    + intros d [Hd|Hd]%elem_of_app.
      * exists f. split; [left|]. by apply Hp.
      * destruct (Hp' d Hd) as (f' & Hf' & Hpath). exists f'. split; [by right|done].
Qed.

(** C9, amended.  The scan never throws.  Each folder argument is
    appended to the whitelist as given, while the directory test is made on
    its resolution against the working directory and every descriptor path
    is that resolution or a child resolved against it.  Hence, with POSIX
    paths and [resolve] returning absolute ones, a relative folder argument
    other than the empty string is no prefix of any descriptor path; the
    empty folder argument, relative too, is registered as the empty string,
    which is a prefix of every descriptor path. *)
Theorem C9_whitelist_verbatim_paths_resolved (folders : folders_arg) (w : World St) :
  ∃ plugins w',
    scanPluginDirectories folders w = (Ok plugins, w')
    ∧ whitelistedModuleFolders w'
      = whitelistedModuleFolders w ++ folders_list folders
    ∧ (∀ f, f ∈ folders_list folders → CStatSync (resolve cwd f) ∈ calls w')
    ∧ (∀ d, d ∈ plugins → ∃ f, f ∈ folders_list folders ∧
         (path d = resolve cwd f
          ∨ ∃ child, path d = resolve (resolve cwd f) child))
    ∧ ((∀ a b, Sandbox.is_absolute (resolve a b)) →
       ∀ f d, f ∈ folders_list folders → Sandbox.is_relative f → f ≠ "" →
         d ∈ plugins → ¬ Sandbox.is_prefix f (path d))
    ∧ ("" ∈ folders_list folders →
       Sandbox.is_relative "" ∧ "" ∈ whitelistedModuleFolders w'
       ∧ ∀ d, d ∈ plugins → Sandbox.is_prefix "" (path d)).
Proof.
  unfold scanPluginDirectories.
  destruct (foldM_scanFolder [] (folders_list folders) w)
    as (found & w' & Hrun & Hwl & _ & Hstat & Hpaths).
  exists found, w'. split; [done|]. split; [done|]. split; [done|].
  split; [done|]. split.
  - intros Habs f d _ Hrel Hne Hd.
    apply SandboxFacts.relative_not_prefix_of_absolute; [done|done|].
    destruct (Hpaths d Hd) as (f' & _ & [->|[child ->]]); apply Habs.
  - intros Hin. split; [apply (SandboxFacts.empty_relative_prefix "")|]. split.
    + rewrite Hwl. apply elem_of_app. by right.
    + intros d _. apply SandboxFacts.empty_relative_prefix.
Qed.

(** ** Properties of the resolver *)

Lemma indexOf_from_ge (i : Z) (l : list string) (v : value) :
  indexOf_from i l v = -1 ∨ i ≤ indexOf_from i l v.
Proof.
  revert i. induction l as [|s l IH]; intros i; simpl; [by left|].
  destruct (decide (VStr s = v)); [right; lia|].
  destruct (IH (i + 1)); [by left|right; lia].
Qed.

Lemma indexOf_from_minus_one (i : Z) (l : list string) (v : value) :
  0 ≤ i → indexOf_from i l v = -1 ↔ ∀ s, s ∈ l → v ≠ VStr s.
Proof.
  revert i. induction l as [|s l IH]; intros i Hi; simpl.
  - split; [|done]. intros _ s Hs. by apply elem_of_nil in Hs.
  - destruct (decide (VStr s = v)) as [<-|Hne].
    + split; [lia|]. intros H. destruct (H s); [left|done].
    + rewrite IH by lia. split.
      * intros H s' [->|Hs']%elem_of_cons; [congruence|by apply H].
      * intros H s' Hs'. apply H. by right.
Qed.

Lemma indexOf_minus_one (l : list string) (v : value) :
  indexOf l v = -1 ↔ ∀ s, s ∈ l → v ≠ VStr s.
Proof. by apply indexOf_from_minus_one. Qed.

Lemma in_pluginMap_push (d p : Descriptor) (key : string)
    (pluginMap : list (string * list Descriptor)) :
  in_pluginMap d (pluginMap_push key p pluginMap) ↔ d = p ∨ in_pluginMap d pluginMap.
Proof.
  unfold in_pluginMap. induction pluginMap as [|[k ps] rest IH]; simpl.
  - split.
    + intros (k & ps & Hin%list_elem_of_singleton & Hd). injection Hin as -> ->.
      left. by apply list_elem_of_singleton in Hd.
    + intros [->|(k & ps & []%elem_of_nil & _)].
      exists key, [p]. split; apply list_elem_of_singleton; done.
  - destruct (decide (k = key)) as [->|Hne].
    + split.
      * intros (k' & ps' & [Heq|Hin]%elem_of_cons & Hd).
        -- injection Heq as -> ->. apply elem_of_app in Hd as [Hd|Hd].
           ++ right. exists key, ps. split; [left|done].
           ++ left. by apply list_elem_of_singleton in Hd.
        -- right. exists k', ps'. split; [by right|done].
      * intros [->|(k' & ps' & [Heq|Hin]%elem_of_cons & Hd)].
        -- exists key, (ps ++ [p]). split; [left|]. apply elem_of_app. right. left.
        -- injection Heq as -> ->. exists key, (ps ++ [p]). split; [left|].
           apply elem_of_app. by left.
        -- exists k', ps'. split; [by right|done].
    + split.
      * intros (k' & ps' & [Heq|Hin]%elem_of_cons & Hd).
        -- injection Heq as -> ->. right. exists k, ps. split; [left|done].
        -- destruct (proj1 IH) as [->|(k'' & ps'' & Hin' & Hd')]; [by eauto|by left|].
           right. exists k'', ps''. split; [by right|done].
      * intros [->|(k' & ps' & [Heq|Hin]%elem_of_cons & Hd)].
        -- destruct (proj2 IH (or_introl eq_refl)) as (k' & ps' & Hin & Hd).
           exists k', ps'. split; [by right|done].
        -- injection Heq as -> ->. exists k, ps. split; [left|done].
        -- destruct (proj2 IH) as (k'' & ps'' & Hin' & Hd'); [right; by eauto|].
           exists k'', ps''. split; [by right|done].
Qed.

Lemma normalized_refl (h : list (gmap string value)) : normalized h h.
Proof. split; [done|]. by left. Qed.

Lemma normalized_trans (h1 h2 h3 : list (gmap string value)) :
  normalized h1 h2 → normalized h2 h3 → normalized h1 h3.
Proof.
  intros [Hl1 H1] [Hl2 H2]. split; [congruence|]. intros r.
  destruct (H1 r) as [E1|[V1 E1]], (H2 r) as [E2|[V2 E2]].
  - left. congruence.
  - right. rewrite <- E1. done.
  - right. split; [done|]. congruence.
  - right. split; [done|]. by rewrite E2, E1, insert_insert_eq.
Qed.

Lemma normalized_write (h : list (gmap string value)) (r : nat) :
  semver_valid (get (h !!! r) "version") = false →
  normalized h (<[r := <["version" := VStr "0.0.0"]> (h !!! r)]> h).
Proof.
  intros Hv. split; [by rewrite length_insert|]. intros r'.
  destruct (decide (r = r')) as [<-|Hne].
  - destruct (decide (r < length h)%nat).
    + right. split; [done|]. by rewrite list_lookup_total_insert_eq.
    + left. by rewrite list_insert_ge by lia.
  - left. by rewrite list_lookup_total_insert_ne.
Qed.

Lemma groupPlugin_run (whitelistMode : bool) (names : list string)
    (pluginMap : list (string * list Descriptor)) (p : Descriptor) (w : World St) :
  groupPlugin whitelistMode names pluginMap p w
  = if skipped whitelistMode names (heap w) p then (Ok pluginMap, w)
    else
      (Ok (pluginMap_push
             (PLUGIN_KEY_PREFIX +:+ to_string (get (heap w !!! metadata p) "name"))
             p pluginMap),
       if semver_valid (get (heap w !!! metadata p) "version") then w
       else mkWorld (ext w) (whitelistedModuleFolders w)
              (<[metadata p := <["version" := VStr "0.0.0"]> (heap w !!! metadata p)]>
                 (heap w))
              (logged w) (calls w)).
Proof.
  unfold groupPlugin, skipped, bind, read, write, ret.
  destruct (whitelistMode && _); [done|].
  by destruct (semver_valid _).
Qed.

Lemma normalized_name (h h' : list (gmap string value)) (r : nat) (k : string) :
  normalized h h' → k ≠ "version" → (h' !!! r) !! k = (h !!! r) !! k.
Proof.
  intros [_ H] Hk. destruct (H r) as [->|[_ ->]]; [done|].
  by rewrite lookup_insert_ne.
Qed.

Lemma skipped_normalized (whitelistMode : bool) (names : list string)
    (h h' : list (gmap string value)) (p : Descriptor) :
  normalized h h' →
  skipped whitelistMode names h' p = skipped whitelistMode names h p.
Proof.
  intros Hn. unfold skipped, get. by rewrite (normalized_name h h') by done.
Qed.

Lemma groupPlugin_spec (whitelistMode : bool) (names : list string)
    (pluginMap : list (string * list Descriptor)) (p : Descriptor) (w : World St) :
  ∃ pluginMap' w',
    groupPlugin whitelistMode names pluginMap p w = (Ok pluginMap', w')
    ∧ group_frame w w'
    ∧ ∀ d, in_pluginMap d pluginMap' ↔
           in_pluginMap d pluginMap
           ∨ (d = p ∧ skipped whitelistMode names (heap w) p = false).
Proof.
  rewrite groupPlugin_run. destruct (skipped _ _ _ _) eqn:Hskip.
  - exists pluginMap, w. split; [done|]. split.
    + split; try done. apply normalized_refl.
    + intros d. split; [by left|]. by intros [?|[_ ?]].
  - eexists _, _. split; [done|]. split.
    + destruct (semver_valid _) eqn:Hv; split; try done.
      * apply normalized_refl.
      * simpl. by apply normalized_write.
    + intros d. rewrite in_pluginMap_push. split.
      * intros [->|?]; [by right|by left].
      * intros [?|[-> _]]; [by right|by left].
Qed.

Lemma group_frame_trans (w1 w2 w3 : World St) :
  group_frame w1 w2 → group_frame w2 w3 → group_frame w1 w3.
Proof.
  intros [] []. split; try congruence. by eapply normalized_trans.
Qed.

Lemma foldM_groupPlugin (whitelistMode : bool) (names : list string)
    (pluginMap : list (string * list Descriptor)) (plugins : list Descriptor)
    (w : World St) :
  ∃ pluginMap' w',
    foldM (groupPlugin whitelistMode names) pluginMap plugins w = (Ok pluginMap', w')
    ∧ group_frame w w'
    ∧ ∀ d, in_pluginMap d pluginMap' ↔
           in_pluginMap d pluginMap
           ∨ (d ∈ plugins ∧ skipped whitelistMode names (heap w) d = false).
Proof.
  revert pluginMap w. induction plugins as [|p plugins IH]; intros pluginMap w.
  - exists pluginMap, w. split; [done|]. split.
    + split; try done. apply normalized_refl.
    + intros d. split; [by left|]. intros [?|[[]%elem_of_nil _]]. done.
  - rewrite foldM_cons.
    destruct (groupPlugin_spec whitelistMode names pluginMap p w)
      as (pm1 & w1 & -> & F1 & H1).
    destruct (IH pm1 w1) as (pm2 & w2 & -> & F2 & H2).
    exists pm2, w2. split; [done|]. split; [by eapply group_frame_trans|].
    intros d. rewrite H2, H1, (skipped_normalized _ _ (heap w) (heap w1)) by apply F1.
    rewrite elem_of_cons. split.
    + intros [[?|[-> ?]]|[? ?]];
        [by left|right; split; [by left|done]|right; split; [by right|done]].
    + intros [?|[[->|?] ?]]; [left; by left|left; by right|by right].
Qed.

Lemma read_message_run (e : Exn) (w : World St) :
  read_message e w
  = match e with
    | Error _ m => (Ok m, w)
    | Thrown v =>
        if is_nullish v
        then (Throw (Error "TypeError" (nullish_read_message "message" v)), w)
        else (Ok "undefined", w)
    end.
Proof. destruct e as [n m|v]; [done|]. unfold read_message. by destruct (is_nullish v). Qed.

Lemma read_message_some (e : Exn) (message : string) (w : World St) :
  exn_message e = Some message → read_message e w = (Ok message, w).
Proof.
  rewrite read_message_run. destruct e as [n m|v]; simpl.
  - by intros [= ->].
  - destruct (is_nullish v); [done|]. by intros [= <-].
Qed.

Lemma tryLoad_run (p : Descriptor) (w : World St) :
  tryLoad p w
  = match loadPlugin (path p) (ext w) with
    | (Ok _, s) =>
        (Ok true, mkWorld s (whitelistedModuleFolders w) (heap w) (logged w)
                    (calls w ++ [CLoadPlugin (path p)]))
    | (Throw e, s) =>
        match read_message e
                (mkWorld s (whitelistedModuleFolders w) (heap w) (logged w)
                   (calls w ++ [CLoadPlugin (path p)])) with
        | (Ok message, w') =>
            (Ok false, mkWorld (ext w') (whitelistedModuleFolders w') (heap w')
                         (logged w' ++ [load_error p message]) (calls w'))
        | (Throw e', w') => (Throw e', w')
        end
    end.
Proof.
  unfold tryLoad, try_catch, bind at 1, call.
  destruct (loadPlugin (path p) (ext w)) as [[[]|e] s]; [done|]. simpl.
  unfold bind at 1. by destruct (read_message e _) as [[message|e'] w'].
Qed.

Lemma loadFirst_cons (p : Descriptor) (rest : list Descriptor) (w : World St) :
  loadFirst (p :: rest) w
  = match tryLoad p w with
    | (Ok true, w') => (Ok true, w')
    | (Ok false, w') => loadFirst rest w'
    | (Throw e, w') => (Throw e, w')
    end.
Proof.
  simpl. unfold bind, ret. by destruct (tryLoad p w) as [[[|]|e] w'].
Qed.

Lemma loadFirst_all_fail (l : list Descriptor) (w : World St)
    (messages : list string) (s1 : St) :
  load_failures l (ext w) = Some (messages, s1) →
  loadFirst l w
  = (Ok false, mkWorld s1 (whitelistedModuleFolders w) (heap w)
                 (logged w ++ zip_with load_error l messages)
                 (calls w ++ map (λ d, CLoadPlugin (path d)) l)).
Proof.
  revert w messages. induction l as [|p l IH]; intros w messages Hf.
  - injection Hf as <- <-. simpl. unfold ret. rewrite !app_nil_r. by destruct w.
  - rewrite loadFirst_cons, tryLoad_run. simpl in Hf.
    destruct (loadPlugin (path p) (ext w)) as [[[]|e] s]; [done|].
    destruct (exn_message e) as [message|] eqn:He; [|done].
    destruct (load_failures l s) as [[ms' s']|] eqn:Hl; [|done].
    injection Hf as <- <-.
    rewrite (read_message_some e message _ He). simpl.
    erewrite IH by (simpl; exact Hl). simpl. by rewrite <- !app_assoc.
Qed.

Lemma loadFirst_first_success (pre post : list Descriptor) (p : Descriptor)
    (w : World St) (messages : list string) (s1 s2 : St) :
  load_failures pre (ext w) = Some (messages, s1) →
  loadPlugin (path p) s1 = (Ok tt, s2) →
  loadFirst (pre ++ p :: post) w
  = (Ok true, mkWorld s2 (whitelistedModuleFolders w) (heap w)
                (logged w ++ zip_with load_error pre messages)
                (calls w ++ map (λ d, CLoadPlugin (path d)) (pre ++ [p]))).
Proof.
  revert w messages. induction pre as [|q pre IH]; intros w messages Hf Hp.
  - injection Hf as <- <-. simpl app. rewrite loadFirst_cons, tryLoad_run, Hp.
    simpl. by rewrite app_nil_r.
  - simpl app. rewrite loadFirst_cons, tryLoad_run. simpl in Hf.
    destruct (loadPlugin (path q) (ext w)) as [[[]|e] s]; [done|].
    destruct (exn_message e) as [message|] eqn:He; [|done].
    destruct (load_failures pre s) as [[ms' s']|] eqn:Hl; [|done].
    injection Hf as <- <-.
    rewrite (read_message_some e message _ He). simpl.
    erewrite IH; [|simpl; exact Hl|exact Hp]. simpl. by rewrite <- !app_assoc.
Qed.

(** A load that throws [null] or [undefined] ends the loop with the
    TypeError of the [catch] block; nothing is logged for it and no later
    candidate is attempted. *)
Lemma loadFirst_nullish (pre post : list Descriptor) (p : Descriptor)
    (w : World St) (messages : list string) (s1 s2 : St) (v : value) :
  load_failures pre (ext w) = Some (messages, s1) →
  loadPlugin (path p) s1 = (Throw (Thrown v), s2) →
  is_nullish v = true →
  loadFirst (pre ++ p :: post) w
  = (Throw (Error "TypeError" (nullish_read_message "message" v)),
     mkWorld s2 (whitelistedModuleFolders w) (heap w)
       (logged w ++ zip_with load_error pre messages)
       (calls w ++ map (λ d, CLoadPlugin (path d)) (pre ++ [p]))).
Proof.
  revert w messages. induction pre as [|q pre IH]; intros w messages Hf Hp Hv.
  - injection Hf as <- <-. simpl app. rewrite loadFirst_cons, tryLoad_run, Hp.
    rewrite read_message_run, Hv. simpl. by rewrite app_nil_r.
  - simpl app. rewrite loadFirst_cons, tryLoad_run. simpl in Hf.
    destruct (loadPlugin (path q) (ext w)) as [[[]|e] s]; [done|].
    destruct (exn_message e) as [message|] eqn:He; [|done].
    destruct (load_failures pre s) as [[ms' s']|] eqn:Hl; [|done].
    injection Hf as <- <-.
    rewrite (read_message_some e message _ He). simpl.
    erewrite IH; [|simpl; exact Hl|exact Hp|exact Hv]. simpl. by rewrite <- !app_assoc.
Qed.

Lemma load_frame_refl (w : World St) : load_frame w w [].
Proof. split; try done. simpl. by rewrite app_nil_r. Qed.

Lemma load_frame_trans (w1 w2 w3 : World St) (a1 a2 : list Descriptor) :
  load_frame w1 w2 a1 → load_frame w2 w3 a2 → load_frame w1 w3 (a1 ++ a2).
Proof.
  intros [? ? H1] [? ? H2]. split; try congruence.
  by rewrite H2, H1, map_app, app_assoc.
Qed.

Lemma tryLoad_frame (p : Descriptor) (w : World St) :
  load_frame w (snd (tryLoad p w)) [p].
Proof.
  rewrite tryLoad_run.
  destruct (loadPlugin (path p) (ext w)) as [[[]|e] s].
  - split; simpl; try done. unfold load_calls. by rewrite omap_app.
  - rewrite read_message_run.
    destruct e as [n m|v]; [|destruct (is_nullish v)]; simpl;
      (split; simpl; try done; unfold load_calls; by rewrite omap_app).
Qed.

Lemma loadFirst_spec (l : list Descriptor) (w : World St) :
  ∃ r w' k, loadFirst l w = (r, w') ∧ load_frame w w' (take k l).
Proof.
  revert w. induction l as [|p l IH]; intros w.
  - exists (Ok false), w, 0%nat. split; [done|]. apply load_frame_refl.
  - rewrite loadFirst_cons. pose proof (tryLoad_frame p w) as F1.
    destruct (tryLoad p w) as [[[|]|e] w1]; simpl in F1.
    + by exists (Ok true), w1, 1%nat.
    + destruct (IH w1) as (r & w' & k & -> & F2).
      exists r, w', (S k). split; [done|].
      apply (load_frame_trans _ _ _ [p] (take k l) F1 F2).
    + by exists (Throw e), w1, 1%nat.
Qed.

Lemma insert_by_Permutation {A : Type} (cmp : A → A → option Z) (x : A)
    (l r : list A) :
  insert_by cmp x l = Some r → r ≡ₚ x :: l.
Proof.
  revert r. induction l as [|y l IH]; intros r; simpl.
  - by intros [= <-].
  - destruct (cmp x y) as [c|]; [|done]. destruct (c <=? 0); [by intros [= <-]|].
    destruct (insert_by cmp x l) as [r'|]; [|done]. intros [= <-].
    rewrite (IH r' eq_refl). apply Permutation_swap.
Qed.

Lemma sort_by_Permutation {A : Type} (cmp : A → A → option Z) (l r : list A) :
  sort_by cmp l = Some r → r ≡ₚ l.
Proof.
  revert r. induction l as [|x l IH]; intros r; simpl.
  - by intros [= <-].
  - destruct (sort_by cmp l) as [r'|]; [|done]. intros Hins.
    rewrite (insert_by_Permutation _ _ _ _ Hins). by rewrite (IH r' eq_refl).
Qed.

Lemma sortPluginSet_run (pluginSet : list Descriptor) (w : World St) :
  sortPluginSet pluginSet w
  = match sort_by (compareVersions (heap w)) pluginSet with
    | Some sorted => (Ok sorted, w)
    | None => (Throw (Error "TypeError" "Invalid Version"), w)
    end.
Proof.
  unfold sortPluginSet, bind, get_heap, ret, throw.
  by destruct (sort_by _ _).
Qed.

Lemma loadPluginSet_run (n : nat) (entry : string * list Descriptor) (w : World St) :
  loadPluginSet n entry w
  = match sort_by (compareVersions (heap w)) (snd entry) with
    | Some sorted =>
        match loadFirst sorted w with
        | (Ok true, w') => (Ok (n + 1)%nat, w')
        | (Ok false, w') => (Ok n, w')
        | (Throw e, w') => (Throw e, w')
        end
    | None => (Throw (Error "TypeError" "Invalid Version"), w)
    end.
Proof.
  unfold loadPluginSet, bind at 1. rewrite sortPluginSet_run.
  destruct (sort_by _ _) as [sorted|]; [|done].
  unfold bind, ret. by destruct (loadFirst sorted w) as [[[|]|e] w'].
Qed.

Lemma loadPluginSet_spec (n : nat) (entry : string * list Descriptor) (w : World St) :
  ∃ r w' attempted,
    loadPluginSet n entry w = (r, w') ∧ load_frame w w' attempted
    ∧ attempted ⊆ snd entry
    ∧ ∀ n', r = Ok n' → n' = n ∨ n' = (n + 1)%nat.
Proof.
  rewrite loadPluginSet_run.
  destruct (sort_by _ _) as [sorted|] eqn:Hsort.
  - destruct (loadFirst_spec sorted w) as (r & w' & k & -> & F).
    assert (Hsub : take k sorted ⊆ snd entry).
    { intros d Hd. apply (subseteq_take k sorted) in Hd.
      by rewrite (sort_by_Permutation _ _ _ Hsort) in Hd. }
    destruct r as [[|]|e]; eexists _, w', (take k sorted);
      (split; [reflexivity|]); (split; [done|]); (split; [done|]).
    + intros n' [= <-]. by right.
    + intros n' [= <-]. by left.
    + done.
  - exists (Throw (Error "TypeError" "Invalid Version")), w, [].
    split; [done|]. split; [apply load_frame_refl|]. split; [|done].
    intros d Hd. by apply elem_of_nil in Hd.
Qed.

Lemma foldM_loadPluginSet (n : nat) (pluginMap : list (string * list Descriptor))
    (w : World St) :
  ∃ r w' attempted,
    foldM loadPluginSet n pluginMap w = (r, w') ∧ load_frame w w' attempted
    ∧ ∀ d, d ∈ attempted → in_pluginMap d pluginMap.
Proof.
  revert n w. induction pluginMap as [|[k ps] pluginMap IH]; intros n w.
  - exists (Ok n), w, []. split; [done|]. split; [apply load_frame_refl|].
    intros d Hd. by apply elem_of_nil in Hd.
  - rewrite foldM_cons.
    destruct (loadPluginSet_spec n (k, ps) w) as (r & w1 & a1 & -> & F1 & Hsub & _).
    destruct r as [n1|e].
    + destruct (IH n1 w1) as (r & w2 & a2 & -> & F2 & Hin).
      exists r, w2, (a1 ++ a2). split; [done|].
      split; [by eapply load_frame_trans|].
      intros d [Hd|Hd]%elem_of_app.
      * exists k, ps. split; [left|by apply Hsub].
      * destruct (Hin d Hd) as (k' & ps' & Hk' & Hd'). exists k', ps'.
        split; [by right|done].
    + exists (Throw e), w1, a1. split; [done|]. split; [done|].
      intros d Hd. exists k, ps. split; [left|by apply Hsub].
Qed.

(** ** The references of scanned descriptors *)

Lemma refs_valid_prefix (w w' : World St) (l : list Descriptor) :
  heap w `prefix_of` heap w' → refs_valid w l → refs_valid w' l.
Proof.
  intros Hpre Hl d Hd. apply prefix_length in Hpre. specialize (Hl d Hd). lia.
Qed.

Lemma checkIfPathDirectory_heap (p : string) (w : World St) :
  heap (snd (checkIfPathDirectory p w)) = heap w.
Proof.
  unfold checkIfPathDirectory, try_catch, call, bind, log, ret.
  by destruct (statSync_isDirectory p (ext w)) as [[b|e] s].
Qed.

Lemma filterM_checkIfPathDirectory_heap (l : list string) (w : World St) :
  heap (snd (filterM checkIfPathDirectory l w)) = heap w.
Proof.
  revert w. induction l as [|p l IH]; intros w; [done|].
  simpl. unfold bind at 1.
  pose proof (checkIfPathDirectory_heap p w) as H1.
  destruct (checkIfPathDirectory p w) as [[b|e] w1]; simpl in *; [|done].
  unfold bind, ret. pose proof (IH w1) as H2.
  destruct (filterM checkIfPathDirectory l w1) as [[r|e] w2]; simpl in *; congruence.
Qed.

Lemma verifyPluginAtPath_heap (p : string) (w : World St) :
  heap w `prefix_of` heap (snd (verifyPluginAtPath p w))
  ∧ ∀ d, fst (verifyPluginAtPath p w) = Ok (Some d) →
      (metadata d < length (heap (snd (verifyPluginAtPath p w))))%nat.
Proof.
  unfold verifyPluginAtPath, try_catch, call, bind, log, ret, alloc.
  destruct (getPluginMetadata p (ext w)) as [[m|e] s]; simpl; [|done].
  destruct (checkPluginCompatibility m s) as [[c|e] s']; simpl.
  - destruct (truthy (message c)); simpl; (split; [by apply prefix_app_r|]);
      intros d; destruct (truthy (compatible c)); intros [= <-]; simpl;
      rewrite length_app; simpl; lia.
  - split; [by apply prefix_app_r|done].
Qed.

Lemma foldM_pushIfPlugin_heap (plugins : list Descriptor) (l : list string)
    (w : World St) :
  refs_valid w plugins →
  heap w `prefix_of` heap (snd (foldM pushIfPlugin plugins l w))
  ∧ ∀ found, fst (foldM pushIfPlugin plugins l w) = Ok found →
      refs_valid (snd (foldM pushIfPlugin plugins l w)) found.
Proof.
  revert plugins w. induction l as [|p l IH]; intros plugins w Hv.
  - simpl. split; [done|]. by intros found [= <-].
  - rewrite foldM_cons, pushIfPlugin_run.
    destruct (verifyPluginAtPath_heap p w) as [Hpre Hd].
    destruct (verifyPluginAtPath p w) as [[[d|]|e] w1]; simpl in *.
    + destruct (IH (plugins ++ [d]) w1) as [Hpre' Hf].
      { intros d' [Hd'|Hd']%elem_of_app.
        - by apply (refs_valid_prefix w w1 plugins).
        - apply list_elem_of_singleton in Hd' as ->. by apply Hd. }
      split; [by etrans|done].
    + destruct (IH plugins w1) as [Hpre' Hf].
      { by apply (refs_valid_prefix w w1 plugins). }
      split; [by etrans|done].
    + split; [done|]. discriminate.
Qed.

Lemma listPluginsInDirectory_heap (directory : string) (w : World St) :
  heap w `prefix_of` heap (snd (listPluginsInDirectory directory w))
  ∧ ∀ found, fst (listPluginsInDirectory directory w) = Ok found →
      refs_valid (snd (listPluginsInDirectory directory w)) found.
Proof.
  rewrite listPluginsInDirectory_run.
  pose proof (checkIfPathDirectory_heap (resolve cwd directory) w) as H0.
  destruct (checkIfPathDirectory (resolve cwd directory) w) as [[[|]|e] w1];
    simpl in H0.
  - destruct (verifyPluginAtPath_heap (resolve cwd directory) w1) as [H1 Hd].
    rewrite H0 in H1.
    destruct (verifyPluginAtPath (resolve cwd directory) w1) as [[[d|]|e] w2];
      simpl in *.
    + split; [done|]. intros found [= <-] d' ->%list_elem_of_singleton. by apply Hd.
    + assert (H2 : heap (snd (call (CReaddirSync (resolve cwd directory))
                                (readdirSync (resolve cwd directory)) w2)) = heap w2).
      { unfold call. by destruct (readdirSync _ (ext w2)). }
      destruct (call _ _ w2) as [[children|e] w3]; simpl in H2.
      * pose proof (filterM_checkIfPathDirectory_heap
                      (map (resolve (resolve cwd directory)) children) w3) as H3.
        destruct (filterM checkIfPathDirectory _ w3) as [[dirs|e] w4]; simpl in H3.
        -- destruct (foldM_pushIfPlugin_heap [] dirs w4) as [H4 Hf].
           { intros d []%elem_of_nil. }
           split; [|done]. etrans; [exact H1|]. by rewrite <- H2, <- H3.
        -- simpl. split; [by rewrite H3, H2|discriminate].
      * simpl. split; [by rewrite H2|discriminate].
    + split; [done|discriminate].
  - simpl. split; [by rewrite H0|]. intros found [= <-] d []%elem_of_nil.
  - simpl. split; [by rewrite H0|discriminate].
Qed.

Lemma scanFolder_run (allPlugins : list Descriptor) (f : string) (w : World St) :
  scanFolder allPlugins f w
  = match listPluginsInDirectory f
            (mkWorld (ext w) (whitelistedModuleFolders w ++ [f]) (heap w)
               (logged w) (calls w)) with
    | (Ok found, w1) =>
        (Ok (allPlugins ++ found),
         if bool_decide (length allPlugins = length (allPlugins ++ found))
         then mkWorld (ext w1) (whitelistedModuleFolders w1) (heap w1)
                (logged w1 ++ [mkLog LevelWarn
                   [AStr ("No viable plugins were found in '" +:+ f +:+ "'")]])
                (calls w1)
         else w1)
    | (Throw e, w1) =>
        (Ok allPlugins,
         mkWorld (ext w1) (whitelistedModuleFolders w1) (heap w1)
           (logged w1 ++ [mkLog LevelError
              [AStr ("Error processing plugin directory %s" +:+ line_feed);
               AStr f; AExn e]])
           (calls w1))
    end.
Proof.
  unfold scanFolder, bind at 1, whitelist_push, try_catch, bind at 1.
  destruct (listPluginsInDirectory f _) as [[found|e] w1]; [|done].
  unfold bind, ret, log. by destruct (bool_decide _).
Qed.

Lemma scanFolder_heap (allPlugins : list Descriptor) (f : string) (w : World St) :
  refs_valid w allPlugins →
  heap w `prefix_of` heap (snd (scanFolder allPlugins f w))
  ∧ ∀ found, fst (scanFolder allPlugins f w) = Ok found →
      refs_valid (snd (scanFolder allPlugins f w)) found.
Proof.
  intros Hv. rewrite scanFolder_run.
  destruct (listPluginsInDirectory_heap f
              (mkWorld (ext w) (whitelistedModuleFolders w ++ [f]) (heap w)
                 (logged w) (calls w))) as [Hpre Hf].
  destruct (listPluginsInDirectory f _) as [[found|e] w1]; simpl in Hpre, Hf.
  - assert (Hall : refs_valid w1 (allPlugins ++ found)).
    { intros d [Hd|Hd]%elem_of_app; [|by apply (Hf found)].
      specialize (Hv d Hd). apply prefix_length in Hpre. simpl in *. lia. }
    destruct (bool_decide _); simpl; (split; [done|]);
      intros ? Heq; injection Heq as <-; exact Hall.
  - simpl. split; [done|]. intros ? Heq. injection Heq as <-.
    intros d Hd. specialize (Hv d Hd). apply prefix_length in Hpre. simpl in *. lia.
Qed.

(** The descriptors of a scan refer to objects of the heap the scan
    leaves. *)
Lemma scan_refs_valid (folders : folders_arg) (w : World St) :
  ∀ plugins, fst (scanPluginDirectories folders w) = Ok plugins →
    refs_valid (snd (scanPluginDirectories folders w)) plugins.
Proof.
  unfold scanPluginDirectories.
  assert (H : ∀ l allPlugins (w0 : World St), refs_valid w0 allPlugins →
            ∀ plugins, fst (foldM scanFolder allPlugins l w0) = Ok plugins →
              refs_valid (snd (foldM scanFolder allPlugins l w0)) plugins).
  { induction l as [|f l IH]; intros allPlugins w0 Hv plugins.
    - simpl. by intros [= <-].
    - rewrite foldM_cons. destruct (scanFolder_heap allPlugins f w0 Hv) as [_ Hf].
      destruct (scanFolder allPlugins f w0) as [[all'|e] w1]; simpl in Hf; [|done].
      apply IH. by apply Hf. }
  apply H. intros d []%elem_of_nil.
Qed.

(** ** Grouping by name *)






End Properties.

(** ** The absence of exceptions

    What the resolver needs of the semver package: the sentinel is a valid
    version, and two valid versions can be compared.  And what it needs of
    the plugins: a load that throws, throws a value whose [message] can be
    read (anything but [null] and [undefined]). *)

Section Totality.
Context {St : Type} `{!Collaborators St}.
Hypothesis sentinel_valid : semver_valid (VStr "0.0.0") = true.
Hypothesis valid_rcompare :
  ∀ a b, semver_valid a = true → semver_valid b = true →
         is_Some (semver_rcompare a b).
Hypothesis loads_have_messages :
  ∀ p s e s', loadPlugin p s = (Throw e, s') → is_Some (exn_message e).

Lemma normalized_valid (h h' : list (gmap string value)) (r : nat) :
  normalized h h' →
  semver_valid (get (h !!! r) "version") = true →
  semver_valid (get (h' !!! r) "version") = true.
Proof.
  intros [_ H] Hv. destruct (H r) as [->|[_ ->]]; [done|].
  unfold get. rewrite lookup_insert_eq. apply sentinel_valid.
Qed.

Lemma groupPlugin_valid (whitelistMode : bool) (names : list string)
    (pluginMap : list (string * list Descriptor)) (p : Descriptor) (w : World St) :
  (metadata p < length (heap w))%nat →
  versions_valid (heap w) pluginMap →
  versions_valid (heap (snd (groupPlugin whitelistMode names pluginMap p w)))
    (match fst (groupPlugin whitelistMode names pluginMap p w) with
     | Ok pluginMap' => pluginMap'
     | Throw _ => []
     end).
Proof.
  intros Href Hv. rewrite groupPlugin_run.
  destruct (skipped _ _ _ _); [done|]. simpl.
  intros d [->|Hd]%in_pluginMap_push.
  - destruct (semver_valid (get (heap w !!! metadata p) "version")) eqn:Hp; [done|].
    simpl. rewrite list_lookup_total_insert_eq by done.
    unfold get. rewrite lookup_insert_eq. apply sentinel_valid.
  - destruct (semver_valid (get (heap w !!! metadata p) "version")) eqn:Hp;
      [by apply Hv|].
    simpl. apply (normalized_valid (heap w)); [by apply normalized_write|by apply Hv].
Qed.

Lemma foldM_groupPlugin_valid (whitelistMode : bool) (names : list string)
    (pluginMap : list (string * list Descriptor)) (plugins : list Descriptor)
    (w : World St) :
  refs_valid w plugins →
  versions_valid (heap w) pluginMap →
  ∃ pluginMap' w',
    foldM (groupPlugin whitelistMode names) pluginMap plugins w = (Ok pluginMap', w')
    ∧ versions_valid (heap w') pluginMap'.
Proof.
  revert pluginMap w. induction plugins as [|p plugins IH]; intros pluginMap w Hr Hv.
  - by exists pluginMap, w.
  - rewrite foldM_cons.
    pose proof (groupPlugin_valid whitelistMode names pluginMap p w
                  (Hr p ltac:(left)) Hv) as Hv1.
    destruct (groupPlugin_spec whitelistMode names pluginMap p w)
      as (pm1 & w1 & Hrun & F1 & _).
    rewrite Hrun in Hv1 |- *. simpl in Hv1.
    apply IH; [|done].
    intros d Hd. rewrite (proj1 (gf_heap _ _ F1)). apply Hr. by right.
Qed.

Lemma insert_by_total {A : Type} (cmp : A → A → option Z) (x : A) (l : list A) :
  (∀ y, y ∈ l → is_Some (cmp x y)) → is_Some (insert_by cmp x l).
Proof.
  induction l as [|y l IH]; intros Hc; simpl; [by eexists|].
  destruct (Hc y ltac:(left)) as [c ->]. destruct (c <=? 0); [by eexists|].
  destruct IH as [r ->]; [|by eexists]. intros z Hz. apply Hc. by right.
Qed.

Lemma sort_by_total {A : Type} (cmp : A → A → option Z) (l : list A) :
  (∀ x y, x ∈ l → y ∈ l → is_Some (cmp x y)) → is_Some (sort_by cmp l).
Proof.
  induction l as [|x l IH]; intros Hc; simpl; [by eexists|].
  destruct IH as [r Hr].
  { intros y z Hy Hz. apply Hc; by right. }
  rewrite Hr. apply insert_by_total. intros y Hy.
  rewrite (sort_by_Permutation cmp l r Hr) in Hy. apply Hc; [left|by right].
Qed.

Lemma loadFirst_returns (l : list Descriptor) (w : World St) :
  ∃ loaded w', loadFirst l w = (Ok loaded, w') ∧ heap w' = heap w.
Proof.
  revert w. induction l as [|p l IH]; intros w.
  - by exists false, w.
  - rewrite loadFirst_cons, tryLoad_run.
    destruct (loadPlugin (path p) (ext w)) as [[[]|e] s] eqn:Hload.
    + by eexists true, _.
    + destruct (loads_have_messages _ _ _ _ Hload) as [message Hm].
      rewrite (read_message_some e message _ Hm). simpl.
      match goal with |- context [loadFirst l ?w0] =>
        destruct (IH w0) as (b & w' & -> & Hheap) end.
      by exists b, w'.
Qed.

Lemma loadPluginSet_returns (n : nat) (entry : string * list Descriptor)
    (w : World St) :
  (∀ d, d ∈ snd entry → semver_valid (get (heap w !!! metadata d) "version") = true) →
  ∃ n' w', loadPluginSet n entry w = (Ok n', w') ∧ heap w' = heap w.
Proof.
  intros Hv. rewrite loadPluginSet_run.
  destruct (sort_by_total (compareVersions (heap w)) (snd entry)) as [sorted ->].
  { intros x y Hx Hy. apply valid_rcompare; by apply Hv. }
  destruct (loadFirst_returns sorted w) as (b & w' & -> & Hheap).
  exists (if b then (n + 1)%nat else n), w'. split; [by destruct b|done].
Qed.

Lemma foldM_loadPluginSet_returns (n : nat)
    (pluginMap : list (string * list Descriptor)) (w : World St) :
  versions_valid (heap w) pluginMap →
  ∃ n' w', foldM loadPluginSet n pluginMap w = (Ok n', w').
Proof.
  revert n w. induction pluginMap as [|[k ps] pluginMap IH]; intros n w Hv.
  - by exists n, w.
  - rewrite foldM_cons.
    destruct (loadPluginSet_returns n (k, ps) w) as (n1 & w1 & -> & Hheap).
    { intros d Hd. apply Hv. exists k, ps. split; [left|done]. }
    apply IH. rewrite Hheap. intros d (k' & ps' & Hin & Hd).
    apply Hv. exists k', ps'. split; [by right|done].
Qed.

(** Grouping and loading return a count: the comparator is only ever
    applied to versions that parse, so the sort does not throw. *)
Lemma resolvePlugins_returns (argv : Argv) (plugins : list Descriptor)
    (w : World St) :
  refs_valid w plugins →
  ∃ n w', resolvePlugins argv plugins w = (Ok n, w').
Proof.
  intros Hr. unfold resolvePlugins, groupPlugins, loadPluginSets, bind.
  destruct (foldM_groupPlugin_valid (shouldWhiteList argv) (whiteListedNames argv)
              [] plugins w Hr) as (pm & w1 & -> & Hv).
  { intros d (k & ps & []%elem_of_nil & _). }
  by apply foldM_loadPluginSet_returns.
Qed.

Lemma scanPluginDirectories_returns (folders : folders_arg) (w : World St) :
  ∃ plugins w', scanPluginDirectories folders w = (Ok plugins, w').
Proof.
  unfold scanPluginDirectories.
  destruct (foldM_scanFolder [] (folders_list folders) w) as (found & w' & Hrun & _).
  by exists found, w'.
Qed.

(** Once the engine has started, the promise of [setupGenerator] is
    fulfilled or rejected for want of plugins; scanning and resolution
    raise nothing. *)
Lemma setupGenerator_after_start (argv : Argv) (w : World St) (s1 : St) :
  start (buildOptions argv) (ext w) = (Fulfilled, s1) →
  ∃ settled w',
    setupGenerator argv w = (Ok settled, w')
    ∧ (settled = Fulfilled
       ∨ settled = Rejected (Thrown (VStr zero_plugins_message))).
Proof.
  intros Hstart.
  unfold setupGenerator, bind at 1, call.
  rewrite Hstart. unfold onStarted, bind at 1.
  set (w1 := mkWorld _ _ _ _ _).
  pose proof (scan_refs_valid (pluginfolder argv) w1) as Hrefs.
  destruct (scanPluginDirectories_returns (pluginfolder argv) w1)
    as (plugins & w2 & Hscan).
  rewrite Hscan in Hrefs |- *. simpl in Hrefs.
  destruct (resolvePlugins_returns argv plugins w2 (Hrefs plugins eq_refl))
    as (n & w3 & Hres).
  unfold bind at 1. rewrite Hres.
  destruct (bool_decide (n = 0%nat)); unfold ret; eexists _, _; split; eauto.
Qed.

(** Once the engine has started, [init] leaves the process running or
    exits with -3. *)
Lemma init_after_start (argv : Argv) (w : World St) (s1 : St) :
  start (buildOptions argv) (ext w) = (Fulfilled, s1) →
  ∃ outcome w',
    init argv w = (Ok outcome, w') ∧ (outcome = Running ∨ outcome = Exited (-3)).
Proof.
  intros Hstart.
  destruct (setupGenerator_after_start argv w s1 Hstart)
    as (settled & w1 & Hsetup & [->| ->]);
    unfold init, try_catch, bind at 1; rewrite Hsetup.
  - unfold ret. eexists _, _. split; [reflexivity|by left].
  - unfold stop, bind, log, call, ret. simpl. eexists _, _.
    split; [reflexivity|by right].
Qed.

End Totality.

Section Sorting.
Context {A : Type} (cmp : A → A → option Z).
Hypothesis cmp_antisym : ∀ x y c, cmp x y = Some c → cmp y x = Some (- c).

Lemma insert_by_HdRel (x y : A) (l r : list A) :
  insert_by cmp x l = Some r → (in_order cmp) y x → HdRel (in_order cmp) y l →
  HdRel (in_order cmp) y r.
Proof.
  destruct l as [|z l]; simpl.
  - intros [= <-] Hyx _. by constructor.
  - destruct (cmp x z) as [c|]; [|done]. destruct (c <=? 0).
    + intros [= <-] Hyx _. by constructor.
    + destruct (insert_by cmp x l); [|done]. intros [= <-] _ Hyz.
      constructor. by inversion Hyz.
Qed.

Lemma insert_by_Sorted (x : A) (l r : list A) :
  Sorted (in_order cmp) l → insert_by cmp x l = Some r → Sorted (in_order cmp) r.
Proof.
  revert r. induction l as [|y l IH]; intros r Hs; simpl.
  - intros [= <-]. by repeat constructor.
  - destruct (cmp x y) as [c|] eqn:Hc; [|done].
    destruct (Z.leb_spec c 0) as [Hle|Hgt].
    + intros [= <-]. constructor; [done|]. constructor. by exists c.
    + destruct (insert_by cmp x l) as [r'|] eqn:Hins; [|done]. intros [= <-].
      inversion Hs as [|? ? Hs' Hhd]; subst. constructor; [by apply IH|].
      eapply insert_by_HdRel; [done| |done].
      exists (- c). split; [by apply cmp_antisym|lia].
Qed.

Lemma sort_by_Sorted (l r : list A) :
  sort_by cmp l = Some r → Sorted (in_order cmp) r.
Proof.
  revert r. induction l as [|x l IH]; intros r; simpl.
  - intros [= <-]. constructor.
  - destruct (sort_by cmp l) as [r'|]; [|done]. intros Hins.
    eapply insert_by_Sorted; [|done]. by apply IH.
Qed.

End Sorting.

(** ** Theorems on the module sandbox and the connection options *)

(** C2.  A path the patched [Module._nodeModulePaths] returns is one of
    the original candidates and has an entry of the whitelist, as it stands
    at the call, as a prefix; a candidate that no entry is a prefix of is
    not returned; and a path returned under a whitelist is still returned
    once more roots have been registered. *)
Theorem C2_only_whitelisted_prefixes {St : Type}
    (nodeModulePaths : string → list string) (w : World St)
    (from path : string) :
  (path ∈ Module_nodeModulePaths nodeModulePaths from w →
   path ∈ nodeModulePaths from
   ∧ ∃ p, p ∈ whitelistedModuleFolders w ∧ Sandbox.is_prefix p path)
  ∧ ((∀ p, p ∈ whitelistedModuleFolders w → ¬ Sandbox.is_prefix p path) →
     path ∉ Module_nodeModulePaths nodeModulePaths from w)
  ∧ (∀ w' : World St,
       whitelistedModuleFolders w ⊆ whitelistedModuleFolders w' →
       path ∈ Module_nodeModulePaths nodeModulePaths from w →
       path ∈ Module_nodeModulePaths nodeModulePaths from w').
Proof.
  unfold Module_nodeModulePaths, Sandbox.patched_nodeModulePaths.
  assert (Hin : ∀ whitelist,
            path ∈ List.filter (Sandbox.admits whitelist) (nodeModulePaths from)
            ↔ path ∈ nodeModulePaths from ∧ Sandbox.admits whitelist path = true).
  { intros whitelist. by rewrite list_elem_of_In, filter_In, <- list_elem_of_In. }
  split; [|split].
  - intros [Hpath Hadm]%Hin. split; [done|]. by apply SandboxFacts.admits_prefix.
  - intros Hnone [_ Hadm]%Hin.
    destruct (SandboxFacts.admits_prefix _ _ Hadm) as (p & Hp & Hpre).
    by apply (Hnone p).
  - intros w' Hsub [Hpath Hadm]%Hin. apply Hin. split; [done|].
    by apply (SandboxFacts.admits_mono (whitelistedModuleFolders w)).
Qed.

(** C10.  A candidate search path (never the empty string: Node's
    candidates end in [node_modules]) is returned exactly when some
    whitelist entry is a character-for-character prefix of it; nothing
    asks the match to end at a separator, so every candidate that extends
    a registered root by any characters is returned. *)
Theorem C10_prefix_without_separator_boundary
    (nodeModulePaths : string → list string) (whitelist : list string)
    (from path : string) :
  path ≠ "" →
  path ∈ nodeModulePaths from →
  (path ∈ Sandbox.patched_nodeModulePaths nodeModulePaths whitelist from
   ↔ ∃ p, p ∈ whitelist ∧ Sandbox.is_prefix p path)
  ∧ (∀ r extension, r ∈ whitelist → path = r +:+ extension →
       path ∈ Sandbox.patched_nodeModulePaths nodeModulePaths whitelist from).
Proof.
  intros Hne Hcand.
  assert (Hiff : path ∈ Sandbox.patched_nodeModulePaths nodeModulePaths whitelist from
                 ↔ ∃ p, p ∈ whitelist ∧ Sandbox.is_prefix p path).
  { unfold Sandbox.patched_nodeModulePaths.
    rewrite list_elem_of_In, filter_In, <- list_elem_of_In.
    rewrite (SandboxFacts.admits_iff whitelist path Hne). tauto. }
  split; [done|].
  intros r extension Hr Hext. apply Hiff. exists r. split; [done|]. by exists extension.
Qed.

(** C6, amended.  When [input] and [output] are both numbers or both
    strings, the options select the pipe transport with those handles, and
    the [password] property is present with the value [null], whatever
    password was supplied; no socket field is set. *)
Theorem C6_pipe_options_null_password (argv : Argv) :
  (typeof (input argv) = TNumber ∧ typeof (output argv) = TNumber)
  ∨ (typeof (input argv) = TString ∧ typeof (output argv) = TString) →
  selects_pipe (buildOptions argv)
  ∧ buildOptions argv !! "inputFd" = Some (input argv)
  ∧ buildOptions argv !! "outputFd" = Some (output argv)
  ∧ buildOptions argv !! "password" = Some VNull
  ∧ buildOptions argv !! "port" = None
  ∧ buildOptions argv !! "hostname" = None.
Proof.
  intros Hkind.
  assert (Ht : transportOptions argv
               = <["password" := VNull]>
                   (<["outputFd" := output argv]> (<["inputFd" := input argv]> ∅))).
  { unfold transportOptions.
    destruct Hkind as [[-> ->]|[-> ->]]; by rewrite ?orb_true_r. }
  assert (Hi : buildOptions argv !! "inputFd" = Some (input argv)).
  { rewrite buildOptions_transport, Ht by (repeat first [by left | right]). by simplify_map_eq. }
  assert (Ho : buildOptions argv !! "outputFd" = Some (output argv)).
  { rewrite buildOptions_transport, Ht by (repeat first [by left | right]). by simplify_map_eq. }
  split; [split; by eexists|].
  split; [done|]. split; [done|].
  repeat split; rewrite buildOptions_transport, Ht by (repeat first [by left | right]); by simplify_map_eq.
Qed.

(** ** Theorems on the resolver and the lifecycle *)

Section ResolverTheorems.
Context {St : Type} `{!Collaborators St}.

(** X24.  Let [semver.rcompare] be a consistent comparator (swapping its
    arguments negates the result, and being in order is transitive).  For
    a group whose array, once sorted by the comparator of line 328, is
    [pre ++ p :: post], with the loads of [pre] all throwing values whose
    message can be read (anything but [null] and [undefined]) and the load
    of [p] succeeding: the sorted array is a permutation of the group in
    which every element is in order before all that follow it (descending
    versions); the calls of [loadPlugin] are those of [pre] then [p], in
    that order, and none for [post]; each failure is logged with the path
    and the message; the count grows by exactly one. *)
Theorem first_success_wins (n : nat) (key : string)
    (pluginSet sorted pre post : list Descriptor) (p : Descriptor)
    (w : World St) (messages : list string) (s1 s2 : St) :
  (∀ a b c, semver_rcompare a b = Some c → semver_rcompare b a = Some (- c)) →
  (∀ a b c, in_order semver_rcompare a b → in_order semver_rcompare b c →
            in_order semver_rcompare a c) →
  sort_by (compareVersions (heap w)) pluginSet = Some sorted →
  sorted = pre ++ p :: post →
  load_failures pre (ext w) = Some (messages, s1) →
  loadPlugin (path p) s1 = (Ok tt, s2) →
  sorted ≡ₚ pluginSet
  ∧ StronglySorted (in_order (compareVersions (heap w))) sorted
  ∧ loadPluginSet n (key, pluginSet) w
    = (Ok (n + 1)%nat,
       mkWorld s2 (whitelistedModuleFolders w) (heap w)
         (logged w ++ zip_with load_error pre messages)
         (calls w ++ map (λ d, CLoadPlugin (path d)) (pre ++ [p]))).
Proof.
  intros Hanti Htrans Hsort -> Hfail Hok.
  split; [by eapply sort_by_Permutation|]. split.
  - apply Sorted_StronglySorted.
    + intros x y z. apply Htrans.
    + eapply sort_by_Sorted; [|done].
      intros x y c. apply Hanti.
  - rewrite loadPluginSet_run. simpl snd. rewrite Hsort.
    by rewrite (loadFirst_first_success pre post p w messages s1 s2 Hfail Hok).
Qed.

(** C3.  When the engine has started and the count after all groups is
    zero, the promise of [setupGenerator] is rejected with the message
    that zero plugins were loaded, and [init] logs it and exits with code
    -3.  That code is the one of every initialization failure (a rejected
    [start] gives it too) and differs from the 0 of a close and the -1 of
    an uncaught exception. *)
Theorem C3_zero_plugins_is_fatal (argv : Argv) (w : World St) (s1 : St)
    (plugins : list Descriptor) (w2 w3 : World St) :
  start (buildOptions argv) (ext w) = (Fulfilled, s1) →
  scanPluginDirectories (pluginfolder argv)
    (mkWorld s1 (whitelistedModuleFolders w) (heap w) (logged w)
       (calls w ++ [CStart (buildOptions argv)])) = (Ok plugins, w2) →
  resolvePlugins argv plugins w2 = (Ok 0%nat, w3) →
  setupGenerator argv w
  = (Ok (Rejected (Thrown (VStr
       "Generator requires at least one plugin to function, zero were loaded."))), w3)
  ∧ init argv w
    = (Ok (Exited (-3)),
       mkWorld (shutdown (ext w3)) (whitelistedModuleFolders w3) (heap w3)
         (logged w3 ++ [mkLog LevelError [AStr
            ("Exiting with code -3: Generator failed to initialize: "
             +:+ "Generator requires at least one plugin to function, zero were loaded.")]])
         (calls w3 ++ [CShutdown]))
  ∧ (∀ (w0 : World St) (err : Exn) (s : St),
       start (buildOptions argv) (ext w0) = (Rejected err, s) →
       fst (init argv w0) = Ok (Exited (-3)))
  ∧ (∀ w0 : World St, fst (onClose w0) = Ok (Exited 0))
  ∧ (∀ (err : Exn) (w0 : World St), fst (onUncaughtException err w0) = Ok (Exited (-1))).
Proof.
  intros Hstart Hscan Hres.
  assert (Hsetup : setupGenerator argv w
                   = (Ok (Rejected (Thrown (VStr zero_plugins_message))), w3)).
  { unfold setupGenerator, bind at 1, call. rewrite Hstart.
    unfold onStarted, bind at 1. rewrite Hscan. unfold bind at 1. rewrite Hres.
    done. }
  split; [done|]. split.
  - unfold init, try_catch, bind at 1. rewrite Hsetup.
    unfold stop, bind, log, call, ret. simpl. done.
  - split; [|split].
    + intros w0 err s Hrej.
      unfold init, try_catch, bind at 1, setupGenerator, bind at 1, call.
      rewrite Hrej. unfold ret, stop, bind, log, call, ret. simpl. done.
    + intros w0. done.
    + intros err w0. unfold onUncaughtException, stop, bind, log, call, ret.
      by destruct err as [? ?|v]; [|destruct (truthy v)].
Qed.

(** C4, amended.  A descriptor that passes the whitelist test and whose
    version is no semantic version gets the version ["0.0.0"] (its other
    properties stay) and is put in its group.  The sentinel compares as
    the version 0.0.0: after every valid version with a non-zero major,
    minor or patch, level with a valid 0.0.0, and before the valid
    prereleases of 0.0.0. *)
Theorem C4_invalid_version_becomes_sentinel (whitelistMode : bool)
    (names : list string) (pluginMap : list (string * list Descriptor))
    (p : Descriptor) (w : World St) :
  (metadata p < length (heap w))%nat →
  skipped whitelistMode names (heap w) p = false →
  semver_valid (get (heap w !!! metadata p) "version") = false →
  (∃ pluginMap' w',
     groupPlugin whitelistMode names pluginMap p w = (Ok pluginMap', w')
     ∧ in_pluginMap p pluginMap'
     ∧ get (heap w' !!! metadata p) "version" = VStr "0.0.0"
     ∧ ∀ k, k ≠ "version" →
         (heap w' !!! metadata p) !! k = (heap w !!! metadata p) !! k)
  ∧ ∀ (s : string) (v : Semver.SemVer),
      Semver.parse s = Some v →
      ((Semver.major v, Semver.minor v, Semver.patch v) ≠ (0, 0, 0)%N →
       Semver.rcompare (VStr "0.0.0") (VStr s) = Some 1)
      ∧ ((Semver.major v, Semver.minor v, Semver.patch v) = (0, 0, 0)%N →
         Semver.prerelease v = [] →
         Semver.rcompare (VStr "0.0.0") (VStr s) = Some 0)
      ∧ ((Semver.major v, Semver.minor v, Semver.patch v) = (0, 0, 0)%N →
         Semver.prerelease v ≠ [] →
         Semver.rcompare (VStr "0.0.0") (VStr s) = Some (-1)).
Proof.
  intros Href Hskip Hinvalid. split.
  - rewrite groupPlugin_run, Hskip, Hinvalid. eexists _, _. split; [done|].
    split; [apply in_pluginMap_push; by left|]. simpl.
    rewrite list_lookup_total_insert_eq by done. split.
    + unfold get. by rewrite lookup_insert_eq.
    + intros k Hk. by rewrite lookup_insert_ne.
  - intros s v Hparse.
    assert (Hcmp : Semver.rcompare (VStr "0.0.0") (VStr s)
                   = Some (Semver.compare v (Semver.mkSemVer 0 0 0 [] []))).
    { simpl. by rewrite Hparse. }
    rewrite Hcmp. destruct v as [ma mi pa pre bld]. simpl.
    unfold Semver.compare, Semver.compareMain, Semver.comparePre, Semver.compareN,
      Semver.or_else. simpl.
    split; [|split].
    + intros Hne. destruct ma, mi, pa; simpl; try done.
    + intros [= -> -> ->] ->. done.
    + intros [= -> -> ->] Hpre. by destruct pre.
Qed.

(** C5.  In whitelist mode, a descriptor whose name equals none of the
    trimmed entries of the comma-separated list is in no array of
    [pluginMap], and the calls of [loadPlugin] made afterwards are those of
    a list of descriptors, all from [pluginMap], that does not contain
    it. *)
Theorem C5_whitelist_excludes_before_grouping (argv : Argv) (names : string)
    (plugins : list Descriptor) (p : Descriptor) (w : World St) :
  whiteListedPlugins argv = VStr names →
  (∀ entry, entry ∈ split_on "," names →
     get (heap w !!! metadata p) "name" ≠ VStr (trim entry)) →
  ∃ pluginMap w1,
    groupPlugins argv plugins w = (Ok pluginMap, w1)
    ∧ ¬ in_pluginMap p pluginMap
    ∧ ∃ r w2 attempted,
        loadPluginSets pluginMap w1 = (r, w2)
        ∧ load_calls (calls w2) = load_calls (calls w) ++ map path attempted
        ∧ (∀ d, d ∈ attempted → in_pluginMap d pluginMap)
        ∧ p ∉ attempted.
Proof.
  intros Hlist Hname.
  assert (Hskip : skipped (shouldWhiteList argv) (whiteListedNames argv) (heap w) p = true).
  { unfold skipped, shouldWhiteList, whiteListedNames. rewrite Hlist. simpl.
    apply bool_decide_eq_true, indexOf_minus_one.
    intros s (entry & -> & Hentry)%elem_of_map. by apply Hname. }
  unfold groupPlugins.
  destruct (foldM_groupPlugin (shouldWhiteList argv) (whiteListedNames argv) [] plugins w)
    as (pluginMap & w1 & Hrun & F & Hin).
  exists pluginMap, w1. split; [done|].
  assert (Hnot : ¬ in_pluginMap p pluginMap).
  { rewrite Hin. intros [(k & ps & []%elem_of_nil & _)|[_ Hp]]. congruence. }
  split; [done|].
  unfold loadPluginSets.
  destruct (foldM_loadPluginSet 0%nat pluginMap w1) as (r & w2 & attempted & Hload & L & Hatt).
  exists r, w2, attempted. split; [done|]. split.
  - destruct L as [_ _ ->]. by rewrite (gf_calls _ _ F).
  - split; [done|]. intros Hp. by apply Hnot, Hatt.
Qed.

(** C8, amended.  Grouping, sorting and loading leave every metadata
    object as it was, except its [version]: a version that is no semantic
    version may have been overwritten with ["0.0.0"].  No object is added
    or removed. *)
Theorem C8_only_version_is_rewritten (argv : Argv) (plugins : list Descriptor)
    (w : World St) :
  let w' := snd (resolvePlugins argv plugins w) in
  length (heap w') = length (heap w)
  ∧ ∀ r : nat,
      (∀ k : string, k ≠ "version" → (heap w' !!! r) !! k = (heap w !!! r) !! k)
      ∧ (get (heap w' !!! r) "version" = get (heap w !!! r) "version"
         ∨ (semver_valid (get (heap w !!! r) "version") = false
            ∧ get (heap w' !!! r) "version" = VStr "0.0.0")).
Proof.
  unfold resolvePlugins, bind, groupPlugins.
  destruct (foldM_groupPlugin (shouldWhiteList argv) (whiteListedNames argv) [] plugins w)
    as (pluginMap & w1 & -> & F & _).
  unfold loadPluginSets.
  destruct (foldM_loadPluginSet 0%nat pluginMap w1) as (r & w2 & attempted & -> & L & _).
  simpl. rewrite (lf_heap _ _ _ L).
  pose proof (gf_heap _ _ F) as Hn. split; [apply Hn|].
  intros ref. split.
  - intros k Hk. by apply normalized_name.
  - destruct Hn as [_ Hn]. destruct (Hn ref) as [->|[Hv ->]]; [by left|].
    right. split; [done|]. unfold get. by rewrite lookup_insert_eq.
Qed.

End ResolverTheorems.

(** ** The theorems at the concrete collaborators *)

Lemma C10_sibling_directory_admitted :
  "/plugins/foobar/node_modules"
  ∈ Sandbox.patched_nodeModulePaths
      (λ _, ["/plugins/foobar/node_modules"; "/plugins/node_modules"; "/node_modules"])
      ["/opt/generator"; "/plugins/foo"] "/plugins/foobar".
Proof.
  apply (C10_prefix_without_separator_boundary
           (λ _, ["/plugins/foobar/node_modules"; "/plugins/node_modules"; "/node_modules"])
           ["/opt/generator"; "/plugins/foo"] "/plugins/foobar"
           "/plugins/foobar/node_modules") with (r := "/plugins/foo")
           (extension := "bar/node_modules").
  - discriminate.
  - left.
  - right. left.
  - reflexivity.
Defined.

(** The scan of [A] finds the four plugins below it and registers the
    folder argument as it was given. *)
Example scan_of_A :
  fst (scanPluginDirectories (pluginfolder Demo.argv0) Demo.world0)
  = Ok [Demo.plugin_x; Demo.plugin_y; Demo.plugin_z; Demo.plugin_pre]
  ∧ whitelistedModuleFolders Demo.scanned = ["/opt/generator"; "A"]
  ∧ map (λ o, (get o "name", get o "version")) (heap Demo.scanned)
    = [(VStr "demo", VStr "1.0.0"); (VStr "demo", VStr "2.0.0");
       (VStr "other", VStr "banana"); (VStr "other", VStr "0.0.0-alpha")].
Proof. vm_compute. done. Qed.

(** The end-to-end run: version 2.0.0 of [demo] fails to load, version
    1.0.0 loads; the engine keeps running. *)
Example init_of_A :
  fst (init Demo.argv0 Demo.world0) = Ok Running
  ∧ load_calls (calls (snd (init Demo.argv0 Demo.world0)))
    = ["/w/A/y"; "/w/A/x"; "/w/A/z"]
  ∧ logged (snd (init Demo.argv0 Demo.world0))
    = [mkLog LevelError [AStr "Unable to load plugin at '/w/A/y': boom"]].
Proof. vm_compute. done. Qed.

(** With the semver model, a started engine ends in a running process or
    in exit code -3, whatever the folders hold. *)
Lemma demo_init_after_start (argv : Argv) (w : World nat) :
  ∃ outcome w',
    init argv w = (Ok outcome, w') ∧ (outcome = Running ∨ outcome = Exited (-3)).
Proof.
  by apply (@init_after_start nat Demo.collaborators SemverFacts.valid_sentinel
              SemverFacts.valid_rcompare DemoFacts.loads_have_messages
              argv w (ext w)).
Qed.

Lemma first_success_wins_witness :
  fst (loadPluginSet 0%nat ("PLUGIN-demo", [Demo.plugin_x; Demo.plugin_y]) Demo.scanned)
  = Ok 1%nat.
Proof.
  destruct (first_success_wins (St := nat) 0%nat "PLUGIN-demo"
              [Demo.plugin_x; Demo.plugin_y] [Demo.plugin_y; Demo.plugin_x]
              [Demo.plugin_y] [] Demo.plugin_x Demo.scanned
              ["boom"] 1%nat 2%nat) as (_ & _ & ->).
  - apply SemverFacts.rcompare_antisym.
  - apply SemverFacts.in_order_rcompare_trans.
  - vm_compute. reflexivity.
  - reflexivity.
  - vm_compute. reflexivity.
  - vm_compute. reflexivity.
  - reflexivity.
Defined.

(** C1.  The code at an input where it breaks off.  The group of [demo]
    holds versions 2.0.0 and 1.0.0; the load of 2.0.0, attempted first,
    throws [null], and the load of 1.0.0 would succeed.  Reading
    [loadingException.message] in the [catch] block of lines 335-338 throws
    a TypeError: nothing is logged for the failed load, the next candidate
    is never attempted, the group is not counted, and [init] ends in the
    handler of uncaught exceptions with exit code -1, after that one
    attempt.  The specification has the failure logged and the next
    candidate tried; the handler of uncaught exceptions, lines 373-381,
    does guard against such a value. *)
Theorem C1_null_throw_ends_resolution :
  sort_by (@compareVersions nat Cases.throws_null (heap Demo.scanned))
    [Demo.plugin_x; Demo.plugin_y] = Some [Demo.plugin_y; Demo.plugin_x]
  ∧ @loadPlugin nat Cases.throws_null "/w/A/y" 0%nat = (Throw (Thrown VNull), 1%nat)
  ∧ @loadPlugin nat Cases.throws_null "/w/A/x" 1%nat = (Ok tt, 2%nat)
  ∧ @loadPluginSet nat Cases.throws_null 0%nat
      ("PLUGIN-demo", [Demo.plugin_x; Demo.plugin_y]) Demo.scanned
    = (Throw (Error "TypeError" "Cannot read property 'message' of null"),
       mkWorld 1%nat (whitelistedModuleFolders Demo.scanned) (heap Demo.scanned)
         (logged Demo.scanned) (calls Demo.scanned ++ [CLoadPlugin "/w/A/y"]))
  ∧ fst (@init nat Cases.throws_null Demo.argv0 Demo.world0) = Ok (Exited (-1))
  ∧ load_calls (calls (snd (@init nat Cases.throws_null Demo.argv0 Demo.world0)))
    = ["/w/A/y"].
Proof.
  split; [vm_compute; reflexivity|]. split; [reflexivity|]. split; [reflexivity|].
  split; [vm_compute; reflexivity|]. split; vm_compute; reflexivity.
Qed.

Lemma C3_witness : fst (init Demo.argv_empty Demo.world0) = Ok (Exited (-3)).
Proof.
  edestruct (C3_zero_plugins_is_fatal (St := nat) Demo.argv_empty Demo.world0)
    as (_ & -> & _).
  - reflexivity.
  - vm_compute. reflexivity.
  - vm_compute. reflexivity.
  - reflexivity.
Defined.

Lemma C4_witness :
  ∃ pluginMap' w',
    groupPlugin false [] [] Demo.plugin_z Demo.scanned = (Ok pluginMap', w')
    ∧ in_pluginMap Demo.plugin_z pluginMap'
    ∧ get (heap w' !!! 2%nat) "version" = VStr "0.0.0".
Proof.
  destruct (C4_invalid_version_becomes_sentinel (St := nat) false [] []
              Demo.plugin_z Demo.scanned) as [(pm & w' & H1 & H2 & H3 & _) _].
  - vm_compute. lia.
  - reflexivity.
  - vm_compute. reflexivity.
  - exists pm, w'. split; [exact H1|]. split; [exact H2|exact H3].
Defined.

(** The group [other] of the run above: the plugin whose version [banana]
    became the sentinel is loaded, and the one with the valid version
    0.0.0-alpha is never attempted, because the sentinel orders before
    it. *)
Lemma C4_counterexample :
  Semver.valid (VStr "banana") = false
  ∧ Semver.valid (VStr "0.0.0-alpha") = true
  ∧ Semver.rcompare (VStr "0.0.0") (VStr "0.0.0-alpha") = Some (-1)
  ∧ Semver.rcompare (VStr "0.0.0") (VStr "0.0.0") = Some 0
  ∧ load_calls (calls (snd (init Demo.argv0 Demo.world0)))
    = ["/w/A/y"; "/w/A/x"; "/w/A/z"]
  ∧ ¬ (∀ s, Semver.valid (VStr s) = true →
            ∃ c, Semver.rcompare (VStr "0.0.0") (VStr s) = Some c ∧ 0 < c).
Proof.
  split; [reflexivity|]. split; [reflexivity|]. split; [reflexivity|].
  split; [reflexivity|]. split; [vm_compute; reflexivity|].
  intros H. destruct (H "0.0.0-alpha" eq_refl) as (c & Hc & Hpos).
  vm_compute in Hc. injection Hc as <-. lia.
Qed.

Lemma C5_witness :
  ∃ pluginMap w1,
    groupPlugins Demo.argv_whitelist
      [Demo.plugin_x; Demo.plugin_y; Demo.plugin_z; Demo.plugin_pre] Demo.scanned
    = (Ok pluginMap, w1)
    ∧ ¬ in_pluginMap Demo.plugin_z pluginMap.
Proof.
  assert (Hname : ∀ entry, entry ∈ split_on "," " demo ,x" →
            get (heap Demo.scanned !!! metadata Demo.plugin_z) "name"
            ≠ VStr (trim entry)).
  { intros entry Hentry.
    assert (Hz : get (heap Demo.scanned !!! metadata Demo.plugin_z) "name"
                 = VStr "other") by (vm_compute; reflexivity).
    rewrite Hz. clear Hz. change (entry ∈ [" demo "; "x"]) in Hentry.
    apply elem_of_cons in Hentry as [->|Hentry]; [discriminate|].
    apply elem_of_cons in Hentry as [->|Hentry]; [discriminate|].
    by apply elem_of_nil in Hentry. }
  pose proof (C5_whitelist_excludes_before_grouping (St := nat) Demo.argv_whitelist
                " demo ,x" [Demo.plugin_x; Demo.plugin_y; Demo.plugin_z; Demo.plugin_pre]
                Demo.plugin_z Demo.scanned eq_refl Hname) as (pm & w1 & H1 & H2 & _).
  exists pm, w1. split; [exact H1|exact H2].
Defined.

Lemma C6_witness :
  buildOptions Demo.argv_pipe !! "inputFd" = Some (VNum 3)
  ∧ buildOptions Demo.argv_pipe !! "password" = Some VNull.
Proof.
  destruct (C6_pipe_options_null_password Demo.argv_pipe) as (_ & H1 & _ & H2 & _).
  - left. split; reflexivity.
  - split; [exact H1|exact H2].
Defined.

(** Both handles are numbers and a password is supplied: the pipe
    transport is selected, and [options] has a [password] property (with
    the value [null]), so the property is not absent. *)
Lemma C6_counterexample :
  typeof (input Demo.argv_pipe) = TNumber
  ∧ typeof (output Demo.argv_pipe) = TNumber
  ∧ password Demo.argv_pipe = VStr "secret"
  ∧ selects_pipe (buildOptions Demo.argv_pipe)
  ∧ buildOptions Demo.argv_pipe !! "password" = Some VNull
  ∧ ¬ (∀ argv : Argv,
         (typeof (input argv) = TNumber ∧ typeof (output argv) = TNumber)
         ∨ (typeof (input argv) = TString ∧ typeof (output argv) = TString) →
         selects_pipe (buildOptions argv)
         ∧ buildOptions argv !! "password" = None).
Proof.
  split; [reflexivity|]. split; [reflexivity|]. split; [reflexivity|].
  split; [split; by eexists|]. split; [reflexivity|].
  intros H. destruct (H Demo.argv_pipe) as [_ Habsent].
  - left. split; reflexivity.
  - discriminate Habsent.
Qed.

Lemma C7_witness :
  ∃ w5,
    listPluginsInDirectory "A" Demo.world0
    = (Ok [Demo.plugin_x; Demo.plugin_y; Demo.plugin_z; Demo.plugin_pre], w5)
    ∧ stat_calls (calls w5)
      = ["/w/A"; "/w/A/x"; "/w/A/y"; "/w/A/z"; "/w/A/pre"; "/w/A/notes.txt"]
    ∧ metadata_calls (calls w5)
      = ["/w/A"; "/w/A/x"; "/w/A/y"; "/w/A/z"; "/w/A/pre"]
    ∧ readdir_calls (calls w5) = ["/w/A"].
Proof.
  destruct (C7_root_first_then_one_level (St := nat) "A" Demo.world0 0%nat)
    as [H _]; [reflexivity|].
  vm_compute in H. destruct H as (w5 & Hrun & _ & Hs & Hm & Hr).
  exists w5. split; [vm_compute; exact Hrun|]. split; [exact Hs|].
  split; [exact Hm|exact Hr].
Defined.

(** After the scan the object of [/w/A/z] holds the version it was read
    with; after grouping and loading it holds the sentinel: the metadata
    of a descriptor did change. *)
Lemma C8_counterexample :
  fst (scanPluginDirectories (pluginfolder Demo.argv0) Demo.world0)
  = Ok [Demo.plugin_x; Demo.plugin_y; Demo.plugin_z; Demo.plugin_pre]
  ∧ get (heap Demo.scanned !!! metadata Demo.plugin_z) "version" = VStr "banana"
  ∧ get (heap (snd (resolvePlugins Demo.argv0
                      [Demo.plugin_x; Demo.plugin_y; Demo.plugin_z; Demo.plugin_pre]
                      Demo.scanned)) !!! metadata Demo.plugin_z) "version"
    = VStr "0.0.0"
  ∧ ¬ (∀ (argv : Argv) (plugins : list Descriptor) (w : World nat) (d : Descriptor),
         d ∈ plugins →
         heap (snd (resolvePlugins argv plugins w)) !!! metadata d
         = heap w !!! metadata d).
Proof.
  split; [vm_compute; reflexivity|]. split; [vm_compute; reflexivity|].
  split; [vm_compute; reflexivity|].
  intros H.
  specialize (H Demo.argv0
                [Demo.plugin_x; Demo.plugin_y; Demo.plugin_z; Demo.plugin_pre]
                Demo.scanned Demo.plugin_z ltac:(right; right; left)).
  apply (f_equal (λ o, get o "version")) in H.
  vm_compute in H. discriminate H.
Qed.

Lemma C9_witness :
  whitelistedModuleFolders Demo.scanned = ["/opt/generator"; "A"]
  ∧ ¬ Sandbox.is_prefix "A" (path Demo.plugin_x).
Proof.
  destruct (C9_whitelist_verbatim_paths_resolved (St := nat)
              (pluginfolder Demo.argv0) Demo.world0)
    as (plugins & w' & Hrun & Hwl & _ & _ & Hrel & _).
  assert (Hw : w' = Demo.scanned).
  { unfold Demo.scanned. by rewrite Hrun. }
  assert (Hp : plugins = [Demo.plugin_x; Demo.plugin_y; Demo.plugin_z; Demo.plugin_pre]).
  { vm_compute in Hrun. by injection Hrun as <- _. }
  subst w' plugins. split.
  - rewrite Hwl. reflexivity.
  - apply (Hrel DemoFacts.join_absolute "A").
    + left.
    + intros [rest Hrest]. discriminate Hrest.
    + discriminate.
    + left.
Defined.

(** The empty folder argument, with the working directory [/w/A]: it is a
    relative path, it is registered as given, the descriptors found have
    absolute paths, and the registered entry is a prefix of them. *)
Lemma C9_counterexample :
  fst (@scanPluginDirectories nat Cases.in_folder_A (OneFolder "") Demo.world0)
  = Ok [Demo.plugin_x; Demo.plugin_y; Demo.plugin_z; Demo.plugin_pre]
  ∧ whitelistedModuleFolders
      (snd (@scanPluginDirectories nat Cases.in_folder_A (OneFolder "") Demo.world0))
    = ["/opt/generator"; ""]
  ∧ Sandbox.is_relative ""
  ∧ Sandbox.is_absolute (path Demo.plugin_x)
  ∧ Sandbox.is_prefix "" (path Demo.plugin_x)
  ∧ ¬ (∀ f d, f ∈ folders_list (OneFolder "") → Sandbox.is_relative f →
         d ∈ [Demo.plugin_x; Demo.plugin_y; Demo.plugin_z; Demo.plugin_pre] →
         ¬ Sandbox.is_prefix f (path d)).
Proof.
  split; [vm_compute; reflexivity|]. split; [vm_compute; reflexivity|].
  split; [by intros [rest ?]|]. split; [by exists "w/A/x"|].
  split; [by exists (path Demo.plugin_x)|].
  intros H. apply (H "" Demo.plugin_x).
  - left.
  - by intros [rest ?].
  - left.
  - by exists (path Demo.plugin_x).
Qed.

(** * Further properties

    Properties of the sandbox, the options object, the scanner, the
    resolver and the lifecycle beyond the theorems above. *)

(** ** The module sandbox at its edges *)

Lemma elem_of_patched (nodeModulePaths : string → list string)
    (whitelist : list string) (from path : string) :
  path ∈ Sandbox.patched_nodeModulePaths nodeModulePaths whitelist from
  ↔ path ∈ nodeModulePaths from ∧ Sandbox.admits whitelist path = true.
Proof.
  unfold Sandbox.patched_nodeModulePaths.
  by rewrite list_elem_of_In, filter_In, <- list_elem_of_In.
Qed.

(** X1.  The patched [Module._nodeModulePaths] returns a sublist of the
    original candidates (their order is kept and nothing is added); with an
    empty whitelist it returns nothing; with the empty string among the
    whitelist entries it returns every candidate that is not the empty
    string; and the empty string itself is never returned, because the
    callback returns the path and an empty one is falsy. *)
Theorem sandbox_edge_whitelists
    (nodeModulePaths : string → list string) (whitelist : list string)
    (from path : string) :
  Sandbox.patched_nodeModulePaths nodeModulePaths whitelist from
    `sublist_of` nodeModulePaths from
  ∧ Sandbox.patched_nodeModulePaths nodeModulePaths [] from = []
  ∧ ("" ∈ whitelist → path ≠ "" → path ∈ nodeModulePaths from →
     path ∈ Sandbox.patched_nodeModulePaths nodeModulePaths whitelist from)
  ∧ "" ∉ Sandbox.patched_nodeModulePaths nodeModulePaths whitelist from.
Proof.
  split; [|split; [|split]].
  - unfold Sandbox.patched_nodeModulePaths.
    induction (nodeModulePaths from) as [|p l IH]; [done|]. simpl.
    destruct (Sandbox.admits whitelist p); [by apply sublist_skip|by apply sublist_cons].
  - unfold Sandbox.patched_nodeModulePaths.
    induction (nodeModulePaths from) as [|p l IH]; [done|]. simpl. exact IH.
  - intros Hin Hne Hcand. apply elem_of_patched. split; [done|].
    apply (SandboxFacts.admits_iff whitelist path Hne).
    exists "". split; [done|]. by exists path.
  - rewrite elem_of_patched. intros [_ Hadm].
    revert Hadm. unfold Sandbox.admits.
    by destruct (SandboxFacts.filter_callback_cases whitelist "") as [[-> _]|[-> _]].
Qed.

(** ** The options object in full *)

Lemma transportOptions_cases (argv : Argv) :
  (((typeof (input argv) = TNumber ∧ typeof (output argv) = TNumber)
    ∨ (typeof (input argv) = TString ∧ typeof (output argv) = TString))
   ∧ transportOptions argv
     = <["password" := VNull]>
         (<["outputFd" := output argv]> (<["inputFd" := input argv]> ∅)))
  ∨ (¬ ((typeof (input argv) = TNumber ∧ typeof (output argv) = TNumber)
        ∨ (typeof (input argv) = TString ∧ typeof (output argv) = TString))
     ∧ ((typeof (port argv) = TNumber ∧ truthy (host argv) = true
         ∧ truthy (password argv) = true
         ∧ transportOptions argv
           = <["password" := password argv]>
               (<["hostname" := host argv]> (<["port" := port argv]> ∅)))
        ∨ (¬ (typeof (port argv) = TNumber ∧ truthy (host argv) = true
              ∧ truthy (password argv) = true)
           ∧ transportOptions argv = ∅))).
Proof.
  unfold transportOptions.
  destruct (decide (typeof (input argv) = TNumber)) as [Hin|Hin],
    (decide (typeof (output argv) = TNumber)) as [Hon|Hon],
    (decide (typeof (input argv) = TString)) as [His|His],
    (decide (typeof (output argv) = TString)) as [Hos|Hos];
    rewrite ?(bool_decide_eq_true_2 _ Hin), ?(bool_decide_eq_false_2 _ Hin),
      ?(bool_decide_eq_true_2 _ Hon), ?(bool_decide_eq_false_2 _ Hon),
      ?(bool_decide_eq_true_2 _ His), ?(bool_decide_eq_false_2 _ His),
      ?(bool_decide_eq_true_2 _ Hos), ?(bool_decide_eq_false_2 _ Hos); simpl;
    try (left; split; [tauto|reflexivity]).
  all: right; split; [tauto|].
  all: destruct (decide (typeof (port argv) = TNumber)) as [Hp|Hp];
    rewrite ?(bool_decide_eq_true_2 _ Hp), ?(bool_decide_eq_false_2 _ Hp); simpl;
    [|right; split; [tauto|reflexivity]].
  all: destruct (truthy (host argv)); simpl;
    [|right; split; [intros (_ & ? & _); done|reflexivity]].
  all: destruct (truthy (password argv)); simpl;
    [|right; split; [intros (_ & _ & ?); done|reflexivity]].
  all: left; done.
Qed.

Lemma transportOptions_other (argv : Argv) (k : string) :
  k ∉ ["inputFd"; "outputFd"; "password"; "port"; "hostname"] →
  transportOptions argv !! k = None.
Proof.
  intros Hk.
  assert (k ≠ "inputFd" ∧ k ≠ "outputFd" ∧ k ≠ "password" ∧ k ≠ "port"
          ∧ k ≠ "hostname") as (? & ? & ? & ? & ?).
  { repeat split; intros ->; apply Hk; repeat first [by left | right]. }
  destruct (transportOptions_cases argv) as [[_ ->]|[_ [(_ & _ & _ & ->)|[_ ->]]]];
    by rewrite ?lookup_insert_ne by done.
Qed.

Lemma passthrough_lookup (k : string) (v : value) (o : gmap string value) :
  o !! k = None → passthrough k v o !! k = optional_string v.
Proof.
  intros Ho. unfold passthrough, optional_string.
  destruct v as [| |b|n|s|t]; simpl; rewrite ?andb_false_r; try done.
  destruct (String.eqb s ""); simpl; [done|]. by rewrite lookup_insert_eq.
Qed.

(** X2.  The transport fields of [options] come in pairs and exclude each
    other: [inputFd] is set exactly when [outputFd] is, [port] exactly when
    [hostname] is, never a descriptor together with a port, and [password]
    is set exactly when one of the two transports was chosen. *)
Theorem options_transport_exclusive (argv : Argv) :
  (is_Some (buildOptions argv !! "inputFd") ↔ is_Some (buildOptions argv !! "outputFd"))
  ∧ (is_Some (buildOptions argv !! "port") ↔ is_Some (buildOptions argv !! "hostname"))
  ∧ ¬ (is_Some (buildOptions argv !! "inputFd") ∧ is_Some (buildOptions argv !! "port"))
  ∧ (is_Some (buildOptions argv !! "password")
     ↔ is_Some (buildOptions argv !! "inputFd") ∨ is_Some (buildOptions argv !! "port")).
Proof.
  rewrite !buildOptions_transport by (repeat first [by left | right]).
  destruct (transportOptions_cases argv) as [[_ ->]|[_ [(_ & _ & _ & ->)|[_ ->]]]];
    simplify_map_eq; rewrite ?is_Some_alt; simpl; tauto.
Qed.

(** X3.  When the handles are not both numbers and not both strings, and
    [port] is a number and [host] and [password] are truthy, the options
    select the socket: [port], [hostname] and [password] are the arguments,
    and no descriptor is set. *)
Theorem options_socket (argv : Argv) :
  ¬ ((typeof (input argv) = TNumber ∧ typeof (output argv) = TNumber)
     ∨ (typeof (input argv) = TString ∧ typeof (output argv) = TString)) →
  typeof (port argv) = TNumber → truthy (host argv) = true →
  truthy (password argv) = true →
  buildOptions argv !! "port" = Some (port argv)
  ∧ buildOptions argv !! "hostname" = Some (host argv)
  ∧ buildOptions argv !! "password" = Some (password argv)
  ∧ buildOptions argv !! "inputFd" = None
  ∧ buildOptions argv !! "outputFd" = None.
Proof.
  intros Hpipe Hport Hhost Hpw.
  rewrite !buildOptions_transport by (repeat first [by left | right]).
  destruct (transportOptions_cases argv) as [[? _]|[_ [(_ & _ & _ & ->)|[Hno _]]]];
    [done| |tauto].
  by simplify_map_eq.
Qed.

(** X4.  When neither transport test passes (handles of different kinds,
    say, with a port that is no number), [options] has no transport field
    at all: every key other than [config] and the three Photoshop fields is
    absent. *)
Theorem options_no_transport (argv : Argv) :
  ¬ ((typeof (input argv) = TNumber ∧ typeof (output argv) = TNumber)
     ∨ (typeof (input argv) = TString ∧ typeof (output argv) = TString)) →
  ¬ (typeof (port argv) = TNumber ∧ truthy (host argv) = true
     ∧ truthy (password argv) = true) →
  ∀ k, k ∉ ["config"; "photoshopVersion"; "photoshopPath"; "photoshopBinaryPath"] →
    buildOptions argv !! k = None.
Proof.
  intros Hpipe Hsocket k Hk.
  assert (k ≠ "config" ∧ k ≠ "photoshopVersion" ∧ k ≠ "photoshopPath"
          ∧ k ≠ "photoshopBinaryPath") as (? & ? & ? & ?).
  { repeat split; intros ->; apply Hk; repeat first [by left | right]. }
  unfold buildOptions. rewrite lookup_insert_ne by done.
  rewrite !passthrough_lookup_ne by done.
  destruct (transportOptions_cases argv) as [[? _]|[_ [(? & ? & ? & _)|[_ ->]]]];
    [done|tauto|done].
Qed.

(** X5.  Each of [photoshopVersion], [photoshopPath] and
    [photoshopBinaryPath] is copied to [options] exactly when the argument
    is a string that is not empty, and is absent otherwise (a number, null
    or the empty string is dropped); [config] is always set. *)
Theorem options_passthrough (argv : Argv) :
  buildOptions argv !! "photoshopVersion" = optional_string (photoshopVersion argv)
  ∧ buildOptions argv !! "photoshopPath" = optional_string (photoshopPath argv)
  ∧ buildOptions argv !! "photoshopBinaryPath"
    = optional_string (photoshopBinaryPath argv)
  ∧ buildOptions argv !! "config" = Some config.
Proof.
  assert (Hk : ∀ k, k ∈ ["photoshopVersion"; "photoshopPath"; "photoshopBinaryPath"] →
            transportOptions argv !! k = None).
  { intros k Hk. apply transportOptions_other. intros H.
    repeat (apply elem_of_cons in Hk as [->|Hk];
            [repeat (apply elem_of_cons in H as [?|H]; [done|]);
             by apply elem_of_nil in H|]).
    by apply elem_of_nil in Hk. }
  unfold buildOptions. split; [|split; [|split]].
  - rewrite lookup_insert_ne by done. rewrite !passthrough_lookup_ne by done.
    apply passthrough_lookup, Hk. left.
  - rewrite lookup_insert_ne by done. rewrite passthrough_lookup_ne by done.
    apply passthrough_lookup. rewrite passthrough_lookup_ne by done.
    apply Hk. right. left.
  - rewrite lookup_insert_ne by done.
    apply passthrough_lookup. rewrite !passthrough_lookup_ne by done.
    apply Hk. right. right. left.
  - by rewrite lookup_insert_eq.
Qed.

(** ** The footprint of the scanner *)

Section PreservesRules.
Context {St : Type} `{!Collaborators St}.
Context (R : World St → World St → Prop) `{!PreOrder R}.

Lemma preserves_ret {A : Type} (a : A) : preserves R (ret a).
Proof. intros w. simpl. reflexivity. Qed.

Lemma preserves_bind {A B : Type} (m : M St A) (k : A → M St B) :
  preserves R m → (∀ a, preserves R (k a)) → preserves R (bind m k).
Proof.
  intros Hm Hk w. unfold bind. specialize (Hm w).
  destruct (m w) as [[a|e] w1]; simpl in *; [|done].
  etrans; [exact Hm|apply Hk].
Qed.

Lemma preserves_try_catch {A : Type} (m : M St A) (h : Exn → M St A) :
  preserves R m → (∀ e, preserves R (h e)) → preserves R (try_catch m h).
Proof.
  intros Hm Hh w. unfold try_catch. specialize (Hm w).
  destruct (m w) as [[a|e] w1]; simpl in *; [done|].
  etrans; [exact Hm|apply Hh].
Qed.

Lemma preserves_foldM {A B : Type} (f : B → A → M St B) (b : B) (l : list A) :
  (∀ b a, preserves R (f b a)) → preserves R (foldM f b l).
Proof.
  intros Hf. revert b. induction l as [|a l IH]; intros b.
  - apply preserves_ret.
  - simpl. apply preserves_bind; [apply Hf|intros b'; apply IH].
Qed.

Lemma preserves_filterM {A : Type} (f : A → M St bool) (l : list A) :
  (∀ a, preserves R (f a)) → preserves R (filterM f l).
Proof.
  intros Hf. induction l as [|a l IH].
  - apply preserves_ret.
  - simpl. apply preserves_bind; [apply Hf|intros keep].
    apply preserves_bind; [apply IH|intros rest; apply preserves_ret].
Qed.

End PreservesRules.

Section ScannerFootprint.
Context {St : Type} `{!Collaborators St}.

Global Instance scanner_footprint_preorder : PreOrder (@scanner_footprint St).
Proof.
  split.
  - intros w. split; try done. exists []. by rewrite app_nil_r.
  - intros w1 w2 w3 [A1 B1 C1 (cs1 & E1 & F1)] [A2 B2 C2 (cs2 & E2 & F2)].
    split; try (by etrans).
    exists (cs1 ++ cs2). rewrite E2, E1, <- app_assoc. split; [done|].
    by apply Forall_app.
Qed.

Lemma call_scanner {A : Type} (c : Call) (f : St → Res A * St) :
  scanner_call c = true → preserves scanner_footprint (call c f).
Proof.
  intros Hc w. unfold call. destruct (f (ext w)) as [r s]. simpl.
  split; simpl; try done. exists [c]. split; [done|]. by constructor.
Qed.

Lemma log_scanner (l : Level) (a : list LogArg) :
  preserves (@scanner_footprint St) (log l a).
Proof.
  intros w. split; simpl; try done; [by apply prefix_app_r|].
  exists []. by rewrite app_nil_r.
Qed.

Lemma alloc_scanner (o : gmap string value) :
  preserves (@scanner_footprint St) (alloc o).
Proof.
  intros w. split; simpl; try done; [by apply prefix_app_r|].
  exists []. by rewrite app_nil_r.
Qed.

Lemma whitelist_push_scanner (f : string) :
  preserves (@scanner_footprint St) (whitelist_push f).
Proof.
  intros w. split; simpl; try done; [by apply prefix_app_r|].
  exists []. by rewrite app_nil_r.
Qed.

(** Takes a goal [preserves scanner_footprint m] apart along the structure
    of [m]. *)
Ltac footprint :=
  repeat first
    [ apply preserves_ret; tc_solve
    | apply log_scanner
    | apply alloc_scanner
    | apply whitelist_push_scanner
    | apply call_scanner; reflexivity
    | apply preserves_bind; [tc_solve| |intros ?]
    | apply preserves_try_catch; [tc_solve| |intros ?]
    | apply preserves_filterM; [tc_solve|intros ?]
    | apply preserves_foldM; [tc_solve|intros ? ?]
    | match goal with
      | |- preserves _ (if ?b then _ else _) => destruct b
      | |- preserves _ (let _ := _ in _) => cbv zeta
      end ].

Lemma scanPluginDirectories_footprint (folders : folders_arg) :
  preserves scanner_footprint (scanPluginDirectories folders).
Proof.
  unfold scanPluginDirectories, scanFolder, listPluginsInDirectory, pushIfPlugin.
  footprint.
Qed.

Lemma scanner_calls_no_load (cs : list Call) :
  Forall (λ c, scanner_call c = true) cs → load_calls cs = [].
Proof.
  induction 1 as [|c cs Hc _ IH]; [done|].
  unfold load_calls in *. by destruct c.
Qed.

(** X6.  Scanning only scans: whatever the folders hold, the scan adds
    objects to the heap without touching those that were there, only adds
    log records, and the calls it makes are [statSync], [readdirSync],
    [getPluginMetadata] and [checkPluginCompatibility]; no plugin is
    loaded, and the engine is neither started nor shut down. *)
Theorem scan_only_scans (folders : folders_arg) (w : World St) :
  let w' := snd (scanPluginDirectories folders w) in
  heap w `prefix_of` heap w'
  ∧ logged w `prefix_of` logged w'
  ∧ load_calls (calls w') = load_calls (calls w)
  ∧ ∃ cs, calls w' = calls w ++ cs ∧ Forall (λ c, scanner_call c = true) cs.
Proof.
  destruct (scanPluginDirectories_footprint folders w) as [_ Hh Hl (cs & Hcs & Hall)].
  split; [done|]. split; [done|]. split; [|by exists cs].
  rewrite Hcs. unfold load_calls. rewrite omap_app.
  fold (load_calls cs). by rewrite (scanner_calls_no_load cs Hall), app_nil_r.
Qed.

(** ** Scanning folder by folder *)

Lemma foldM_app {A B : Type} (f : B → A → M St B) (b : B) (l1 l2 : list A)
    (w : World St) :
  foldM f b (l1 ++ l2) w
  = match foldM f b l1 w with
    | (Ok b', w') => foldM f b' l2 w'
    | (Throw e, w') => (Throw e, w')
    end.
Proof.
  revert b w. induction l1 as [|a l1 IH]; intros b w; [done|].
  simpl app. rewrite !foldM_cons. destruct (f b a w) as [[b'|e] w1]; [apply IH|done].
Qed.

Lemma scanFolder_accumulates (allPlugins : list Descriptor) (f : string)
    (w : World St) :
  ∃ found w', scanFolder [] f w = (Ok found, w')
    ∧ scanFolder allPlugins f w = (Ok (allPlugins ++ found), w').
Proof.
  rewrite !scanFolder_run.
  destruct (listPluginsInDirectory f _) as [[found|e] w1].
  - exists found. simpl app.
    assert (Hb : bool_decide (length allPlugins = length (allPlugins ++ found))
                 = bool_decide (length (@nil Descriptor) = length found)).
    { apply bool_decide_ext. rewrite length_app. simpl. lia. }
    rewrite Hb. eexists. split; reflexivity.
  - exists []. rewrite app_nil_r. eexists. split; reflexivity.
Qed.

Lemma foldM_scanFolder_accumulates (allPlugins : list Descriptor)
    (folders : list string) (w : World St) :
  ∃ found w', foldM scanFolder [] folders w = (Ok found, w')
    ∧ foldM scanFolder allPlugins folders w = (Ok (allPlugins ++ found), w').
Proof.
  revert allPlugins w. induction folders as [|f folders IH]; intros allPlugins w.
  - exists [], w. by rewrite app_nil_r.
  - rewrite !foldM_cons.
    destruct (scanFolder_accumulates allPlugins f w) as (found & w1 & -> & ->).
    destruct (IH found w1) as (rest & w2 & Hnil & ->).
    destruct (IH (allPlugins ++ found) w1) as (rest' & w2' & Hnil' & ->).
    rewrite Hnil in Hnil'. injection Hnil' as <- <-.
    exists (found ++ rest), w2. by rewrite app_assoc.
Qed.

(** X7.  Scanning a list of folders is scanning its parts one after the
    other: the scan of [folders1 ++ folders2] returns the plugins of
    [folders1] followed by those of [folders2], scanned from the world the
    first scan left; what was found before does not change what a folder
    yields or logs.  A single folder is scanned as the array of it. *)
Theorem scan_concatenates (folders1 folders2 : list string) (w : World St) :
  (∃ plugins1 w1 plugins2 w2,
     scanPluginDirectories (Folders folders1) w = (Ok plugins1, w1)
     ∧ scanPluginDirectories (Folders folders2) w1 = (Ok plugins2, w2)
     ∧ scanPluginDirectories (Folders (folders1 ++ folders2)) w
       = (Ok (plugins1 ++ plugins2), w2))
  ∧ ∀ f, scanPluginDirectories (OneFolder f) w = scanPluginDirectories (Folders [f]) w.
Proof.
  split; [|done]. unfold scanPluginDirectories. simpl.
  destruct (foldM_scanFolder_accumulates [] folders1 w) as (p1 & w1 & H1 & _).
  destruct (foldM_scanFolder_accumulates p1 folders2 w1) as (p2 & w2 & H2 & H2').
  exists p1, w1, p2, w2. split; [done|]. split; [done|].
  by rewrite foldM_app, H1.
Qed.

(** X8.  A folder argument whose resolution is no directory ([statSync]
    throws, or [isDirectory()] is false) yields no plugin and no call but
    the [statSync]: the folder is still pushed on the whitelist, the error
    of [statSync] (if any) is logged, then the error that the resolved path
    is not a directory, then the warning that no viable plugins were found
    in the folder as given. *)
Theorem scan_of_non_directory (allPlugins : list Descriptor) (f : string)
    (w : World St) (r : Res bool) (s : St) :
  statSync_isDirectory (resolve cwd f) (ext w) = (r, s) →
  r ≠ Ok true →
  scanFolder allPlugins f w
  = (Ok allPlugins,
     mkWorld s (whitelistedModuleFolders w ++ [f]) (heap w)
       (logged w
        ++ match r with Throw err => [mkLog LevelError [AExn err]] | Ok _ => [] end
        ++ [mkLog LevelError
              [AStr "Error: specified plugin path '%s' is not a directory";
               AStr (resolve cwd f)];
            mkLog LevelWarn [AStr ("No viable plugins were found in '" +:+ f +:+ "'")]])
       (calls w ++ [CStatSync (resolve cwd f)])).
Proof.
  intros Hstat Hr. rewrite scanFolder_run, listPluginsInDirectory_run.
  unfold checkIfPathDirectory, try_catch, call, bind, log, ret. simpl.
  rewrite Hstat. destruct r as [[|]|err]; [done| |]; simpl.
  - rewrite app_nil_r, bool_decide_eq_true_2 by done.
    by rewrite <- !app_assoc.
  - rewrite app_nil_r, bool_decide_eq_true_2 by done.
    by rewrite <- !app_assoc.
Qed.

(** X9.  When a folder is a directory and no plugin itself, and
    [readdirSync] on it throws, the exception is caught by the scan of
    that folder: the plugins found so far are kept, the error is logged
    with the folder as given and the exception, no warning about viable
    plugins is logged, and the scan goes on to the next folder. *)
Theorem scan_survives_unreadable_folder (allPlugins : list Descriptor)
    (f : string) (w w1 w2 : World St) (e : Exn) (s : St) :
  checkIfPathDirectory (resolve cwd f)
    (mkWorld (ext w) (whitelistedModuleFolders w ++ [f]) (heap w) (logged w) (calls w))
  = (Ok true, w1) →
  verifyPluginAtPath (resolve cwd f) w1 = (Ok None, w2) →
  readdirSync (resolve cwd f) (ext w2) = (Throw e, s) →
  scanFolder allPlugins f w
  = (Ok allPlugins,
     mkWorld s (whitelistedModuleFolders w2) (heap w2)
       (logged w2 ++ [mkLog LevelError
          [AStr ("Error processing plugin directory %s" +:+ line_feed);
               AStr f; AExn e]])
       (calls w2 ++ [CReaddirSync (resolve cwd f)])).
Proof.
  intros Hdir Hroot Hread.
  rewrite scanFolder_run, listPluginsInDirectory_run, Hdir, Hroot.
  unfold call. by rewrite Hread.
Qed.

(** ** The sandbox after a scan *)

Lemma scan_whitelist (folders : folders_arg) (w : World St) :
  whitelistedModuleFolders (snd (scanPluginDirectories folders w))
  = whitelistedModuleFolders w ++ folders_list folders.
Proof.
  unfold scanPluginDirectories.
  destruct (foldM_scanFolder [] (folders_list folders) w) as (found & w' & -> & Hwl & _).
  exact Hwl.
Qed.

(** X10.  The scan registers its folders with the sandbox: every path
    [Module._nodeModulePaths] returned before the scan is still returned
    after it, and every candidate (other than the empty string) that has a
    scanned folder argument as a prefix is returned after it. *)
Theorem scan_registers_folders (nodeModulePaths : string → list string)
    (folders : folders_arg) (w : World St) (from path : string) :
  let w' := snd (scanPluginDirectories folders w) in
  (path ∈ Module_nodeModulePaths nodeModulePaths from w →
   path ∈ Module_nodeModulePaths nodeModulePaths from w')
  ∧ (∀ f, f ∈ folders_list folders → Sandbox.is_prefix f path →
       path ≠ "" → path ∈ nodeModulePaths from →
       path ∈ Module_nodeModulePaths nodeModulePaths from w').
Proof.
  unfold Module_nodeModulePaths. simpl. rewrite scan_whitelist. split.
  - rewrite !elem_of_patched. intros [Hc Hadm]. split; [done|].
    eapply SandboxFacts.admits_mono; [|exact Hadm].
    intros p Hp. apply elem_of_app. by left.
  - intros f Hf Hpre Hne Hc. apply elem_of_patched. split; [done|].
    apply SandboxFacts.admits_iff; [done|]. exists f. split; [|done].
    apply elem_of_app. by right.
Qed.

(** X11.  With POSIX paths, folder arguments that are relative paths
    other than the empty string register nothing for absolute candidates:
    when every scanned folder argument is such a path, an absolute path is
    returned by [Module._nodeModulePaths] after the scan exactly when it
    was returned before it.  (The empty folder argument is a relative path
    too, and registers every path.) *)
Theorem relative_folders_register_nothing (nodeModulePaths : string → list string)
    (folders : folders_arg) (w : World St) (from path : string) :
  (∀ f, f ∈ folders_list folders → Sandbox.is_relative f ∧ f ≠ "") →
  Sandbox.is_absolute path →
  path ∈ Module_nodeModulePaths nodeModulePaths from
           (snd (scanPluginDirectories folders w))
  ↔ path ∈ Module_nodeModulePaths nodeModulePaths from w.
Proof.
  intros Hrel Habs. unfold Module_nodeModulePaths. rewrite scan_whitelist.
  rewrite !elem_of_patched.
  assert (Hne : path ≠ "") by (destruct Habs as [rest ->]; done).
  rewrite !(SandboxFacts.admits_iff _ path Hne).
  split; intros [Hc (p & Hp & Hpre)]; (split; [done|]).
  - apply elem_of_app in Hp as [Hp|Hp]; [by exists p|].
    destruct (Hrel p Hp) as [Hp_rel Hp_ne].
    destruct (SandboxFacts.relative_not_prefix_of_absolute p path); auto.
  - exists p. split; [|done]. apply elem_of_app. by left.
Qed.

End ScannerFootprint.

(** ** Grouping and loading in full *)

Section ResolverMore.
Context {St : Type} `{!Collaborators St}.

(** The [for] loop of lines 331-344: what was attempted, and how it
    ended. *)
Lemma loadFirst_outcome (l : list Descriptor) (w : World St) :
  ∃ r w' attempted,
    loadFirst l w = (r, w')
    ∧ attempted `prefix_of` l
    ∧ calls w' = calls w ++ map (λ d, CLoadPlugin (path d)) attempted
    ∧ heap w' = heap w
    ∧ whitelistedModuleFolders w' = whitelistedModuleFolders w
    ∧ match r with
      | Ok false => attempted = l
      | Ok true | Throw _ => attempted ≠ []
      end.
Proof.
  revert w. induction l as [|p l IH]; intros w.
  - exists (Ok false), w, []. simpl. by rewrite app_nil_r.
  - rewrite loadFirst_cons, tryLoad_run.
    destruct (loadPlugin (path p) (ext w)) as [[[]|e] s].
    + eexists (Ok true), _, [p]. split; [done|]. split; [by exists l|]. done.
    + rewrite read_message_run.
      assert (Hthrow : ∀ e' (w0 : World St),
                calls w0 = calls w ++ [CLoadPlugin (path p)] →
                heap w0 = heap w →
                whitelistedModuleFolders w0 = whitelistedModuleFolders w →
                ∃ r w' attempted,
                  (Throw e', w0) = (r, w')
                  ∧ attempted `prefix_of` p :: l
                  ∧ calls w' = calls w ++ map (λ d, CLoadPlugin (path d)) attempted
                  ∧ heap w' = heap w
                  ∧ whitelistedModuleFolders w' = whitelistedModuleFolders w
                  ∧ match r with
                    | Ok false => attempted = p :: l
                    | Ok true | Throw _ => attempted ≠ []
                    end).
      { intros e' w0 Hc Hh Hwl. exists (Throw e'), w0, [p].
        split; [done|]. split; [by exists l|]. done. }
      assert (Hnext : ∀ (w0 : World St),
                calls w0 = calls w ++ [CLoadPlugin (path p)] →
                heap w0 = heap w →
                whitelistedModuleFolders w0 = whitelistedModuleFolders w →
                ∃ r w' attempted,
                  loadFirst l w0 = (r, w')
                  ∧ attempted `prefix_of` p :: l
                  ∧ calls w' = calls w ++ map (λ d, CLoadPlugin (path d)) attempted
                  ∧ heap w' = heap w
                  ∧ whitelistedModuleFolders w' = whitelistedModuleFolders w
                  ∧ match r with
                    | Ok false => attempted = p :: l
                    | Ok true | Throw _ => attempted ≠ []
                    end).
      { intros w0 Hc Hh Hwl.
        destruct (IH w0) as (r & w' & att & -> & Hpre & Hc' & Hh' & Hwl' & Hr).
        exists r, w', (p :: att). split; [done|]. split; [by apply prefix_cons|].
        simpl. rewrite Hc', Hc, <- app_assoc. split; [done|].
        split; [congruence|]. split; [congruence|].
        destruct r as [[|]|]; [done|by f_equal|done]. }
      destruct e as [n m|v]; [by apply Hnext|].
      destruct (is_nullish v); [by apply Hthrow|by apply Hnext].
Qed.

Lemma loadPluginSet_outcome (n : nat) (entry : string * list Descriptor)
    (w : World St) :
  ∃ r w' attempted,
    loadPluginSet n entry w = (r, w')
    ∧ calls w' = calls w ++ map (λ d, CLoadPlugin (path d)) attempted
    ∧ heap w' = heap w
    ∧ whitelistedModuleFolders w' = whitelistedModuleFolders w
    ∧ attempted ⊆ snd entry
    ∧ (length attempted ≤ length (snd entry))%nat
    ∧ ∀ n', r = Ok n' →
        n' = n ∨ (n' = (n + 1)%nat ∧ (0 < length attempted)%nat).
Proof.
  rewrite loadPluginSet_run.
  destruct (sort_by _ _) as [sorted|] eqn:Hsort.
  - destruct (loadFirst_outcome sorted w)
      as (r & w' & att & -> & Hpre & Hc & Hh & Hwl & Hr).
    pose proof (sort_by_Permutation _ _ _ Hsort) as Hperm.
    assert (Hsub : att ⊆ snd entry).
    { intros d Hd. rewrite <- Hperm. destruct Hpre as [k ->]. apply elem_of_app. by left. }
    assert (Hlen : (length att ≤ length (snd entry))%nat).
    { rewrite <- (Permutation_length Hperm). by apply prefix_length. }
    destruct r as [[|]|e]; eexists _, w', att; (split; [reflexivity|]);
      (split; [done|]); (split; [done|]); (split; [done|]); (split; [done|]);
      (split; [done|]).
    + intros n' [= <-]. right. split; [done|]. destruct att; [done|simpl; lia].
    + intros n' [= <-]. by left.
    + done.
  - exists (Throw (Error "TypeError" "Invalid Version")), w, [].
    split; [done|]. simpl. rewrite app_nil_r. split; [done|]. split; [done|].
    split; [done|]. split; [by intros d Hd%elem_of_nil|]. split; [lia|done].
Qed.

Lemma foldM_loadPluginSet_outcome (n : nat)
    (pluginMap : list (string * list Descriptor)) (w : World St) :
  ∃ r w' attempted,
    foldM loadPluginSet n pluginMap w = (r, w')
    ∧ calls w' = calls w ++ map (λ d, CLoadPlugin (path d)) attempted
    ∧ heap w' = heap w
    ∧ whitelistedModuleFolders w' = whitelistedModuleFolders w
    ∧ (∀ d, d ∈ attempted → in_pluginMap d pluginMap)
    ∧ (length attempted ≤ length (concat (map snd pluginMap)))%nat
    ∧ ∀ n', r = Ok n' →
        (n ≤ n' ∧ n' - n ≤ length attempted ∧ n' - n ≤ length pluginMap)%nat.
Proof.
  revert n w. induction pluginMap as [|[k ps] pluginMap IH]; intros n w.
  - exists (Ok n), w, []. simpl. rewrite app_nil_r. split; [done|].
    split; [done|]. split; [done|]. split; [done|].
    split; [by intros d Hd%elem_of_nil|].
    split; [done|]. intros n' [= <-]. lia.
  - rewrite foldM_cons.
    destruct (loadPluginSet_outcome n (k, ps) w)
      as (r & w1 & a1 & -> & Hc1 & Hh1 & Hwl1 & Hsub & Hlen & Hn).
    destruct r as [n1|e].
    + destruct (IH n1 w1) as (r & w2 & a2 & -> & Hc2 & Hh2 & Hwl2 & Hin & Hlen2 & Hn2).
      exists r, w2, (a1 ++ a2). split; [done|].
      split; [by rewrite Hc2, Hc1, map_app, app_assoc|].
      split; [congruence|]. split; [congruence|]. split.
      { intros d [Hd|Hd]%elem_of_app.
        - exists k, ps. split; [left|by apply Hsub].
        - destruct (Hin d Hd) as (k' & ps' & Hk' & Hd'). exists k', ps'.
          split; [by right|done]. }
      split.
      { simpl in *. rewrite !length_app. lia. }
      intros n' Hr. specialize (Hn2 n' Hr). rewrite length_app. simpl.
      destruct (Hn n1 eq_refl) as [->|[-> Hpos]]; lia.
    + exists (Throw e), w1, a1. split; [done|]. split; [done|].
      split; [done|]. split; [done|]. split.
      { intros d Hd. exists k, ps. split; [left|by apply Hsub]. }
      split; [|done]. simpl in *. rewrite length_app. lia.
Qed.

Lemma pluginMap_push_size (key : string) (p : Descriptor)
    (pluginMap : list (string * list Descriptor)) :
  length (concat (map snd (pluginMap_push key p pluginMap)))
  = S (length (concat (map snd pluginMap))).
Proof.
  induction pluginMap as [|[k ps] rest IH]; [done|]. simpl.
  destruct (decide (k = key)); simpl; rewrite !length_app; [simpl; lia|].
  rewrite IH. lia.
Qed.

Lemma foldM_groupPlugin_size (whitelistMode : bool) (names : list string)
    (pluginMap : list (string * list Descriptor)) (plugins : list Descriptor)
    (w : World St) :
  (length (concat (map snd
     (match fst (foldM (groupPlugin whitelistMode names) pluginMap plugins w) with
      | Ok pm => pm
      | Throw _ => []
      end)))
   ≤ length (concat (map snd pluginMap)) + length plugins)%nat.
Proof.
  revert pluginMap w. induction plugins as [|p plugins IH]; intros pluginMap w.
  - simpl. lia.
  - rewrite foldM_cons, groupPlugin_run.
    destruct (skipped _ _ _ _).
    + etrans; [apply IH|]. simpl. lia.
    + etrans; [apply IH|]. rewrite pluginMap_push_size. simpl. lia.
Qed.

(** The calls of grouping and loading, and the count against them. *)
Lemma resolvePlugins_calls (argv : Argv) (plugins : list Descriptor) (w : World St) :
  ∃ attempted,
    calls (snd (resolvePlugins argv plugins w))
    = calls w ++ map (λ d, CLoadPlugin (path d)) attempted
    ∧ whitelistedModuleFolders (snd (resolvePlugins argv plugins w))
      = whitelistedModuleFolders w
    ∧ ∀ n, fst (resolvePlugins argv plugins w) = Ok n → (n ≤ length attempted)%nat.
Proof.
  unfold resolvePlugins, bind, groupPlugins, loadPluginSets.
  destruct (foldM_groupPlugin (shouldWhiteList argv) (whiteListedNames argv) [] plugins w)
    as (pm & w1 & -> & F & _).
  destruct (foldM_loadPluginSet_outcome 0%nat pm w1)
    as (r & w2 & att & -> & Hc & _ & Hwl & _ & _ & Hn).
  exists att. simpl. split; [by rewrite Hc, (gf_calls _ _ F)|].
  split; [by rewrite Hwl, (gf_whitelist _ _ F)|].
  intros n Hr. specialize (Hn n Hr). lia.
Qed.

(** X12.  The groups hold exactly the scanned descriptors that pass the
    whitelist test of line 307; when [whiteListedPlugins] is no string
    (the default, null), every scanned descriptor is in a group. *)
Theorem grouping_membership (argv : Argv) (plugins : list Descriptor) (w : World St) :
  ∃ pluginMap w',
    groupPlugins argv plugins w = (Ok pluginMap, w')
    ∧ (∀ d, in_pluginMap d pluginMap ↔
         d ∈ plugins
         ∧ skipped (shouldWhiteList argv) (whiteListedNames argv) (heap w) d = false)
    ∧ (typeof (whiteListedPlugins argv) ≠ TString →
       ∀ d, in_pluginMap d pluginMap ↔ d ∈ plugins).
Proof.
  unfold groupPlugins.
  destruct (foldM_groupPlugin (shouldWhiteList argv) (whiteListedNames argv) [] plugins w)
    as (pm & w1 & Hrun & F & Hin).
  exists pm, w1. split; [done|].
  assert (Hmem : ∀ d, in_pluginMap d pm ↔
            d ∈ plugins
            ∧ skipped (shouldWhiteList argv) (whiteListedNames argv) (heap w) d = false).
  { intros d. rewrite Hin. split; [|by right].
    intros [(k & ps & []%elem_of_nil & _)|?]. done. }
  split; [done|]. intros Hno d. rewrite Hmem. unfold skipped, shouldWhiteList.
  rewrite (bool_decide_eq_false_2 _ Hno). simpl. tauto.
Qed.


(** X14.  A plugin whose metadata has no string under [name] is never
    loaded in whitelist mode, whatever the list says ([indexOf] compares
    with strict equality); without a whitelist a plugin with no [name] at
    all is grouped under the key ["PLUGIN-undefined"]. *)
Theorem plugins_without_a_name (names : list string)
    (pluginMap : list (string * list Descriptor)) (p : Descriptor) (w : World St) :
  typeof (get (heap w !!! metadata p) "name") ≠ TString →
  groupPlugin true names pluginMap p w = (Ok pluginMap, w)
  ∧ (get (heap w !!! metadata p) "name" = VUndefined →
     fst (groupPlugin false names pluginMap p w)
     = Ok (pluginMap_push "PLUGIN-undefined" p pluginMap)).
Proof.
  intros Hty. split.
  - rewrite groupPlugin_run.
    assert (Hskip : skipped true names (heap w) p = true).
    { unfold skipped. simpl. apply bool_decide_eq_true, indexOf_minus_one.
      intros s _ Heq. rewrite Heq in Hty. done. }
    by rewrite Hskip.
  - intros Hname. rewrite groupPlugin_run. unfold skipped. simpl. by rewrite Hname.
Qed.

(** X15.  When no scanned descriptor passes the whitelist test (as with
    the empty whitelist string, whose only entry is the empty name),
    grouping and loading do nothing at all: no version is rewritten, no
    plugin is loaded, nothing is logged, and the count is zero. *)
Theorem nothing_whitelisted (argv : Argv) (plugins : list Descriptor) (w : World St) :
  (∀ d, d ∈ plugins →
     skipped (shouldWhiteList argv) (whiteListedNames argv) (heap w) d = true) →
  resolvePlugins argv plugins w = (Ok 0%nat, w).
Proof.
  intros Hall. unfold resolvePlugins, bind, groupPlugins.
  assert (H : foldM (groupPlugin (shouldWhiteList argv) (whiteListedNames argv))
                [] plugins w = (Ok [], w)).
  { induction plugins as [|p plugins IH]; [done|].
    rewrite foldM_cons, groupPlugin_run, (Hall p) by left.
    apply IH. intros d Hd. apply Hall. by right. }
  by rewrite H.
Qed.

(** X16.  A group none of whose candidates loads, each load throwing a
    value whose message can be read (anything but [null] and [undefined]):
    every candidate is attempted once, in sorted order, one error is logged
    per candidate with its path and the message, the count stays as it
    was, and the loop ends without throwing. *)
Theorem group_without_loadable_candidate (n : nat) (key : string)
    (pluginSet sorted : list Descriptor) (w : World St) (messages : list string)
    (s1 : St) :
  sort_by (compareVersions (heap w)) pluginSet = Some sorted →
  load_failures sorted (ext w) = Some (messages, s1) →
  loadPluginSet n (key, pluginSet) w
  = (Ok n,
     mkWorld s1 (whitelistedModuleFolders w) (heap w)
       (logged w ++ zip_with load_error sorted messages)
       (calls w ++ map (λ d, CLoadPlugin (path d)) sorted))
  ∧ length messages = length pluginSet.
Proof.
  intros Hsort Hfail. split.
  - rewrite loadPluginSet_run. simpl snd. rewrite Hsort.
    by rewrite (loadFirst_all_fail sorted w messages s1 Hfail).
  - rewrite <- (Permutation_length (sort_by_Permutation _ _ _ Hsort)).
    clear Hsort. revert messages Hfail. generalize (ext w).
    induction sorted as [|p l IH]; intros s messages; simpl.
    + by intros [= <- _].
    + destruct (loadPlugin (path p) s) as [[[]|e] s']; [done|].
      destruct (exn_message e) as [message|]; [|done].
      destruct (load_failures l s') as [[ms s'']|] eqn:Hl; [|done].
      intros [= <- ->]. simpl. f_equal. by eapply IH.
Qed.

(** X17.  Grouping and loading call nothing but [loadPlugin]: the calls
    they add are loads of scanned descriptors, at most as many as there are
    scanned descriptors; loading leaves the heap as grouping left it, the module
    whitelist is as before, and the count returned is at most the number
    of loads attempted. *)
Theorem resolution_attempts_bounded (argv : Argv) (plugins : list Descriptor)
    (w : World St) :
  ∃ attempted,
    calls (snd (resolvePlugins argv plugins w))
    = calls w ++ map (λ d, CLoadPlugin (path d)) attempted
    ∧ heap (snd (resolvePlugins argv plugins w)) = heap (snd (groupPlugins argv plugins w))
    ∧ whitelistedModuleFolders (snd (resolvePlugins argv plugins w))
      = whitelistedModuleFolders w
    ∧ (∀ d, d ∈ attempted → d ∈ plugins)
    ∧ (length attempted ≤ length plugins)%nat
    ∧ ∀ n, fst (resolvePlugins argv plugins w) = Ok n →
        (n ≤ length attempted)%nat.
Proof.
  unfold resolvePlugins, bind, groupPlugins, loadPluginSets.
  pose proof (foldM_groupPlugin_size (shouldWhiteList argv) (whiteListedNames argv)
                [] plugins w) as Hsize.
  destruct (foldM_groupPlugin (shouldWhiteList argv) (whiteListedNames argv) [] plugins w)
    as (pm & w1 & Hrun & F & Hin).
  rewrite Hrun in Hsize |- *. simpl in Hsize.
  destruct (foldM_loadPluginSet_outcome 0%nat pm w1)
    as (r & w2 & att & -> & Hc & Hh & Hwl & Hatt & Hlen & Hn).
  exists att. simpl. split; [by rewrite Hc, (gf_calls _ _ F)|].
  split; [done|]. split; [by rewrite Hwl, (gf_whitelist _ _ F)|]. split.
  { intros d Hd. apply Hatt, Hin in Hd as [(k & ps & []%elem_of_nil & _)|[Hd _]]. done. }
  split; [lia|]. intros n Hr. specialize (Hn n Hr). lia.
Qed.

(** X18.  Version normalisation makes the sort safe.  When the semver
    package accepts ["0.0.0"] and compares any two versions it accepts,
    then after grouping every descriptor in a group has a version the
    package accepts, and the sort of every group returns: the comparator of
    line 328 never throws.  When, besides, every load that throws, throws a
    value whose message can be read (anything but [null] and [undefined]),
    grouping and loading return a count. *)
Theorem resolution_never_throws (argv : Argv) (plugins : list Descriptor)
    (w : World St) :
  semver_valid (VStr "0.0.0") = true →
  (∀ a b, semver_valid a = true → semver_valid b = true →
          is_Some (semver_rcompare a b)) →
  refs_valid w plugins →
  ∃ pluginMap w1,
    groupPlugins argv plugins w = (Ok pluginMap, w1)
    ∧ versions_valid (heap w1) pluginMap
    ∧ (∀ k pluginSet (w' : World St),
         (k, pluginSet) ∈ pluginMap → heap w' = heap w1 →
         ∃ sorted, sortPluginSet pluginSet w' = (Ok sorted, w'))
    ∧ ((∀ p s e s', loadPlugin p s = (Throw e, s') → is_Some (exn_message e)) →
       ∃ n w2, resolvePlugins argv plugins w = (Ok n, w2)).
Proof.
  intros Hsent Hcmp Hrefs.
  unfold resolvePlugins, bind, groupPlugins, loadPluginSets.
  destruct (foldM_groupPlugin_valid Hsent (shouldWhiteList argv) (whiteListedNames argv)
              [] plugins w Hrefs) as (pm & w1 & -> & Hv).
  { intros d (k & ps & []%elem_of_nil & _). }
  exists pm, w1. split; [done|]. split; [done|]. split.
  - intros k ps w' Hin Hheap. rewrite sortPluginSet_run, Hheap.
    destruct (sort_by_total (compareVersions (heap w1)) ps) as [sorted ->]; [|by eexists].
    intros x y Hx Hy. apply Hcmp; apply Hv; exists k, ps; by split.
  - intros Hmsg.
    destruct (foldM_loadPluginSet_returns Hcmp Hmsg 0%nat pm w1 Hv) as (n & w2 & ->).
    by exists n, w2.
Qed.

(** ** Whitelist entries are trimmed *)

Lemma chars_rev_app (s1 s2 : string) :
  chars (String.rev_app s1 s2) = reverse (chars s1) ++ chars s2.
Proof.
  revert s2. induction s1 as [|c s1 IH]; intros s2; [done|].
  simpl. rewrite IH. simpl. by rewrite reverse_cons, <- app_assoc.
Qed.

Lemma chars_rev (s : string) : chars (String.rev s) = reverse (chars s).
Proof. unfold String.rev. by rewrite chars_rev_app, app_nil_r. Qed.

Lemma trim_left_suffix (s : string) :
  chars (trim_left s) `suffix_of` chars s.
Proof.
  induction s as [|c s IH]; [done|]. simpl.
  destruct (is_white_space c); [by apply suffix_cons_r|done].
Qed.

Lemma trim_left_head (s : string) (c : ascii) :
  head (chars (trim_left s)) = Some c → is_white_space c = false.
Proof.
  induction s as [|a s IH]; [done|]. simpl.
  destruct (is_white_space a) eqn:Ha; [done|]. simpl. by intros [= <-].
Qed.

Lemma last_suffix {A : Type} (l k : list A) (x : A) :
  l `suffix_of` k → last l = Some x → last k = Some x.
Proof.
  intros [pre ->] Hl. destruct l as [|y l]; [done|].
  by rewrite last_app, Hl.
Qed.

Lemma trim_head (s : string) (c : ascii) :
  head (chars (trim s)) = Some c → is_white_space c = false.
Proof.
  unfold trim. rewrite chars_rev, head_reverse. intros Hlast.
  apply (last_suffix _ _ _ (trim_left_suffix _)) in Hlast.
  rewrite chars_rev, last_reverse in Hlast. by apply trim_left_head in Hlast.
Qed.

Lemma trim_last (s : string) (c : ascii) :
  last (chars (trim s)) = Some c → is_white_space c = false.
Proof.
  unfold trim. rewrite chars_rev, last_reverse. apply trim_left_head.
Qed.

(** X19.  The entries of the whitelist are trimmed and the names of the
    plugins are not: in whitelist mode a plugin whose name starts or ends
    with a white-space character is skipped whatever the list says, and
    neither grouped nor loaded. *)
Theorem padded_names_never_whitelisted (argv : Argv)
    (pluginMap : list (string * list Descriptor)) (p : Descriptor) (w : World St)
    (name : string) (c : ascii) :
  typeof (whiteListedPlugins argv) = TString →
  get (heap w !!! metadata p) "name" = VStr name →
  head (chars name) = Some c ∨ last (chars name) = Some c →
  is_white_space c = true →
  groupPlugin (shouldWhiteList argv) (whiteListedNames argv) pluginMap p w
  = (Ok pluginMap, w).
Proof.
  intros Hty Hname Hc Hws. rewrite groupPlugin_run.
  assert (Hskip : skipped (shouldWhiteList argv) (whiteListedNames argv) (heap w) p
                  = true).
  { unfold skipped, shouldWhiteList, whiteListedNames.
    rewrite (bool_decide_eq_true_2 _ Hty). simpl.
    apply bool_decide_eq_true, indexOf_minus_one.
    destruct (whiteListedPlugins argv) as [| | | |s|]; try done.
    intros entry (x & -> & _)%elem_of_map. rewrite Hname. intros [= ->].
    destruct Hc as [Hc|Hc]; [apply trim_head in Hc|apply trim_last in Hc];
      congruence. }
  by rewrite Hskip.
Qed.

End ResolverMore.

(** ** The lifecycle in full *)

Section LifecycleMore.
Context {St : Type} `{!Collaborators St}.

Lemma stop_run (exitCode : Z) (reason : string) (w : World St) :
  stop exitCode reason w
  = (Ok (Exited exitCode),
     mkWorld (shutdown (ext w)) (whitelistedModuleFolders w) (heap w)
       (logged w ++ [mkLog LevelError
          [AStr ("Exiting with code " +:+ pretty exitCode +:+ ": "
                 +:+ (if String.eqb reason "" then "no reason given" else reason))]])
       (calls w ++ [CShutdown])).
Proof. reflexivity. Qed.

Lemma onUncaughtException_run (err : Exn) (w : World St) :
  ∃ w', onUncaughtException err w = (Ok (Exited (-1)), w')
    ∧ calls w' = calls w ++ [CShutdown]
    ∧ whitelistedModuleFolders w' = whitelistedModuleFolders w.
Proof.
  unfold onUncaughtException, bind.
  destruct (match err with Error _ _ => true | Thrown v => truthy v end); simpl;
    rewrite stop_run; eexists; (split; [reflexivity|]); split; reflexivity.
Qed.

Lemma init_run (argv : Argv) (w : World St) :
  init argv w
  = match setupGenerator argv w with
    | (Ok Fulfilled, w') => (Ok Running, w')
    | (Ok (Rejected err), w') =>
        stop (-3) ("Generator failed to initialize: " +:+ exn_to_string err) w'
    | (Throw e, w') => onUncaughtException e w'
    end.
Proof.
  unfold init, try_catch, bind at 1.
  by destruct (setupGenerator argv w) as [[[|err]|e] w'].
Qed.

Lemma setupGenerator_run (argv : Argv) (w : World St) :
  setupGenerator argv w
  = match start (buildOptions argv) (ext w) with
    | (Fulfilled, s) =>
        onStarted argv
          (mkWorld s (whitelistedModuleFolders w) (heap w) (logged w)
             (calls w ++ [CStart (buildOptions argv)]))
    | (Rejected err, s) =>
        (Ok (Rejected err),
         mkWorld s (whitelistedModuleFolders w) (heap w) (logged w)
           (calls w ++ [CStart (buildOptions argv)]))
    end.
Proof.
  unfold setupGenerator, bind at 1, call.
  by destruct (start (buildOptions argv) (ext w)) as [[|err] s].
Qed.

Lemma onStarted_run (argv : Argv) (w : World St) :
  ∃ plugins w2,
    scanPluginDirectories (pluginfolder argv) w = (Ok plugins, w2)
    ∧ onStarted argv w
      = match resolvePlugins argv plugins w2 with
        | (Ok n, w3) =>
            (Ok (if bool_decide (n = 0%nat)
                 then Rejected (Thrown (VStr zero_plugins_message))
                 else Fulfilled), w3)
        | (Throw e, w3) => (Throw e, w3)
        end.
Proof.
  destruct (scanPluginDirectories_returns (pluginfolder argv) w) as (plugins & w2 & Hscan).
  exists plugins, w2. split; [done|].
  unfold onStarted, bind at 1. rewrite Hscan. unfold bind.
  destruct (resolvePlugins argv plugins w2) as [[n|e] w3]; [|done].
  by destruct (bool_decide (n = 0%nat)).
Qed.

(** X20.  The calls of a whole run of [init], in order: [start] with the
    options built from the command line, then calls of the scanner, then
    loads of plugins, and, exactly when the process exits, [shutdown] as the
    last call.  [init] never lets an exception escape; it leaves the process
    running, or exits with -3 or -1; and it leaves it running only after at
    least one load was attempted. *)
Theorem init_call_protocol (argv : Argv) (w : World St) :
  ∃ outcome w' scans attempted,
    init argv w = (Ok outcome, w')
    ∧ Forall (λ c, scanner_call c = true) scans
    ∧ calls w'
      = calls w ++ [CStart (buildOptions argv)] ++ scans
        ++ map (λ d, CLoadPlugin (path d)) attempted
        ++ match outcome with Running => [] | Exited _ => [CShutdown] end
    ∧ (outcome = Running ∧ attempted ≠ []
       ∨ outcome = Exited (-3) ∨ outcome = Exited (-1)).
Proof.
  rewrite init_run, setupGenerator_run.
  destruct (start (buildOptions argv) (ext w)) as [[|err] s].
  - set (w1 := mkWorld _ _ _ _ _).
    destruct (onStarted_run argv w1) as (plugins & w2 & Hscan & ->).
    destruct (scanPluginDirectories_footprint (pluginfolder argv) w1)
      as [_ _ _ (scans & Hscans & Hall)].
    rewrite Hscan in Hscans. simpl in Hscans.
    destruct (resolvePlugins_calls argv plugins w2) as (attempted & Hc & _ & Hn).
    destruct (resolvePlugins argv plugins w2) as [[n|e] w3]; simpl in Hc, Hn.
    + destruct (bool_decide_reflect (n = 0%nat)) as [->|Hne].
      * rewrite stop_run. eexists _, _, scans, attempted. split; [reflexivity|].
        split; [done|]. split; [|by right; left].
        simpl. rewrite Hc, Hscans. simpl. by rewrite <- !app_assoc.
      * eexists _, _, scans, attempted. split; [reflexivity|].
        split; [done|]. split; [|left; split; [done|]].
        -- rewrite Hc, Hscans. simpl. by rewrite app_nil_r, <- !app_assoc.
        -- intros ->. specialize (Hn n eq_refl). simpl in Hn. lia.
    + destruct (onUncaughtException_run e w3) as (w4 & -> & Hc4 & _).
      eexists _, _, scans, attempted. split; [reflexivity|].
      split; [done|]. split; [|by right; right].
      rewrite Hc4, Hc, Hscans. simpl. by rewrite <- !app_assoc.
  - rewrite stop_run. eexists _, _, [], []. split; [reflexivity|].
    split; [done|]. split; [|by right; left]. simpl. by rewrite <- app_assoc.
Qed.

(** X21.  When [start] is rejected nothing is scanned: [init] exits with
    -3 after logging the reason of the rejection, the only calls are
    [start] and [shutdown], and the module whitelist and the heap are as
    they were. *)
Theorem rejected_start_scans_nothing (argv : Argv) (w : World St) (err : Exn) (s : St) :
  start (buildOptions argv) (ext w) = (Rejected err, s) →
  init argv w
  = (Ok (Exited (-3)),
     mkWorld (shutdown s) (whitelistedModuleFolders w) (heap w)
       (logged w ++ [mkLog LevelError
          [AStr ("Exiting with code -3: Generator failed to initialize: "
                 +:+ exn_to_string err)]])
       (calls w ++ [CStart (buildOptions argv); CShutdown])).
Proof.
  intros Hstart. rewrite init_run, setupGenerator_run, Hstart, stop_run. simpl.
  by rewrite <- app_assoc.
Qed.

(** X22.  With a semver package that accepts ["0.0.0"] and compares the
    versions it accepts, and plugins whose loads, when they throw, throw a
    value whose message can be read (anything but [null] and [undefined]),
    a started engine never reaches the handler of uncaught exceptions: the
    scan and the resolution return, and [init] exits with -3 when the count
    is zero and otherwise leaves the process running in the world
    resolution left, with nothing more logged or called. *)
Theorem started_engine_never_crashes (argv : Argv) (w : World St) (s1 : St) :
  semver_valid (VStr "0.0.0") = true →
  (∀ a b, semver_valid a = true → semver_valid b = true →
          is_Some (semver_rcompare a b)) →
  (∀ p s e s', loadPlugin p s = (Throw e, s') → is_Some (exn_message e)) →
  start (buildOptions argv) (ext w) = (Fulfilled, s1) →
  ∃ plugins w2 n w3,
    scanPluginDirectories (pluginfolder argv)
      (mkWorld s1 (whitelistedModuleFolders w) (heap w) (logged w)
         (calls w ++ [CStart (buildOptions argv)])) = (Ok plugins, w2)
    ∧ resolvePlugins argv plugins w2 = (Ok n, w3)
    ∧ init argv w
      = if bool_decide (n = 0%nat)
        then stop (-3) ("Generator failed to initialize: " +:+ zero_plugins_message) w3
        else (Ok Running, w3).
Proof.
  intros Hsent Hcmp Hmsg Hstart. rewrite init_run, setupGenerator_run, Hstart.
  set (w1 := mkWorld _ _ _ _ _).
  destruct (onStarted_run argv w1) as (plugins & w2 & Hscan & ->).
  pose proof (scan_refs_valid (pluginfolder argv) w1) as Hrefs.
  rewrite Hscan in Hrefs. simpl in Hrefs.
  destruct (resolvePlugins_returns Hsent Hcmp Hmsg argv plugins w2
              (Hrefs plugins eq_refl))
    as (n & w3 & Hres).
  exists plugins, w2, n, w3. split; [done|]. split; [done|]. rewrite Hres.
  by destruct (bool_decide (n = 0%nat)).
Qed.

(** X23.  The module whitelist after [init]: when [start] is fulfilled
    it is the whitelist before followed by the folder arguments, in order
    and as given, whether plugins were loaded or not and also when the
    process exits; when [start] is rejected it is unchanged. *)
Theorem init_whitelist (argv : Argv) (w : World St) :
  whitelistedModuleFolders (snd (init argv w))
  = whitelistedModuleFolders w
    ++ match fst (start (buildOptions argv) (ext w)) with
       | Fulfilled => folders_list (pluginfolder argv)
       | Rejected _ => []
       end.
Proof.
  rewrite init_run, setupGenerator_run.
  destruct (start (buildOptions argv) (ext w)) as [[|err] s]; simpl.
  - set (w1 := mkWorld _ _ _ _ _).
    destruct (onStarted_run argv w1) as (plugins & w2 & Hscan & ->).
    pose proof (scan_whitelist (pluginfolder argv) w1) as Hwl.
    rewrite Hscan in Hwl. simpl in Hwl.
    destruct (resolvePlugins_calls argv plugins w2) as (attempted & _ & Hwl3 & _).
    destruct (resolvePlugins argv plugins w2) as [[n|e] w3]; simpl in Hwl3.
    + destruct (bool_decide (n = 0%nat)); simpl; congruence.
    + destruct (onUncaughtException_run e w3) as (w4 & -> & _ & Hwl4). simpl.
      congruence.
  - by rewrite app_nil_r.
Qed.

End LifecycleMore.

(** ** The further properties at concrete collaborators *)

Lemma relative_folders_register_nothing_witness :
  "/w/A/x/node_modules"
  ∉ Module_nodeModulePaths (λ _, ["/w/A/x/node_modules"; "/w/A/node_modules"])
      "/w/A/x" Demo.scanned.
Proof.
  unfold Demo.scanned.
  rewrite (relative_folders_register_nothing (St := nat)
             (λ _, ["/w/A/x/node_modules"; "/w/A/node_modules"])
             (pluginfolder Demo.argv0) Demo.world0 "/w/A/x" "/w/A/x/node_modules").
  - vm_compute. intros H. inversion H.
  - intros f Hf. apply list_elem_of_singleton in Hf as ->.
    split; [|discriminate]. intros [rest Hrest]. discriminate Hrest.
  - by exists "w/A/x/node_modules".
Defined.

Lemma options_socket_witness :
  buildOptions Demo.argv0 !! "port" = Some (VNum 49494)
  ∧ buildOptions Demo.argv0 !! "inputFd" = None.
Proof.
  destruct (options_socket Demo.argv0) as (H1 & _ & _ & H2 & _).
  - intros [[H _]|[H _]]; discriminate H.
  - reflexivity.
  - reflexivity.
  - reflexivity.
  - split; [exact H1|exact H2].
Defined.

Lemma options_no_transport_witness :
  buildOptions Cases.argv_mixed !! "password" = None
  ∧ buildOptions Cases.argv_mixed !! "inputFd" = None.
Proof.
  assert (H : ∀ k, k ∉ ["config"; "photoshopVersion"; "photoshopPath";
                        "photoshopBinaryPath"] →
              buildOptions Cases.argv_mixed !! k = None).
  { apply (options_no_transport Cases.argv_mixed).
    - intros [[_ H]|[H _]]; discriminate H.
    - intros (H & _). discriminate H. }
  split; apply H; intros Hk;
    repeat (apply elem_of_cons in Hk as [Hk|Hk]; [discriminate Hk|]);
    by apply elem_of_nil in Hk.
Defined.

Lemma scan_of_non_directory_witness :
  fst (scanFolder [] "A/notes.txt" Demo.world0) = Ok []
  ∧ metadata_calls (calls (snd (scanFolder [] "A/notes.txt" Demo.world0))) = [].
Proof.
  rewrite (scan_of_non_directory (St := nat) [] "A/notes.txt" Demo.world0
             (Ok false) 0%nat).
  - split; reflexivity.
  - reflexivity.
  - discriminate.
Defined.

Lemma scan_survives_unreadable_folder_witness :
  fst (scanFolder [] "A" Cases.world0) = Ok [].
Proof.
  erewrite (scan_survives_unreadable_folder (St := unit) [] "A" Cases.world0).
  - reflexivity.
  - reflexivity.
  - reflexivity.
  - reflexivity.
Defined.

Lemma plugins_without_a_name_witness :
  groupPlugin true ["demo"] [] Cases.plugin_nameless Cases.nameless
  = (Ok [], Cases.nameless).
Proof.
  apply (plugins_without_a_name (St := nat) ["demo"] [] Cases.plugin_nameless
           Cases.nameless).
  vm_compute. discriminate.
Defined.

Lemma nothing_whitelisted_witness :
  resolvePlugins Cases.argv_empty_whitelist
    [Demo.plugin_x; Demo.plugin_y; Demo.plugin_z; Demo.plugin_pre] Demo.scanned
  = (Ok 0%nat, Demo.scanned).
Proof.
  apply (nothing_whitelisted (St := nat)).
  intros d Hd.
  repeat (apply elem_of_cons in Hd as [->|Hd]; [vm_compute; reflexivity|]).
  by apply elem_of_nil in Hd.
Defined.

Lemma group_without_loadable_candidate_witness :
  fst (loadPluginSet 0%nat ("PLUGIN-demo", [Demo.plugin_y]) Demo.scanned) = Ok 0%nat.
Proof.
  destruct (group_without_loadable_candidate (St := nat) 0%nat "PLUGIN-demo"
              [Demo.plugin_y] [Demo.plugin_y] Demo.scanned
              ["boom"] 1%nat) as [-> _].
  - reflexivity.
  - vm_compute. reflexivity.
  - reflexivity.
Defined.

Lemma resolution_never_throws_witness :
  ∃ n w2,
    resolvePlugins Demo.argv0
      [Demo.plugin_x; Demo.plugin_y; Demo.plugin_z; Demo.plugin_pre] Demo.scanned
    = (Ok n, w2).
Proof.
  destruct (resolution_never_throws (St := nat) Demo.argv0
              [Demo.plugin_x; Demo.plugin_y; Demo.plugin_z; Demo.plugin_pre]
              Demo.scanned) as (pm & w1 & _ & _ & _ & H).
  - reflexivity.
  - apply SemverFacts.valid_rcompare.
  - intros d Hd.
    repeat (apply elem_of_cons in Hd as [->|Hd]; [vm_compute; lia|]).
    by apply elem_of_nil in Hd.
  - exact (H DemoFacts.loads_have_messages).
Defined.

Lemma padded_names_never_whitelisted_witness :
  groupPlugin (shouldWhiteList Demo.argv_whitelist)
    (whiteListedNames Demo.argv_whitelist) [] Cases.plugin_padded Cases.padded
  = (Ok [], Cases.padded).
Proof.
  apply (padded_names_never_whitelisted (St := nat) Demo.argv_whitelist []
           Cases.plugin_padded Cases.padded " demo" " "%char).
  - reflexivity.
  - reflexivity.
  - left. reflexivity.
  - reflexivity.
Defined.

Lemma rejected_start_scans_nothing_witness :
  fst (init Demo.argv0 Cases.world0) = Ok (Exited (-3))
  ∧ calls (snd (init Demo.argv0 Cases.world0))
    = [CStart (buildOptions Demo.argv0); CShutdown].
Proof.
  rewrite (rejected_start_scans_nothing (St := unit) Demo.argv0 Cases.world0
             (Error "Error" "ECONNREFUSED") tt).
  - split; reflexivity.
  - reflexivity.
Defined.

Lemma started_engine_never_crashes_witness :
  fst (init Demo.argv0 Demo.world0) = Ok Running.
Proof.
  destruct (started_engine_never_crashes (St := nat) Demo.argv0 Demo.world0 0%nat)
    as (plugins & w2 & n & w3 & Hscan & Hres & ->).
  - reflexivity.
  - apply SemverFacts.valid_rcompare.
  - apply DemoFacts.loads_have_messages.
  - reflexivity.
  - vm_compute in Hscan. injection Hscan as <- <-.
    vm_compute in Hres. injection Hres as <- <-. reflexivity.
Defined.
